(** * K-drive PRO: ingestion, enrichment and cost aggregation core

    A shallow embedding of [geminiService.ts] (the resilient JSON reader
    [extractJson], the plan decoder [generateTravelPlan], the readers
    [getAlternativePoints] and [recommendDestinations], [getSettings] and the
    handling of the answer in [callOpenAICompatible]) and of the application
    module ([RequestQueue], [parsePrice], [calculatePointCost],
    [prefetchAlternatives], [calculateTotalCost], the must-visit and avoid
    lists, the date and time handlers of the form with [formatBeijingDate],
    [saveSettings] and [getRealImages]), followed by the properties
    established about them.

    Conventions of the embedding.
    - A JavaScript string is the list of its UTF-16 code units ([jsstring]);
      a code unit is an [N].  ASCII literals are written with [js "..."], or
      with [jq "..."] where an apostrophe stands for the double quote.
    - A JavaScript number is kept exact: amounts of money and counters are
      [Z], the numbers read from JSON text are kept as the decimal they were
      written as ([decimal]); no rounding to binary64 is modelled.  The
      program computes in binary64, which holds every whole number up to
      2^53 ([exact_bound]): an amount of the model is the amount of the
      program as long as the numbers that make it up stay within that bound,
      and the properties that need exact sums and products carry the bound
      as a hypothesis.
    - An optional property ([ticket_price?: string]) is an [option].
    - Arrays updated by index use stdpp's list lookup and insert. *)

From Stdlib Require Import ZArith NArith List Bool Lia String Ascii Permutation Sorted.
From stdpp Require Import base list.
Import ListNotations.

#[local] Set Warnings "-register-all".
Local Open Scope Z_scope.

(** ** JavaScript strings *)

Definition jschar := N.
Definition jsstring := list jschar.

(** The code units of an ASCII literal. *)
Definition js (s : string) : jsstring := map N_of_ascii (list_ascii_of_string s).

(** The same for a literal in which an apostrophe stands for the double
    quote. *)
Definition jq (s : string) : jsstring :=
  map (fun c => if N.eqb c 39 then 34%N else c) (js s).

Definition chr_eqb (a b : jschar) : bool := N.eqb a b.

(** [\d] of a JavaScript regular expression (no [u] flag): ASCII digits. *)
Definition is_digit (c : jschar) : bool := (N.leb 48 c) && (N.leb c 57).

(** LineTerminator: LF, CR, U+2028, U+2029.  A [.] matches every code unit
    but these; with the [m] flag, [^] and [$] match next to them. *)
Definition is_line_terminator (c : jschar) : bool :=
  N.eqb c 10 || N.eqb c 13 || N.eqb c 8232 || N.eqb c 8233.

(** [\s] of a regular expression and the characters removed by [trim()]:
    WhiteSpace and LineTerminator. *)
Definition is_js_space (c : jschar) : bool :=
  N.eqb c 9 || N.eqb c 10 || N.eqb c 11 || N.eqb c 12 || N.eqb c 13 ||
  N.eqb c 32 || N.eqb c 160 || N.eqb c 5760 ||
  (N.leb 8192 c && N.leb c 8202) ||
  N.eqb c 8232 || N.eqb c 8233 || N.eqb c 8239 || N.eqb c 8287 ||
  N.eqb c 12288 || N.eqb c 65279.

Fixpoint drop_spaces (s : jsstring) : jsstring :=
  match s with
  | c :: r => if is_js_space c then drop_spaces r else s
  | [] => []
  end.

(** [String.prototype.trim]. *)
Definition trim (s : jsstring) : jsstring :=
  rev (drop_spaces (rev (drop_spaces s))).

Fixpoint starts_with (p s : jsstring) : bool :=
  match p, s with
  | [], _ => true
  | a :: p', b :: s' => chr_eqb a b && starts_with p' s'
  | _ :: _, [] => false
  end.

Fixpoint str_eqb (a b : jsstring) : bool :=
  match a, b with
  | [], [] => true
  | x :: a', y :: b' => chr_eqb x y && str_eqb a' b'
  | _, _ => false
  end.

(** [String.prototype.includes]. *)
Fixpoint includes (s p : jsstring) : bool :=
  starts_with p s ||
  match s with
  | [] => false
  | _ :: r => includes r p
  end.

(** Truthiness of an optional string property: present and not empty. *)
Definition truthy_str (o : option jsstring) : bool :=
  match o with
  | Some (_ :: _) => true
  | _ => false
  end.

(** ** Numbers read from text *)

(** The decimal [(-1)^dneg * dmant * 10^dexp]. *)
Record decimal := { dneg : bool; dmant : N; dexp : Z }.

(** ** Data model ([types.ts]) *)

Inductive Pacing := COMPACT | MODERATE | LEISURE.

Inductive AccommodationType := CAR | HOTEL.

Inductive PointType := attraction | restaurant | parking | hotel | start | end_.

Definition PointType_eqb (a b : PointType) : bool :=
  match a, b with
  | attraction, attraction | restaurant, restaurant | parking, parking
  | hotel, hotel | start, start | end_, end_ => true
  | _, _ => false
  end.

(** JSON values, as [JSON.parse] builds them.  An object keeps its members
    in the order of the text; reading a property takes the last member of
    that name. *)
Inductive JValue :=
| JNull
| JBool (b : bool)
| JNumber (d : decimal)
| JString (s : jsstring)
| JArray (l : list JValue)
| JObject (members : list (jsstring * JValue)).

Record LocationPoint := {
  id : jsstring;
  name : jsstring;
  type : PointType;
  time : jsstring;
  duration : jsstring;
  ticket_price : option jsstring;
  average_cost : option jsstring;
  description : jsstring;
  rating : decimal;
  user_ratings_total : decimal;
  arrivalTime : jsstring;
  travelTimeToNext : option jsstring;
  lat : decimal;
  lng : decimal;
  photo_url : option jsstring;
  address : option jsstring;
  alternatives : option (list JValue);
  reviews : option (list jsstring);
  photos : option (list jsstring)
}.

Record DayItinerary := {
  day : decimal;
  date : jsstring;
  transportation_cost : option jsstring;
  points : list LocationPoint
}.

Record TravelPlan := {
  plan_id : jsstring;
  title : jsstring;
  startPoint : jsstring;
  endPoint : jsstring;
  startTime : jsstring;
  endTime : jsstring;
  durationDays : Z;
  travelers : Z;
  isRoundTrip : bool;
  pacing : Pacing;
  includeAccom : bool;
  accommodationType : AccommodationType;
  hotelBudget : Z;
  mustVisit : option (list jsstring);
  avoid : option (list jsstring);
  days : list DayItinerary
}.

(** ** Cost aggregator *)

Fixpoint skip_to_digit (s : jsstring) : jsstring :=
  match s with
  | c :: r => if is_digit c then s else skip_to_digit r
  | [] => []
  end.

Fixpoint take_digits (s : jsstring) : jsstring :=
  match s with
  | c :: r => if is_digit c then c :: take_digits r else []
  | [] => []
  end.

(** [priceStr.match(/(\d+)/)]: the first maximal run of digits, if any. *)
Definition match_digits (s : jsstring) : option jsstring :=
  match take_digits (skip_to_digit s) with
  | [] => None
  | ds => Some ds
  end.

(** [parseInt(ds, 10)] on a run of digits: the number written.  The program
    gets this number when it is at most 2^53 and the nearest binary64 number
    beyond. *)
Definition parseInt10 (ds : jsstring) : Z :=
  fold_left (fun acc c => 10 * acc + (Z.of_N c - 48)) ds 0.

Definition parsePrice (priceStr : option jsstring) : Z :=
  if negb (truthy_str priceStr) then 0
  else
    match priceStr with
    | Some s =>
        match match_digits s with
        | Some m => parseInt10 m
        | None => 0
        end
    | None => 0
    end.

(** The marker "免费" (free of charge): U+514D U+8D39. *)
Definition free_marker : jsstring := [20813%N; 36153%N].

Definition str_includes (o : option jsstring) (p : jsstring) : bool :=
  match o with
  | Some s => includes s p
  | None => false
  end.

(** [Math.ceil(travelers / 2)] on an integer. *)
Definition ceil_half (travelers : Z) : Z := - ((- travelers) / 2).

(** The products and the sums are exact; those of the program are as long
    as the cost stays within 2^53. *)
Definition calculatePointCost (pt : LocationPoint) (travelers : Z) : Z :=
  let cost := 0 in
  (* 1. Ticket Price (Assume per person) *)
  let cost :=
    if truthy_str (ticket_price pt) && negb (str_includes (ticket_price pt) free_marker)
    then cost + parsePrice (ticket_price pt) * travelers
    else cost in
  (* 2. Average Cost (Dining/Hotel) *)
  let cost :=
    if truthy_str (average_cost pt) && negb (str_includes (average_cost pt) free_marker)
    then
      let price := parsePrice (average_cost pt) in
      if PointType_eqb (type pt) hotel then
        let rooms := ceil_half travelers in
        cost + price * rooms
      else if PointType_eqb (type pt) restaurant then
        cost + price * travelers
      else
        cost + price * travelers
    else cost in
  (* 3. Parking (Per car, assume 1 car) *)
  let cost :=
    if PointType_eqb (type pt) parking && truthy_str (ticket_price pt)
    then cost + parsePrice (ticket_price pt)
    else cost in
  cost.

(** The accumulators of [calculateTotalCost].  The sums are exact; those of
    the program are as long as the total stays within 2^53. *)
Record Costs := {
  total : Z;
  transport : Z;
  accom : Z;
  dining : Z;
  tickets : Z
}.

Definition add_point_cost (T : Z) (acc : Costs) (pt : LocationPoint) : Costs :=
  let cost := calculatePointCost pt T in
  let acc := {| total := total acc + cost; transport := transport acc;
                accom := accom acc; dining := dining acc; tickets := tickets acc |} in
  if PointType_eqb (type pt) hotel then
    {| total := total acc; transport := transport acc;
       accom := accom acc + cost; dining := dining acc; tickets := tickets acc |}
  else if PointType_eqb (type pt) restaurant then
    {| total := total acc; transport := transport acc;
       accom := accom acc; dining := dining acc + cost; tickets := tickets acc |}
  else if PointType_eqb (type pt) attraction then
    {| total := total acc; transport := transport acc;
       accom := accom acc; dining := dining acc; tickets := tickets acc + cost |}
  else if PointType_eqb (type pt) parking then
    {| total := total acc; transport := transport acc + cost;
       accom := accom acc; dining := dining acc; tickets := tickets acc |}
  else acc.

Definition add_day_cost (T : Z) (acc : Costs) (d : DayItinerary) : Costs :=
  (* Daily Transportation (Fuel/Tolls) *)
  let acc :=
    if truthy_str (transportation_cost d) then
      let tCost := parsePrice (transportation_cost d) in
      {| total := total acc + tCost; transport := transport acc + tCost;
         accom := accom acc; dining := dining acc; tickets := tickets acc |}
    else acc in
  fold_left (add_point_cost T) (points d) acc.

Definition calculateTotalCost (p : TravelPlan) : Costs :=
  fold_left (add_day_cost (travelers p)) (days p)
    {| total := 0; transport := 0; accom := 0; dining := 0; tickets := 0 |}.

(** ** Enrichment scheduler: the merge of one task's result

    [prefetchAlternatives] submits, for the point at [(dIdx, pIdx)], a task
    that awaits [getAlternativePoints] and then calls [setPlan] with the
    updater below.  The updater receives the latest plan ([prevPlan]) and
    returns the next one; it copies what it changes and mutates nothing. *)

Definition with_alternatives (pt : LocationPoint) (alts : list JValue) : LocationPoint :=
  {| id := id pt; name := name pt; type := type pt; time := time pt;
     duration := duration pt; ticket_price := ticket_price pt;
     average_cost := average_cost pt; description := description pt;
     rating := rating pt; user_ratings_total := user_ratings_total pt;
     arrivalTime := arrivalTime pt; travelTimeToNext := travelTimeToNext pt;
     lat := lat pt; lng := lng pt; photo_url := photo_url pt;
     address := address pt; alternatives := Some alts;
     reviews := reviews pt; photos := photos pt |}.

Definition with_points (d : DayItinerary) (ps : list LocationPoint) : DayItinerary :=
  {| day := day d; date := date d;
     transportation_cost := transportation_cost d; points := ps |}.

Definition with_days (p : TravelPlan) (ds : list DayItinerary) : TravelPlan :=
  {| plan_id := plan_id p; title := title p; startPoint := startPoint p;
     endPoint := endPoint p; startTime := startTime p; endTime := endTime p;
     durationDays := durationDays p; travelers := travelers p;
     isRoundTrip := isRoundTrip p; pacing := pacing p;
     includeAccom := includeAccom p; accommodationType := accommodationType p;
     hotelBudget := hotelBudget p; mustVisit := mustVisit p; avoid := avoid p;
     days := ds |}.

(** [newDays] after the guarded update of lines 411-416. *)
Definition merge_days (dIdx pIdx : nat) (alts : list JValue)
    (prevDays : list DayItinerary) : list DayItinerary :=
  let newDays := prevDays in
  match newDays !! dIdx with
  | Some d =>
      match points d !! pIdx with
      | Some pt =>
          let newPoints := points d in
          let newPoints := <[pIdx := with_alternatives pt alts]> newPoints in
          <[dIdx := with_points d newPoints]> newDays
      | None => newDays
      end
  | None => newDays
  end.

(** The updater passed to [setPlan] (lines 409-418). *)
Definition merge_alternatives (dIdx pIdx : nat) (alts : list JValue)
    (prevPlan : option TravelPlan) : option TravelPlan :=
  match prevPlan with
  | None => None
  | Some prevPlan => Some (with_days prevPlan (merge_days dIdx pIdx alts prevPlan.(days)))
  end.

(** The state cell [plan] of the component and its setter with an updater. *)
Definition setPlan (updater : option TravelPlan -> option TravelPlan)
    (plan : option TravelPlan) : option TravelPlan :=
  updater plan.

(** One completed fetch: the coordinate the task was created for and the
    list [getAlternativePoints] resolved with. *)
Record Completion := {
  c_day : nat;
  c_point : nat;
  c_alts : list JValue
}.

Definition coord (c : Completion) : nat * nat := (c_day c, c_point c).

Definition apply_completion (plan : option TravelPlan) (c : Completion) : option TravelPlan :=
  setPlan (merge_alternatives (c_day c) (c_point c) (c_alts c)) plan.

(** The plan after the completions arrived in the given order. *)
Definition apply_completions (order : list Completion) (plan : option TravelPlan)
    : option TravelPlan :=
  fold_left apply_completion order plan.

(** The point at a coordinate of a plan. *)
Definition point_at (p : TravelPlan) (d i : nat) : option LocationPoint :=
  match days p !! d with
  | Some dy => points dy !! i
  | None => None
  end.

(** ** Bounded concurrency task queue ([RequestQueue])

    JavaScript runs one piece of code at a time: [add] and the synchronous
    part of [process] run to the [await], and the rest of [process] runs when
    the awaited promise settles.  The model is a state with two kinds of
    events: a submission ([Add]) and the settling of the promise of a started
    task ([Settle]).  Exceptions are explicit: a computation returns a value
    or the exception that escapes it. *)

Definition exn := jsstring.

(** How the promise returned by a task settles. *)
Inductive outcome := Resolved | Rejected (e : exn).

(** A submitted function [fn : () => Promise<void>].  Calling it either
    throws at once or returns a promise, which the environment settles
    later. *)
Record task := { task_id : nat; throws_at_call : option exn }.

Record World := {
  queue : list task;          (* this.queue *)
  activeCount : Z;            (* this.activeCount *)
  awaiting : list task;       (* activations of process() suspended at [await fn()] *)
  started : list task;        (* trace: the calls fn(), in order *)
  finished : list task;       (* trace: tasks whose [finally] block has run *)
  console : list exn          (* console.error("Task failed", e) *)
}.

Definition maxConcurrent : Z := 2.

Definition new_RequestQueue : World :=
  {| queue := []; activeCount := 0; awaiting := []; started := [];
     finished := []; console := [] |}.

Definition M (A : Type) : Type := World -> (A + exn) * World.

Definition ret {A} (a : A) : M A := fun w => (inl a, w).

Definition throw {A} (e : exn) : M A := fun w => (inr e, w).

(** [try { body } catch (e) { handler(e) } finally { fin }]. *)
Definition try_catch_finally (body : M unit) (handler : exn -> M unit) (fin : M unit)
    : M unit :=
  fun w =>
    let '(r, w1) := body w in
    let '(r', w2) :=
      match r with
      | inl _ => (inl tt, w1)
      | inr e => handler e w1
      end in
    let '(rf, w3) := fin w2 in
    match rf with
    | inr e => (inr e, w3)
    | inl _ => (r', w3)
    end.

Definition console_error (e : exn) : M unit :=
  fun w =>
    (inl tt,
     {| queue := queue w; activeCount := activeCount w; awaiting := awaiting w;
        started := started w; finished := finished w; console := console w ++ [e] |}).

(** [this.activeCount++; const fn = this.queue.shift();] and the call [fn()]
    about to be made, with the rest of the queue [q']. *)
Definition take_task (fn : task) (q' : list task) (w : World) : World :=
  {| queue := q'; activeCount := activeCount w + 1; awaiting := awaiting w;
     started := started w ++ [fn]; finished := finished w; console := console w |}.

(** [fn()] returned a promise and [process] is suspended at the [await]. *)
Definition suspend (fn : task) (w : World) : World :=
  {| queue := queue w; activeCount := activeCount w; awaiting := awaiting w ++ [fn];
     started := started w; finished := finished w; console := console w |}.

(** [this.activeCount--] at the start of the [finally] block of [fn]. *)
Definition release (fn : task) (w : World) : World :=
  {| queue := queue w; activeCount := activeCount w - 1; awaiting := awaiting w;
     started := started w; finished := finished w ++ [fn]; console := console w |}.

(** [process()] up to its [await], on the queue [q = this.queue].  The
    test [if (fn)] holds, [fn] being a function.  A task that throws when
    called is caught at once and its [finally] block calls [process()] again,
    on the rest of the queue. *)
Fixpoint process_from (q : list task) (w : World) : (unit + exn) * World :=
  if (maxConcurrent <=? activeCount w) then (inl tt, w)
  else
    match q with
    | [] => (inl tt, w)
    | fn :: q' =>
        let w := take_task fn q' w in
        match throws_at_call fn with
        | None => (inl tt, suspend fn w)
        | Some e =>
            try_catch_finally (throw e) console_error
              (fun w => process_from q' (release fn w)) w
        end
    end.

Definition process : M unit := fun w => process_from (queue w) w.

Definition push (fn : task) (w : World) : World :=
  {| queue := queue w ++ [fn]; activeCount := activeCount w; awaiting := awaiting w;
     started := started w; finished := finished w; console := console w |}.

Definition add (fn : task) : M unit := fun w => process (push fn w).

(** The rest of [process()] after [await fn()], once the promise of [fn]
    has settled with outcome [o]. *)
Definition resume (fn : task) (o : outcome) : M unit :=
  try_catch_finally
    (match o with
     | Resolved => ret tt
     | Rejected e => throw e
     end)
    console_error
    (fun w => process (release fn w)).

Definition wake (i : nat) (w : World) : World :=
  {| queue := queue w; activeCount := activeCount w; awaiting := delete i (awaiting w);
     started := started w; finished := finished w; console := console w |}.

Inductive event :=
| Add (fn : task)                 (* requestQueue.add(fn) *)
| Settle (i : nat) (o : outcome). (* the promise of the i-th awaited task settles *)

(** One event; [None] when the event cannot happen (no such awaited task). *)
Definition step (ev : event) (w : World) : option ((unit + exn) * World) :=
  match ev with
  | Add fn => Some (add fn w)
  | Settle i o =>
      match awaiting w !! i with
      | Some fn => Some (resume fn o (wake i w))
      | None => None
      end
  end.

Fixpoint run (evs : list event) (w : World) : option World :=
  match evs with
  | [] => Some w
  | ev :: evs' =>
      match step ev w with
      | Some (_, w') => run evs' w'
      | None => None
      end
  end.

(** The tasks submitted by a sequence of events, in submission order. *)
Fixpoint submitted (evs : list event) : list task :=
  match evs with
  | [] => []
  | Add fn :: evs' => fn :: submitted evs'
  | Settle _ _ :: evs' => submitted evs'
  end.

Definition is_settle (ev : event) : bool :=
  match ev with
  | Settle _ _ => true
  | Add _ => false
  end.

(** The tasks that wait or run. *)
Definition pending (w : World) : nat := length (queue w) + length (awaiting w).

(** ** [JSON.parse]

    The built-in decoder, as a deterministic pushdown automaton reading one
    code unit at a time (ECMA-404 grammar).  The stack holds the containers
    that are still open, each with what it has collected so far. *)

Inductive frame :=
| FArr (elems : list JValue)                                  (* newest first *)
| FObj (members : list (jsstring * JValue)) (key : option jsstring).

Inductive numphase := NMinus | NZero | NInt | NDot | NFrac | NE | NESign | NExp.

Record numacc := { n_neg : bool; n_mant : N; n_scale : Z; n_eneg : bool; n_exp : N }.

Inductive escstate :=
| ENone
| EBackslash
| EUnicode (ds : list N).        (* values of the hex digits read after \u *)

Inductive mode :=
| MValue (first : bool)          (* a value is expected; [first]: just after '[' *)
| MKey (first : bool)            (* a key is expected; [first]: just after '{' *)
| MColon                         (* ':' is expected *)
| MAfter                         (* ',' or the closer of the open container *)
| MDone (v : JValue)             (* the top-level value is complete *)
| MStr (is_key : bool) (acc : jsstring) (esc : escstate)   (* [acc] newest first *)
| MNum (ph : numphase) (a : numacc)
| MLit (rest : jsstring) (v : JValue).

Record pstate := { stack : list frame; pmode : mode }.

Definition is_json_ws (c : jschar) : bool :=
  N.eqb c 9 || N.eqb c 10 || N.eqb c 13 || N.eqb c 32.

Definition c_quote : jschar := 34%N.
Definition c_backslash : jschar := 92%N.
Definition c_slash : jschar := 47%N.
Definition c_colon : jschar := 58%N.
Definition c_comma : jschar := 44%N.
Definition c_lbrace : jschar := 123%N.
Definition c_rbrace : jschar := 125%N.
Definition c_lbracket : jschar := 91%N.
Definition c_rbracket : jschar := 93%N.

(** A complete value goes to the innermost open container, or is the
    result. *)
Definition place (v : JValue) (stk : list frame) : option pstate :=
  match stk with
  | [] => Some {| stack := []; pmode := MDone v |}
  | FArr es :: stk' => Some {| stack := FArr (v :: es) :: stk'; pmode := MAfter |}
  | FObj ms (Some k) :: stk' =>
      Some {| stack := FObj ((k, v) :: ms) None :: stk'; pmode := MAfter |}
  | FObj _ None :: _ => None
  end.

Definition num_value (a : numacc) : decimal :=
  {| dneg := n_neg a; dmant := n_mant a;
     dexp := (if n_eneg a then - Z.of_N (n_exp a) else Z.of_N (n_exp a)) - n_scale a |}.

Definition num_accepting (ph : numphase) : bool :=
  match ph with
  | NZero | NInt | NFrac | NExp => true
  | NMinus | NDot | NE | NESign => false
  end.

Definition digit_val (c : jschar) : N := (c - 48)%N.

Definition push_int (a : numacc) (c : jschar) : numacc :=
  {| n_neg := n_neg a; n_mant := (10 * n_mant a + digit_val c)%N;
     n_scale := n_scale a; n_eneg := n_eneg a; n_exp := n_exp a |}.

Definition push_frac (a : numacc) (c : jschar) : numacc :=
  {| n_neg := n_neg a; n_mant := (10 * n_mant a + digit_val c)%N;
     n_scale := n_scale a + 1; n_eneg := n_eneg a; n_exp := n_exp a |}.

Definition push_exp (a : numacc) (c : jschar) : numacc :=
  {| n_neg := n_neg a; n_mant := n_mant a; n_scale := n_scale a;
     n_eneg := n_eneg a; n_exp := (10 * n_exp a + digit_val c)%N |}.

Definition exp_negative (a : numacc) : numacc :=
  {| n_neg := n_neg a; n_mant := n_mant a; n_scale := n_scale a;
     n_eneg := true; n_exp := n_exp a |}.

Definition num_start (neg : bool) : numacc :=
  {| n_neg := neg; n_mant := 0; n_scale := 0; n_eneg := false; n_exp := 0 |}.

Definition is_exp_mark (c : jschar) : bool := N.eqb c 101 || N.eqb c 69.

(** The next phase of a number on one more character, if it continues the
    number. *)
Definition num_step (ph : numphase) (a : numacc) (c : jschar) : option (numphase * numacc) :=
  match ph with
  | NMinus =>
      if N.eqb c 48 then Some (NZero, a)
      else if is_digit c then Some (NInt, push_int a c)
      else None
  | NZero =>
      if N.eqb c 46 then Some (NDot, a)
      else if is_exp_mark c then Some (NE, a)
      else None
  | NInt =>
      if is_digit c then Some (NInt, push_int a c)
      else if N.eqb c 46 then Some (NDot, a)
      else if is_exp_mark c then Some (NE, a)
      else None
  | NDot => if is_digit c then Some (NFrac, push_frac a c) else None
  | NFrac =>
      if is_digit c then Some (NFrac, push_frac a c)
      else if is_exp_mark c then Some (NE, a)
      else None
  | NE =>
      if N.eqb c 43 then Some (NESign, a)
      else if N.eqb c 45 then Some (NESign, exp_negative a)
      else if is_digit c then Some (NExp, push_exp a c)
      else None
  | NESign => if is_digit c then Some (NExp, push_exp a c) else None
  | NExp => if is_digit c then Some (NExp, push_exp a c) else None
  end.

Definition hex_val (c : jschar) : option N :=
  if is_digit c then Some (c - 48)%N
  else if N.leb 97 c && N.leb c 102 then Some (c - 87)%N
  else if N.leb 65 c && N.leb c 70 then Some (c - 55)%N
  else None.

(** The character an escape letter stands for ([\u] apart). *)
Definition simple_escape (c : jschar) : option jschar :=
  if N.eqb c 34 then Some 34%N
  else if N.eqb c 92 then Some 92%N
  else if N.eqb c 47 then Some 47%N
  else if N.eqb c 98 then Some 8%N
  else if N.eqb c 102 then Some 12%N
  else if N.eqb c 110 then Some 10%N
  else if N.eqb c 114 then Some 13%N
  else if N.eqb c 116 then Some 9%N
  else None.

(** A string literal is complete: a key waits for its ':', a value is
    placed. *)
Definition end_string (is_key : bool) (s : jsstring) (stk : list frame) : option pstate :=
  if is_key then
    match stk with
    | FObj ms None :: stk' => Some {| stack := FObj ms (Some s) :: stk'; pmode := MColon |}
    | _ => None
    end
  else place (JString s) stk.

Definition str_step (is_key : bool) (acc : jsstring) (esc : escstate)
    (stk : list frame) (c : jschar) : option pstate :=
  match esc with
  | ENone =>
      if N.eqb c c_quote then end_string is_key (rev acc) stk
      else if N.eqb c c_backslash then
        Some {| stack := stk; pmode := MStr is_key acc EBackslash |}
      else if N.ltb c 32 then None
      else Some {| stack := stk; pmode := MStr is_key (c :: acc) ENone |}
  | EBackslash =>
      if N.eqb c 117 then Some {| stack := stk; pmode := MStr is_key acc (EUnicode []) |}
      else
        match simple_escape c with
        | Some x => Some {| stack := stk; pmode := MStr is_key (x :: acc) ENone |}
        | None => None
        end
  | EUnicode ds =>
      match hex_val c with
      | Some h =>
          let ds' := ds ++ [h] in
          if Nat.eqb (length ds') 4 then
            let code := fold_left (fun x d => (16 * x + d)%N) ds' 0%N in
            Some {| stack := stk; pmode := MStr is_key (code :: acc) ENone |}
          else Some {| stack := stk; pmode := MStr is_key acc (EUnicode ds') |}
      | None => None
      end
  end.

(** After a complete value: white space, a comma, or the closer. *)
Definition after_step (stk : list frame) (c : jschar) : option pstate :=
  if is_json_ws c then Some {| stack := stk; pmode := MAfter |}
  else if N.eqb c c_comma then
    match stk with
    | FArr _ :: _ => Some {| stack := stk; pmode := MValue false |}
    | FObj _ None :: _ => Some {| stack := stk; pmode := MKey false |}
    | _ => None
    end
  else if N.eqb c c_rbracket then
    match stk with
    | FArr es :: stk' => place (JArray (rev es)) stk'
    | _ => None
    end
  else if N.eqb c c_rbrace then
    match stk with
    | FObj ms None :: stk' => place (JObject (rev ms)) stk'
    | _ => None
    end
  else None.

Definition done_step (v : JValue) (c : jschar) : option pstate :=
  if is_json_ws c then Some {| stack := []; pmode := MDone v |} else None.

(** What follows a complete value, in the state [st] reached by placing
    it. *)
Definition follow (st : pstate) (c : jschar) : option pstate :=
  match pmode st with
  | MAfter => after_step (stack st) c
  | MDone v => done_step v c
  | _ => None
  end.

Definition value_step (first : bool) (stk : list frame) (c : jschar) : option pstate :=
  if is_json_ws c then Some {| stack := stk; pmode := MValue first |}
  else if N.eqb c c_lbrace then Some {| stack := FObj [] None :: stk; pmode := MKey true |}
  else if N.eqb c c_lbracket then Some {| stack := FArr [] :: stk; pmode := MValue true |}
  else if N.eqb c c_quote then Some {| stack := stk; pmode := MStr false [] ENone |}
  else if N.eqb c 45 then Some {| stack := stk; pmode := MNum NMinus (num_start true) |}
  else if N.eqb c 48 then Some {| stack := stk; pmode := MNum NZero (num_start false) |}
  else if is_digit c then
    Some {| stack := stk; pmode := MNum NInt (push_int (num_start false) c) |}
  else if N.eqb c 116 then Some {| stack := stk; pmode := MLit (js "rue") (JBool true) |}
  else if N.eqb c 102 then Some {| stack := stk; pmode := MLit (js "alse") (JBool false) |}
  else if N.eqb c 110 then Some {| stack := stk; pmode := MLit (js "ull") JNull |}
  else if N.eqb c c_rbracket && first then
    match stk with
    | FArr es :: stk' => place (JArray (rev es)) stk'
    | _ => None
    end
  else None.

Definition key_step (first : bool) (stk : list frame) (c : jschar) : option pstate :=
  if is_json_ws c then Some {| stack := stk; pmode := MKey first |}
  else if N.eqb c c_quote then Some {| stack := stk; pmode := MStr true [] ENone |}
  else if N.eqb c c_rbrace && first then
    match stk with
    | FObj ms None :: stk' => place (JObject (rev ms)) stk'
    | _ => None
    end
  else None.

Definition pstep (st : pstate) (c : jschar) : option pstate :=
  let stk := stack st in
  match pmode st with
  | MValue first => value_step first stk c
  | MKey first => key_step first stk c
  | MColon =>
      if is_json_ws c then Some st
      else if N.eqb c c_colon then Some {| stack := stk; pmode := MValue false |}
      else None
  | MAfter => after_step stk c
  | MDone v => done_step v c
  | MStr k acc esc => str_step k acc esc stk c
  | MNum ph a =>
      match num_step ph a c with
      | Some (ph', a') => Some {| stack := stk; pmode := MNum ph' a' |}
      | None =>
          if num_accepting ph then
            match place (JNumber (num_value a)) stk with
            | Some st' => follow st' c
            | None => None
            end
          else None
      end
  | MLit rest v =>
      match rest with
      | x :: rest' =>
          if N.eqb c x then
            match rest' with
            | [] => place v stk
            | _ :: _ => Some {| stack := stk; pmode := MLit rest' v |}
            end
          else None
      | [] => None
      end
  end.

Fixpoint feed (st : pstate) (s : jsstring) : option pstate :=
  match s with
  | [] => Some st
  | c :: r =>
      match pstep st c with
      | Some st' => feed st' r
      | None => None
      end
  end.

(** End of the text: the top-level value must be complete. *)
Definition finish (st : pstate) : option JValue :=
  match pmode st, stack st with
  | MDone v, [] => Some v
  | MNum ph a, [] => if num_accepting ph then Some (JNumber (num_value a)) else None
  | _, _ => None
  end.

Definition pstart : pstate := {| stack := []; pmode := MValue false |}.

Definition JSON_parse (text : jsstring) : option JValue :=
  match feed pstart text with
  | Some st => finish st
  | None => None
  end.

(** ** The resilient reader [extractJson] *)

Inductive error :=
| UnrecoverableFormat   (* Error("AI output was incomplete or invalid. ...") *)
| TypeError.            (* reading a property of null *)

Inductive result (A : Type) :=
| Ok (a : A)
| Throw (e : error).

Arguments Ok {A} a.
Arguments Throw {A} e.

Definition fence : jsstring := js "```".

(** The text after the first occurrence of [p]. *)
Fixpoint after_first (p s : jsstring) : option jsstring :=
  if starts_with p s then Some (skipn (length p) s)
  else
    match s with
    | [] => None
    | _ :: r => after_first p r
    end.

(** The text before the first occurrence of [p]. *)
Fixpoint until_first (p s : jsstring) : option jsstring :=
  if starts_with p s then Some []
  else
    match s with
    | [] => None
    | c :: r => option_map (cons c) (until_first p r)
    end.

(** Group 1 of [jsonString.match(/```(?:json)?\s*([\s\S]*?)```/)], [None]
    when there is no match.  The match starts at the first fence; the
    optional [json] and the white space after it are taken whole (neither
    contains a backquote, so that giving some back never finds a closing
    fence that was not found before), and the group is the shortest text up
    to the next fence. *)
Definition codeBlockMatch (s : jsstring) : option jsstring :=
  match after_first fence s with
  | None => None
  | Some r =>
      let r := if starts_with (js "json") r then skipn 4 r else r in
      until_first fence (drop_spaces r)
  end.

(** [jsonString.replace(/(^|[^:])\/\/.*$/gm, '$1')], read from left to
    right.  [skipping]: inside a match, up to the end of the line.  [bol]:
    the position is the start of the text or follows a line terminator. *)
Fixpoint strip_comments_from (skipping bol : bool) (s : jsstring) : jsstring :=
  match s with
  | [] => []
  | c :: r =>
      if skipping && negb (is_line_terminator c) then strip_comments_from true false r
      else if bol && N.eqb c c_slash && starts_with [c_slash] r then
        (* ^ followed by // : nothing is kept *)
        strip_comments_from true false r
      else if negb (N.eqb c c_colon) && starts_with [c_slash; c_slash] r then
        (* [^:] followed by // : the character before the slashes is kept *)
        c :: strip_comments_from true false r
      else c :: strip_comments_from false (is_line_terminator c) r
  end.

Definition strip_comments (s : jsstring) : jsstring := strip_comments_from false true s.

Definition is_open (c : jschar) : bool := N.eqb c c_lbrace || N.eqb c c_lbracket.

Definition is_closer (c : jschar) : bool := N.eqb c c_rbrace || N.eqb c c_rbracket.

(** [jsonString.substring(jsonString.search(/[\{\[]/))], [None] for -1. *)
Fixpoint from_first_open (s : jsstring) : option jsstring :=
  match s with
  | [] => None
  | c :: r => if is_open c then Some s else from_first_open r
  end.

(** Steps 1 to 3: fence, comments, leading prose. *)
Definition clean (text : jsstring) : jsstring :=
  (* 1. Clean Markdown Code Blocks *)
  let jsonString := trim text in
  let jsonString :=
    match codeBlockMatch jsonString with
    | Some (c :: g) => trim (c :: g)
    | _ => jsonString
    end in
  (* 2. Remove comments (single line) *)
  let jsonString := strip_comments jsonString in
  (* 3. Heuristic: Locate Start of JSON *)
  match from_first_open jsonString with
  | Some s => s
  | None => jsonString
  end.

(** The variables of the repair loop (lines 96-98); the stack has its top
    first.  [lastValidCharIndex] is written and never read, it is left
    out. *)
Record scan_state := {
  closers : list jschar;
  inString : bool;
  isEscaped : bool
}.

Definition scan_start : scan_state :=
  {| closers := []; inString := false; isEscaped := false |}.

(** One iteration of the loop of lines 101-129. *)
Definition scan_char (st : scan_state) (char : jschar) : scan_state :=
  if isEscaped st then
    {| closers := closers st; inString := inString st; isEscaped := false |}
  else if N.eqb char c_backslash then
    {| closers := closers st; inString := inString st; isEscaped := true |}
  else
    let inStr := if N.eqb char c_quote then negb (inString st) else inString st in
    let stk :=
      if negb inStr then
        if N.eqb char c_lbrace then c_rbrace :: closers st
        else if N.eqb char c_lbracket then c_rbracket :: closers st
        else if N.eqb char c_rbrace || N.eqb char c_rbracket then
          match closers st with
          | expected :: below => if N.eqb char expected then below else closers st
          | [] => closers st
          end
        else closers st
      else closers st in
    {| closers := stk; inString := inStr; isEscaped := false |}.

Definition scan (s : jsstring) : scan_state := fold_left scan_char s scan_start.

(** [jsonString.replace(/,\s*$/, '')]: the last comma, when only white
    space follows it, goes with that white space. *)
Definition strip_trailing_comma (s : jsstring) : jsstring :=
  match drop_spaces (rev s) with
  | c :: r => if N.eqb c c_comma then rev r else s
  | [] => s
  end.

(** [jsonString.replace(/,\s*([\}\]])/g, '$1')], read from left to right.
    [pend = Some ws]: a comma and the white space [ws] have been read and
    are dropped if a closer comes next, put back otherwise. *)
Fixpoint remove_commas_from (pend : option jsstring) (s : jsstring) : jsstring :=
  match s with
  | [] =>
      match pend with
      | Some ws => c_comma :: ws
      | None => []
      end
  | c :: r =>
      match pend with
      | Some ws =>
          if is_js_space c then remove_commas_from (Some (ws ++ [c])) r
          else if is_closer c then c :: remove_commas_from None r
          else
            c_comma :: ws ++
              (if N.eqb c c_comma then remove_commas_from (Some []) r
               else c :: remove_commas_from None r)
      | None =>
          if N.eqb c c_comma then remove_commas_from (Some []) r
          else c :: remove_commas_from None r
      end
  end.

Definition remove_commas_before_closers (s : jsstring) : jsstring :=
  remove_commas_from None s.

(** Step 5, up to the text handed to the second [JSON.parse]. *)
Definition repair (jsonString : jsstring) : jsstring :=
  let st := scan jsonString in
  (* If we ended inside a string, close it *)
  let jsonString := if inString st then jsonString ++ [c_quote] else jsonString in
  (* Check for trailing comma before closing *)
  let jsonString := strip_trailing_comma jsonString in
  (* Close remaining containers *)
  let jsonString := jsonString ++ closers st in
  (* Final cleanup: Remove trailing commas before closing braces *)
  remove_commas_before_closers jsonString.

(** Steps 4 and 5: the direct parse, then the parse of the repaired text;
    whatever fails in the repair ends in the error of line 154. *)
Definition parse_or_repair (jsonString : jsstring) : result JValue :=
  (* 4. Try parsing immediately *)
  match JSON_parse jsonString with
  | Some v => Ok v
  | None =>
      (* 5. Repair Mechanism for Truncated JSON *)
      match JSON_parse (repair jsonString) with
      | Some v => Ok v
      | None => Throw UnrecoverableFormat
      end
  end.

Definition extractJson (text : jsstring) : result JValue :=
  parse_or_repair (clean text).

(** ** Plan decoder ([generateTravelPlan]) *)

(** [data[k]] on a parsed value: [None] is [undefined]; reading a property
    of [null] throws. *)
Fixpoint last_member (k : jsstring) (ms : list (jsstring * JValue)) : option JValue :=
  match ms with
  | [] => None
  | (k', v) :: ms' =>
      match last_member k ms' with
      | Some v' => Some v'
      | None => if str_eqb k k' then Some v else None
      end
  end.

Definition get_property (data : JValue) (k : jsstring) : result (option JValue) :=
  match data with
  | JNull => Throw TypeError
  | JObject ms => Ok (last_member k ms)
  | _ => Ok None
  end.

(** A number literal that denotes zero as a binary64: zero, or at most
    2^-1075 in magnitude. *)
Definition is_zero_number (d : decimal) : bool :=
  N.eqb (dmant d) 0 ||
  ((dexp d <? 0) && (Z.of_N (dmant d) * 2 ^ 1075 <=? 10 ^ (- dexp d))).

Definition truthy (v : option JValue) : bool :=
  match v with
  | None => false
  | Some JNull => false
  | Some (JBool b) => b
  | Some (JNumber d) => negb (is_zero_number d)
  | Some (JString s) => match s with [] => false | _ :: _ => true end
  | Some (JArray _) => true
  | Some (JObject _) => true
  end.

(** [v || dflt]. *)
Definition js_or (v : option JValue) (dflt : JValue) : JValue :=
  match v with
  | Some x => if truthy v then x else dflt
  | None => dflt
  end.

Record Params := {
  p_start : jsstring;
  p_end : jsstring;
  p_startTime : jsstring;
  p_endTime : jsstring;
  p_days : Z;
  p_travelers : Z;
  p_isRoundTrip : bool;
  p_pacing : Pacing;
  p_includeAccom : bool;
  p_accommodationType : AccommodationType;
  p_hotelBudget : Z;
  p_mustVisit : option (list jsstring);
  p_avoid : option (list jsstring)
}.

(** The object returned by [generateTravelPlan].  Its [title] and [days]
    are whatever the reply held: the type [TravelPlan] is asserted, not
    checked. *)
Record GeneratedPlan := {
  g_id : jsstring;
  g_params : Params;             (* ...params, [days] being overwritten below *)
  g_startPoint : jsstring;
  g_endPoint : jsstring;
  g_title : JValue;
  g_durationDays : Z;
  g_days : JValue;
  g_mustVisit : option (list jsstring);
  g_avoid : option (list jsstring)
}.

(** [`${start} - ${end} 深度自驾`]. *)
Definition fallback_title (s e : jsstring) : jsstring :=
  s ++ js " - " ++ e ++ [32%N; 28145%N; 24230%N; 33258%N; 39550%N].

(** [generateTravelPlan], from the reply of the model ([responseText]) on;
    [now] is [Date.now().toString()]. *)
Definition generateTravelPlan (params : Params) (now : jsstring) (responseText : jsstring)
    : result GeneratedPlan :=
  match extractJson responseText with
  | Throw e => Throw e
  | Ok data =>
      match get_property data (js "title"), get_property data (js "days") with
      | Ok t, Ok d =>
          Ok {| g_id := now;
                g_params := params;
                g_startPoint := p_start params;
                g_endPoint := p_end params;
                g_title := js_or t (JString (fallback_title (p_start params) (p_end params)));
                g_durationDays := p_days params;
                g_days := js_or d (JArray []);
                g_mustVisit := p_mustVisit params;
                g_avoid := p_avoid params |}
      | Throw e, _ => Throw e
      | _, Throw e => Throw e
      end
  end.

(** The number of entries of a [days] value that is a list. *)
Definition entries (v : JValue) : option Z :=
  match v with
  | JArray l => Some (Z.of_nat (length l))
  | _ => None
  end.

(** ** The enrichment task of [prefetchAlternatives] (lines 406-422)

    What the task does once [getAlternativePoints] has settled: on success
    it merges the list into the latest plan, on failure it warns and leaves
    the plan alone.  Either way its own promise resolves. *)

Inductive fetched :=
| Fetched (alts : list JValue)
| FetchFailed (err : exn).

Record AppState := {
  plan : option TravelPlan;
  warnings : list exn          (* console.warn *)
}.

Definition enrichment_task (dIdx pIdx : nat) (r : fetched) (s : AppState)
    : outcome * AppState :=
  match r with
  | Fetched alts =>
      (Resolved,
       {| plan := setPlan (merge_alternatives dIdx pIdx alts) (plan s);
          warnings := warnings s |})
  | FetchFailed err =>
      (Resolved, {| plan := plan s; warnings := warnings s ++ [err] |})
  end.

(** ** Sample data *)

Definition zero : decimal := {| dneg := false; dmant := 0; dexp := 0 |}.

(** A point with the given category and prices and nothing else of note. *)
Definition sample_point (ty : PointType) (ticket avg : option jsstring) : LocationPoint :=
  {| id := js "p"; name := js "P"; type := ty; time := js "09:00";
     duration := js "1h"; ticket_price := ticket; average_cost := avg;
     description := []; rating := zero; user_ratings_total := zero;
     arrivalTime := js "09:00"; travelTimeToNext := None; lat := zero; lng := zero;
     photo_url := None; address := None; alternatives := None;
     reviews := None; photos := None |}.

(** "¥20" and "¥10": U+00A5 and the digits. *)
Definition yen20 : jsstring := 165%N :: js "20".
Definition yen10 : jsstring := 165%N :: js "10".

Definition sample_day (ps : list LocationPoint) : DayItinerary :=
  {| day := zero; date := js "2025-01-01"; transportation_cost := None; points := ps |}.

Definition sample_plan (T : Z) (ds : list DayItinerary) : TravelPlan :=
  {| plan_id := js "1"; title := js "t"; startPoint := js "A"; endPoint := js "B";
     startTime := []; endTime := []; durationDays := Z.of_nat (length ds);
     travelers := T; isRoundTrip := false; pacing := MODERATE;
     includeAccom := false; accommodationType := HOTEL; hotelBudget := 500;
     mustVisit := None; avoid := None; days := ds |}.

Definition sample_params (n : Z) : Params :=
  {| p_start := js "A"; p_end := js "B"; p_startTime := []; p_endTime := [];
     p_days := n; p_travelers := 2; p_isRoundTrip := false; p_pacing := MODERATE;
     p_includeAccom := false; p_accommodationType := HOTEL; p_hotelBudget := 500;
     p_mustVisit := None; p_avoid := None |}.

Definition sample_task (n : nat) : task := {| task_id := n; throws_at_call := None |}.

(** ** Auxiliary definitions of the properties *)

(** What [calculateTotalCost] leaves out of every bucket: the cost of the
    points of category start or end. *)
Definition unbucketed_point (T : Z) (pt : LocationPoint) : Z :=
  match type pt with
  | start | end_ => calculatePointCost pt T
  | _ => 0
  end.

Definition unbucketed_day (T : Z) (d : DayItinerary) : Z :=
  fold_left (fun a pt => a + unbucketed_point T pt) (points d) 0.

Definition buckets (c : Costs) : Z := transport c + accom c + dining c + tickets c.

(** The plan after one merge. *)
Definition merge_plan (c : Completion) (p : TravelPlan) : TravelPlan :=
  with_days p (merge_days (c_day c) (c_point c) (c_alts c) (days p)).

(** The invariant of the queue between two events. *)
Record queue_inv (w : World) : Prop := {
  inv_count : activeCount w = Z.of_nat (length (awaiting w));
  inv_cap : activeCount w <= maxConcurrent;
  inv_acct : Permutation (started w) (finished w ++ awaiting w);
  inv_full : queue w <> [] -> activeCount w = maxConcurrent
}.

Definition set_console (l : list exn) (w : World) : World :=
  {| queue := queue w; activeCount := activeCount w; awaiting := awaiting w;
     started := started w; finished := finished w; console := l |}.

(** Every [//] of [s] comes right after a colon. *)
Definition slashes_guarded (s : jsstring) : Prop :=
  forall l1 l2, s = l1 ++ [c_slash; c_slash] ++ l2 -> exists l0, l1 = l0 ++ [c_colon].

(** The same, decided from left to right; [prev_colon]: the character before
    [s] is a colon. *)
Fixpoint guarded_from (prev_colon : bool) (s : jsstring) : bool :=
  match s with
  | [] => true
  | c :: r =>
      (if N.eqb c c_slash && starts_with [c_slash] r then prev_colon else true)
      && guarded_from (N.eqb c c_colon) r
  end.

(** A reply with a title and no [days], a text whose string value holds a
    [//], and one whose string value holds fences. *)
Definition reply_without_days : jsstring := jq "{'title':'x'}".
Definition text_with_slashes : jsstring := jq "{'a':'x//y'}".
Definition text_with_fence : jsstring := jq "{'a':'```b```'}".

(** A document, and the same document cut after a key, inside a string
    value, and after a comma. *)
Definition sample_doc : jsstring := jq "{'a':[1,'xy'],'b':2}".
Definition cut_after_key : jsstring := jq "{'a'".
Definition cut_in_string : jsstring := jq "{'a':[1,'x".
Definition reply_cut_in_string : jsstring := jq "Here is the plan: {'a':[1,'x  ".
Definition cut_after_comma : jsstring := jq "{'a':[1,'xy'],".
Definition spaced_doc : jsstring := jq " {'a':[1,'http://x']} ".

(** ** Well-formed states of the [JSON.parse] automaton *)

(** A frame that waits for a value: an array, or an object whose key has
    been read. *)
Definition awaits_value (f : frame) : bool :=
  match f with
  | FArr _ => true
  | FObj _ (Some _) => true
  | FObj _ None => false
  end.

(** Where a value may stand: at the top level or in a frame that waits for
    one. *)
Definition value_ctx (stk : list frame) : bool :=
  match stk with
  | [] => true
  | f :: _ => awaits_value f
  end.

Definition key_ctx (stk : list frame) : bool :=
  match stk with
  | FObj _ None :: _ => true
  | _ => false
  end.

Definition after_ctx (stk : list frame) : bool :=
  match stk with
  | FArr _ :: _ => true
  | FObj _ None :: _ => true
  | _ => false
  end.

Definition is_lower (c : jschar) : bool := N.leb 97 c && N.leb c 122.

Definition mode_ok (m : mode) (stk : list frame) : bool :=
  match m with
  | MValue true => match stk with FArr [] :: _ => true | _ => false end
  | MValue false => value_ctx stk
  | MKey true => match stk with FObj [] None :: _ => true | _ => false end
  | MKey false => key_ctx stk
  | MColon => match stk with FObj _ (Some _) :: _ => true | _ => false end
  | MAfter => after_ctx stk
  | MDone _ => match stk with [] => true | _ => false end
  | MStr true _ _ => key_ctx stk
  | MStr false _ _ => value_ctx stk
  | MNum _ _ => value_ctx stk
  | MLit rest _ =>
      value_ctx stk && forallb is_lower rest && match rest with [] => false | _ => true end
  end.

(** The frames under the innermost one all wait for the value being
    read. *)
Definition wf (st : pstate) : bool :=
  forallb awaits_value (tl (stack st)) && mode_ok (pmode st) (stack st).

Definition closer_of (f : frame) : jschar :=
  match f with
  | FArr _ => c_rbracket
  | FObj _ _ => c_rbrace
  end.

Definition in_string (m : mode) : bool :=
  match m with
  | MStr _ _ _ => true
  | _ => false
  end.

Definition after_backslash (m : mode) : bool :=
  match m with
  | MStr _ _ EBackslash => true
  | _ => false
  end.

(** The repair scan and the automaton agree on a text the automaton
    accepts so far. *)
Definition scan_agrees (sc : scan_state) (st : pstate) : Prop :=
  closers sc = map closer_of (stack st) /\
  inString sc = in_string (pmode st) /\
  isEscaped sc = after_backslash (pmode st).

(** ** What the repair recovers from a state of the automaton *)

Definition close_frame (f : frame) : JValue :=
  match f with
  | FArr es => JArray (rev es)
  | FObj ms _ => JObject (rev ms)
  end.

(** The value [v] goes to the innermost frame and every frame is closed
    with what it holds. *)
Fixpoint unwind (v : JValue) (stk : list frame) : JValue :=
  match stk with
  | [] => v
  | FArr es :: stk' => unwind (JArray (rev (v :: es))) stk'
  | FObj ms (Some k) :: stk' => unwind (JObject (rev ((k, v) :: ms))) stk'
  | FObj ms None :: stk' => unwind (JObject (rev ms)) stk'
  end.

Definition close_all (stk : list frame) : option JValue :=
  match stk with
  | [] => None
  | f :: stk' => Some (unwind (close_frame f) stk')
  end.

(** The value recovered when the text stops in state [st]: inside a string
    value (not in an escape), inside or at the end of a number, after a
    complete element or member, after the comma that follows one, or right
    after an opening bracket or brace.  Nothing is recovered inside a key,
    between a key and its value, or inside [true], [false] or [null]. *)
Definition recovered (st : pstate) : option JValue :=
  match pmode st with
  | MStr false acc ENone => Some (unwind (JString (rev acc)) (stack st))
  | MNum ph a =>
      if num_accepting ph then Some (unwind (JNumber (num_value a)) (stack st)) else None
  | MAfter => close_all (stack st)
  | MValue true => close_all (stack st)
  | MKey _ => close_all (stack st)
  | MValue false =>
      match stack st with
      | FArr _ :: _ => close_all (stack st)
      | _ => None
      end
  | _ => None
  end.

(** A closer follows, after optional white space. *)
Fixpoint closer_next (s : jsstring) : bool :=
  match s with
  | [] => false
  | c :: r => if is_js_space c then closer_next r else is_closer c
  end.

(** No comma of the text is followed, after optional white space, by a
    closing brace or bracket. *)
Fixpoint comma_closer_free (s : jsstring) : bool :=
  match s with
  | [] => true
  | c :: r => negb (N.eqb c c_comma && closer_next r) && comma_closer_free r
  end.

(** The last character that is not white space. *)
Definition last_nonspace (s : jsstring) : option jschar :=
  match drop_spaces (rev s) with
  | c :: _ => Some c
  | [] => None
  end.

(** The text holds no fence. *)
Definition no_fence (s : jsstring) : Prop := forall l1 l2, s <> l1 ++ fence ++ l2.

(** The first character that is not white space is an opening brace or
    bracket, or the text has neither. *)
Definition opens_first (s : jsstring) : Prop :=
  from_first_open s = None \/ exists c r, drop_spaces s = c :: r /\ is_open c = true.

(** The characters that count as white space for [trim] and [\s]. *)
Definition js_spaces : list jschar :=
  [9; 10; 11; 12; 13; 32; 160; 5760; 8192; 8193; 8194; 8195; 8196; 8197; 8198;
   8199; 8200; 8201; 8202; 8232; 8233; 8239; 8287; 12288; 65279]%N.

(** Outside a string literal, the repair scan takes no notice of the
    character. *)
Definition scan_inert (c : jschar) : bool :=
  negb (N.eqb c c_backslash) && negb (N.eqb c c_quote) &&
  negb (is_open c) && negb (is_closer c).

(** The modes that follow a comma outside a string. *)
Definition after_comma_mode (m : mode) : bool :=
  match m with
  | MValue false | MKey false => true
  | _ => false
  end.

(** ** Decimal numerals

    The digits of a whole number, most significant first, as
    [Number.prototype.toString] writes one (below 10^21, where the notation
    turns exponential) and as a price is written in a text. *)

Fixpoint numeral_from (fuel : nat) (n : N) (acc : jsstring) : jsstring :=
  match fuel with
  | O => acc
  | S fuel' =>
      let d := (48 + n mod 10)%N in
      if (n <? 10)%N then d :: acc else numeral_from fuel' (n / 10)%N (d :: acc)
  end.

(** A number has at most as many decimal digits as binary ones. *)
Definition numeral (n : N) : jsstring :=
  numeral_from (S (N.to_nat (N.log2 n))) n [].

(** ** Sums of cost records *)

Definition no_costs : Costs :=
  {| total := 0; transport := 0; accom := 0; dining := 0; tickets := 0 |}.

Definition costs_plus (a b : Costs) : Costs :=
  {| total := total a + total b; transport := transport a + transport b;
     accom := accom a + accom b; dining := dining a + dining b;
     tickets := tickets a + tickets b |}.

(** No character of the text is a digit. *)
Definition digit_free (s : jsstring) : bool := forallb (fun c => negb (is_digit c)) s.

(** The text is empty or starts with a character that is not a digit. *)
Definition no_digit_first (s : jsstring) : bool :=
  match s with
  | [] => true
  | c :: _ => negb (is_digit c)
  end.

(** The plan holds no point of category start or end. *)
Definition all_bucketed (p : TravelPlan) : bool :=
  forallb (fun d => forallb (fun pt => negb (PointType_eqb (type pt) start)
                                      && negb (PointType_eqb (type pt) end_))
                            (points d))
          (days p).

(** Two lists of days that differ by the order of the points inside each
    day. *)
Definition same_days_up_to_point_order (ds ds' : list DayItinerary) : Prop :=
  Forall2 (fun d d' => with_points d' (points d) = d /\ Permutation (points d) (points d'))
          ds ds'.

(** The amounts are not negative and the buckets stay within the total. *)
Definition costs_ok (c : Costs) : Prop :=
  0 <= transport c /\ 0 <= accom c /\ 0 <= dining c /\ 0 <= tickets c /\
  transport c + accom c + dining c + tickets c <= total c.

(** ** The submissions of [prefetchAlternatives] (lines 403-425)

    The two nested [forEach] loops call [requestQueue.add] once for every
    point, day after day.  A submission is described by what its closure
    captures: the coordinate [(dIdx, pIdx)] and the point, whose name and
    category go to [getAlternativePoints]. *)

Record Prefetch := {
  pf_day : nat;
  pf_point : nat;
  pf_name : jsstring;
  pf_type : PointType
}.

Definition pf_coord (r : Prefetch) : nat * nat := (pf_day r, pf_point r).

(** [day.points.forEach((point, pIdx) => ...)], from index [pIdx] on. *)
Fixpoint prefetch_points (dIdx pIdx : nat) (ps : list LocationPoint) : list Prefetch :=
  match ps with
  | [] => []
  | point :: ps' =>
      {| pf_day := dIdx; pf_point := pIdx; pf_name := name point; pf_type := type point |}
      :: prefetch_points dIdx (S pIdx) ps'
  end.

(** [currentPlan.days.forEach((day, dIdx) => ...)], from index [dIdx] on. *)
Fixpoint prefetch_days (dIdx : nat) (ds : list DayItinerary) : list Prefetch :=
  match ds with
  | [] => []
  | d :: ds' => prefetch_points dIdx 0 (points d) ++ prefetch_days (S dIdx) ds'
  end.

Definition prefetchAlternatives (currentPlan : TravelPlan) : list Prefetch :=
  prefetch_days 0 (days currentPlan).

(** The functions handed to the queue, numbered in submission order.  An
    [async] arrow function never throws when called: it returns a promise. *)
Fixpoint number_tasks (n : nat) (l : list Prefetch) : list task :=
  match l with
  | [] => []
  | _ :: l' => {| task_id := n; throws_at_call := None |} :: number_tasks (S n) l'
  end.

Definition prefetch_tasks (currentPlan : TravelPlan) : list task :=
  number_tasks 0 (prefetchAlternatives currentPlan).

(** What the fetches of a prefetch bring back: for each coordinate the list
    [getAlternativePoints] resolved with, or nothing when it failed (the task
    then warns and merges nothing).  The merges that take place are those of
    the fetches that succeeded. *)
Fixpoint completions_of (alts : nat -> nat -> option (list JValue)) (l : list Prefetch)
    : list Completion :=
  match l with
  | [] => []
  | r :: l' =>
      match alts (pf_day r) (pf_point r) with
      | Some a =>
          {| c_day := pf_day r; c_point := pf_point r; c_alts := a |}
          :: completions_of alts l'
      | None => completions_of alts l'
      end
  end.

(** Coordinates in the order of the loops: by day, then by point. *)
Definition coord_lt (a b : nat * nat) : Prop :=
  (a.1 < b.1)%nat \/ (a.1 = b.1 /\ (a.2 < b.2)%nat).

(** ** Replies with a fence or with prose around the document *)

(** No fence starts inside [s], whatever follows it: the text [s] followed
    by two backquotes holds no fence. *)
Definition no_fence_starts_in (s : jsstring) : bool :=
  negb (includes (s ++ js "``") fence).

(** The language tag the fence pattern allows after the opening fence. *)
Definition is_fence_tag (lang : jsstring) : bool :=
  str_eqb lang [] || str_eqb lang (js "json").

(** The text starts with an opening brace or bracket. *)
Definition starts_with_open (s : jsstring) : bool :=
  match s with
  | c :: _ => is_open c
  | [] => false
  end.

(** ** The other readers of a reply ([geminiService.ts], lines 269-302)

    As for [generateTravelPlan], from the reply of the model on. *)

(** [Array.isArray(data) ? data : []] (line 301). *)
Definition recommendDestinations (responseText : jsstring) : result JValue :=
  match extractJson responseText with
  | Throw e => Throw e
  | Ok data =>
      Ok (match data with
          | JArray _ => data
          | _ => JArray []
          end)
  end.

(** [Array.isArray(data) ? data : (data.alternatives || [])] (line 286). *)
Definition getAlternativePoints (responseText : jsstring) : result JValue :=
  match extractJson responseText with
  | Throw e => Throw e
  | Ok data =>
      match data with
      | JArray _ => Ok data
      | _ =>
          match get_property data (js "alternatives") with
          | Ok a => Ok (js_or a (JArray []))
          | Throw e => Throw e
          end
      end
  end.

(** ** The call to the model ([callOpenAICompatible], lines 44-66)

    The function from the answer of [fetch] on.  The exchange either fails
    ([fetch] or the reading of the body rejects) or brings back a status and
    a body; [response.json()] decodes the body as [JSON.parse] does. *)

Inductive ApiError :=
| Rejected_by (reason : jsstring)     (* what fetch, text() or json() rejected with *)
| NotJson                             (* the SyntaxError of response.json() *)
| RequestFailed (message : jsstring)  (* Error(`API Request Failed: ...`) *)
| EmptyResponse                       (* Error("Empty response from AI") *)
| NullData.                           (* the TypeError of reading data.choices on null *)

Inductive Exchange :=
| NoAnswer (reason : jsstring)
| Answer (ok : bool) (status : N) (body : jsstring).

(** [v?.k] and [v?.[0]] on a parsed value: [None] is [undefined]. *)
Definition optional (v : option JValue) (read : JValue -> option JValue) : option JValue :=
  match v with
  | None => None
  | Some JNull => None
  | Some x => read x
  end.

Definition member (k : jsstring) (v : JValue) : option JValue :=
  match v with
  | JObject ms => last_member k ms
  | _ => None
  end.

Definition first_item (v : JValue) : option JValue :=
  match v with
  | JArray l => head l
  | JString (c :: _) => Some (JString [c])
  | JObject ms => last_member (js "0") ms
  | _ => None
  end.

(** [data.choices?.[0]?.message?.content]. *)
Definition content_of (data : JValue) : option JValue + ApiError :=
  match get_property data (js "choices") with
  | Throw _ => inr NullData
  | Ok choices =>
      inl (optional (optional (optional choices first_item) (member (js "message")))
                    (member (js "content")))
  end.

(** [`API Request Failed: ${response.status} - ${errText}`]. *)
Definition request_failed (status : N) (errText : jsstring) : jsstring :=
  js "API Request Failed: " ++ numeral status ++ js " - " ++ errText.

(** The body of the [try] block. *)
Definition call_body (ex : Exchange) : JValue + ApiError :=
  match ex with
  | NoAnswer reason => inr (Rejected_by reason)
  | Answer ok status body =>
      if negb ok then inr (RequestFailed (request_failed status body))
      else
        match JSON_parse body with
        | None => inr NotJson
        | Some data =>
            match content_of data with
            | inr e => inr e
            | inl c =>
                let content := js_or c (JString []) in
                if negb (truthy (Some content)) then inr EmptyResponse
                else inl content
            end
        end
  end.

(** The whole function: what it returns or throws, and what it has written
    with [console.error]. *)
Definition callOpenAICompatible (ex : Exchange) : (JValue + ApiError) * list ApiError :=
  match call_body ex with
  | inl content => (inl content, [])
  | inr error => (inr error, [error])
  end.

(** ** Settings ([getSettings], lines 16-26) *)

Definition DEFAULT_SETTINGS : list (jsstring * JValue) :=
  [ (js "apiKey", JString (js "sk-28c0d0093c2c4486ac3b394da91f7386"));
    (js "baseUrl", JString (js "https://api.grsai.com/v1/chat/completions"));
    (js "model", JString (js "gemini-3-pro")) ].

(** What [localStorage.getItem] does: it throws, or returns the stored text
    or [null]. *)
Inductive Storage :=
| StorageFails (reason : jsstring)
| Item (stored : option jsstring).

Fixpoint indexed_from {A} (i : nat) (f : A -> JValue) (l : list A) : list (jsstring * JValue) :=
  match l with
  | [] => []
  | x :: l' => (numeral (N.of_nat i), f x) :: indexed_from (S i) f l'
  end.

(** The properties that [{...v}] copies from a parsed value: the members of
    an object, the elements of a list and the characters of a string under
    their indices, nothing otherwise. *)
Definition own_entries (v : JValue) : list (jsstring * JValue) :=
  match v with
  | JObject ms => ms
  | JArray l => indexed_from 0 (fun x => x) l
  | JString s => indexed_from 0 (fun c => JString [c]) s
  | _ => []
  end.

Inductive SettingsWarning :=
| StorageWarning (reason : jsstring)
| SyntaxWarning.

(** The object returned, as its members (a later member of the same name
    overrides an earlier one), and what was written with [console.warn]. *)
Definition getSettings (st : Storage) : list (jsstring * JValue) * list SettingsWarning :=
  match st with
  | StorageFails reason => (DEFAULT_SETTINGS, [StorageWarning reason])
  | Item stored =>
      if truthy_str stored then
        match stored with
        | Some s =>
            match JSON_parse s with
            | Some v => (DEFAULT_SETTINGS ++ own_entries v, [])
            | None => (DEFAULT_SETTINGS, [SyntaxWarning])
            end
        | None => (DEFAULT_SETTINGS, [])
        end
      else (DEFAULT_SETTINGS, [])
  end.

(** ** [JSON.stringify] on the settings of the application (line 251)

    The state [settings] of the component: four strings.  [JSON.stringify]
    writes the properties in their order, each string quoted. *)

Record Settings := {
  s_apiKey : jsstring;
  s_baseUrl : jsstring;
  s_model : jsstring;
  s_googleMapsKey : jsstring
}.

Definition is_high_surrogate (c : jschar) : bool := N.leb 55296 c && N.leb c 56319.
Definition is_low_surrogate (c : jschar) : bool := N.leb 56320 c && N.leb c 57343.

Definition hex_digit (d : N) : jschar := if (d <? 10)%N then (48 + d)%N else (87 + d)%N.

(** UnicodeEscape: a backslash, [u] and four lowercase hexadecimal digits. *)
Definition unicode_escape (c : jschar) : jsstring :=
  [c_backslash; 117%N; hex_digit (c / 4096); hex_digit ((c / 256) mod 16);
   hex_digit ((c / 16) mod 16); hex_digit (c mod 16)]%N.

(** A code point that is not a lone surrogate, quoted. *)
Definition quote_char (c : jschar) : jsstring :=
  if N.eqb c 8 then [c_backslash; 98%N]
  else if N.eqb c 9 then [c_backslash; 116%N]
  else if N.eqb c 10 then [c_backslash; 110%N]
  else if N.eqb c 12 then [c_backslash; 102%N]
  else if N.eqb c 13 then [c_backslash; 114%N]
  else if N.eqb c 34 then [c_backslash; c_quote]
  else if N.eqb c 92 then [c_backslash; c_backslash]
  else if (c <? 32)%N then unicode_escape c
  else [c].

(** QuoteJSONString, without the quotes around: the text is read by code
    points; a surrogate pair is written as it is, a lone surrogate as a
    Unicode escape. *)
Fixpoint quote_body (s : jsstring) : jsstring :=
  match s with
  | [] => []
  | c :: r =>
      if is_high_surrogate c then
        match r with
        | d :: r' =>
            if is_low_surrogate d then c :: d :: quote_body r'
            else unicode_escape c ++ quote_body r
        | [] => unicode_escape c
        end
      else if is_low_surrogate c then unicode_escape c ++ quote_body r
      else quote_char c ++ quote_body r
  end.

Definition quoted (s : jsstring) : jsstring := [c_quote] ++ quote_body s ++ [c_quote].

Definition stringify_settings (s : Settings) : jsstring :=
  [c_lbrace]
  ++ quoted (js "apiKey") ++ [c_colon] ++ quoted (s_apiKey s) ++ [c_comma]
  ++ quoted (js "baseUrl") ++ [c_colon] ++ quoted (s_baseUrl s) ++ [c_comma]
  ++ quoted (js "model") ++ [c_colon] ++ quoted (s_model s) ++ [c_comma]
  ++ quoted (js "googleMapsKey") ++ [c_colon] ++ quoted (s_googleMapsKey s)
  ++ [c_rbrace].

(** The text [saveSettings] stores under [gemini_drive_settings]. *)
Definition saveSettings (settings : Settings) : jsstring := stringify_settings settings.

(** The value of the settings object. *)
Definition settings_value (s : Settings) : JValue :=
  JObject [ (js "apiKey", JString (s_apiKey s)); (js "baseUrl", JString (s_baseUrl s));
            (js "model", JString (s_model s));
            (js "googleMapsKey", JString (s_googleMapsKey s)) ].

(** Every element is a UTF-16 code unit. *)
Definition code_units (s : jsstring) : bool := forallb (fun c => (c <? 65536)%N) s.

Definition settings_ok (s : Settings) : bool :=
  code_units (s_apiKey s) && code_units (s_baseUrl s) &&
  code_units (s_model s) && code_units (s_googleMapsKey s).

(** ** The must-visit and avoid lists of the form (lines 237-274)

    The four state cells of the component that the handlers read and
    write. *)

Record Wishes := {
  mustVisitInput : jsstring;
  mustVisitList : list jsstring;
  avoidInput : jsstring;
  avoidList : list jsstring
}.

Definition no_wishes : Wishes :=
  {| mustVisitInput := []; mustVisitList := []; avoidInput := []; avoidList := [] |}.

Definition addMustVisit (w : Wishes) : Wishes :=
  if truthy_str (Some (trim (mustVisitInput w))) then
    {| mustVisitInput := [];
       mustVisitList := mustVisitList w ++ [trim (mustVisitInput w)];
       avoidInput := avoidInput w; avoidList := avoidList w |}
  else w.

(** [list.filter((_, i) => i !== idx)], from index [i] on. *)
Fixpoint filter_other_index {A} (idx i : nat) (l : list A) : list A :=
  match l with
  | [] => []
  | x :: l' =>
      if Nat.eqb i idx then filter_other_index idx (S i) l'
      else x :: filter_other_index idx (S i) l'
  end.

Definition removeMustVisit (idx : nat) (w : Wishes) : Wishes :=
  {| mustVisitInput := mustVisitInput w;
     mustVisitList := filter_other_index idx 0 (mustVisitList w);
     avoidInput := avoidInput w; avoidList := avoidList w |}.

Definition addAvoid (w : Wishes) : Wishes :=
  if truthy_str (Some (trim (avoidInput w))) then
    {| mustVisitInput := mustVisitInput w; mustVisitList := mustVisitList w;
       avoidInput := [];
       avoidList := avoidList w ++ [trim (avoidInput w)] |}
  else w.

Definition removeAvoid (idx : nat) (w : Wishes) : Wishes :=
  {| mustVisitInput := mustVisitInput w; mustVisitList := mustVisitList w;
     avoidInput := avoidInput w;
     avoidList := filter_other_index idx 0 (avoidList w) |}.

(** What the user does to the two lists: typing in an input, adding (the
    button or the Enter key), removing the entry of an index. *)
Inductive WishEvent :=
| TypeMustVisit (value : jsstring)
| AddMustVisit
| RemoveMustVisit (idx : nat)
| TypeAvoid (value : jsstring)
| AddAvoid
| RemoveAvoid (idx : nat).

Definition wish_step (w : Wishes) (ev : WishEvent) : Wishes :=
  match ev with
  | TypeMustVisit value =>
      {| mustVisitInput := value; mustVisitList := mustVisitList w;
         avoidInput := avoidInput w; avoidList := avoidList w |}
  | AddMustVisit => addMustVisit w
  | RemoveMustVisit idx => removeMustVisit idx w
  | TypeAvoid value =>
      {| mustVisitInput := mustVisitInput w; mustVisitList := mustVisitList w;
         avoidInput := value; avoidList := avoidList w |}
  | AddAvoid => addAvoid w
  | RemoveAvoid idx => removeAvoid idx w
  end.

(** An entry as the lists keep them: not empty, with no white space at
    either end. *)
Definition tidy (s : jsstring) : Prop := s <> [] /\ trim s = s.

(** ** Dates and times of the form (lines 110-117 and 276-340)

    A [Date] holds a time value: a whole number of milliseconds since the
    epoch, at most 8.64e15 in magnitude, or NaN ([None]).  The calendar
    functions are those of the language standard.  What the browser
    contributes is a parameter: the offset of local time, and the instant a
    text is parsed to. *)

Definition msPerDay : Z := 86400000.
Definition msPerHour : Z := 3600000.
Definition msPerMinute : Z := 60000.
Definition msPerSecond : Z := 1000.

Definition Date := option Z.

Definition TimeClip (t : Z) : Date :=
  if Z.abs t <=? 8640000000000000 then Some t else None.

Definition Day (t : Z) : Z := t / msPerDay.

Definition DaysInYear (y : Z) : Z :=
  if negb (y mod 4 =? 0) then 365
  else if negb (y mod 100 =? 0) then 366
  else if negb (y mod 400 =? 0) then 365
  else 366.

Definition DayFromYear (y : Z) : Z :=
  365 * (y - 1970) + (y - 1969) / 4 - (y - 1901) / 100 + (y - 1601) / 400.

(** The year of a day: the largest [y] with [DayFromYear y <= d].  The
    mean length of a year gives it within one year. *)
Definition YearFromDay (d : Z) : Z :=
  let e := 1970 + (400 * d) / 146097 in
  if d <? DayFromYear e then e - 1
  else if DayFromYear (e + 1) <=? d then e + 1
  else e.

Definition YearFromTime (t : Z) : Z := YearFromDay (Day t).

Definition InLeapYear (t : Z) : Z :=
  if DaysInYear (YearFromTime t) =? 366 then 1 else 0.

Definition DayWithinYear (t : Z) : Z := Day t - DayFromYear (YearFromTime t).

Definition MonthFromTime (t : Z) : Z :=
  let d := DayWithinYear t in
  let leap := InLeapYear t in
  if d <? 31 then 0
  else if d <? 59 + leap then 1
  else if d <? 90 + leap then 2
  else if d <? 120 + leap then 3
  else if d <? 151 + leap then 4
  else if d <? 181 + leap then 5
  else if d <? 212 + leap then 6
  else if d <? 243 + leap then 7
  else if d <? 273 + leap then 8
  else if d <? 304 + leap then 9
  else if d <? 334 + leap then 10
  else 11.

Definition DateFromTime (t : Z) : Z :=
  let d := DayWithinYear t in
  let leap := InLeapYear t in
  match MonthFromTime t with
  | 0 => d + 1
  | 1 => d - 30
  | 2 => d - 58 - leap
  | 3 => d - 89 - leap
  | 4 => d - 119 - leap
  | 5 => d - 150 - leap
  | 6 => d - 180 - leap
  | 7 => d - 211 - leap
  | 8 => d - 242 - leap
  | 9 => d - 272 - leap
  | 10 => d - 303 - leap
  | _ => d - 333 - leap
  end.

Definition HourFromTime (t : Z) : Z := (t / msPerHour) mod 24.
Definition MinFromTime (t : Z) : Z := (t / msPerMinute) mod 60.
Definition SecFromTime (t : Z) : Z := (t / msPerSecond) mod 60.
Definition msFromTime (t : Z) : Z := t mod msPerSecond.

Definition MakeTime (hour min sec ms : Z) : Z :=
  hour * msPerHour + min * msPerMinute + sec * msPerSecond + ms.

Definition MakeDate (day time : Z) : Z := day * msPerDay + time.

(** The browser: the offset of local time in milliseconds at an instant
    ([LocalTZA(t, true)]) and at a local time ([LocalTZA(t, false)]), and the
    time value of [new Date(text)]. *)
Record Browser := {
  tza : Z -> Z;
  tza_local : Z -> Z;
  Date_parse : jsstring -> Date
}.

Definition LocalTime (B : Browser) (t : Z) : Z := t + tza B t.

(** [new Date(value)] on a number. *)
Definition new_Date (value : option Z) : Date :=
  match value with
  | Some v => TimeClip v
  | None => None
  end.

(** [getTimezoneOffset() * 60000]: the offset in minutes is
    [(t - LocalTime(t)) / msPerMinute]. *)
Definition timezoneOffset_ms (B : Browser) (d : Date) : option Z :=
  option_map (fun t => t - LocalTime B t) d.

Definition local_field (B : Browser) (field : Z -> Z) (d : Date) : option Z :=
  option_map (fun t => field (LocalTime B t)) d.

(** [Number.prototype.toString] on a whole number or NaN. *)
Definition Number_toString (x : option Z) : jsstring :=
  match x with
  | None => js "NaN"
  | Some z => if z <? 0 then 45%N :: numeral (Z.to_N (- z)) else numeral (Z.to_N z)
  end.

(** [padStart(2, '0')]. *)
Definition padStart2 (s : jsstring) : jsstring :=
  match s with
  | [] => [48%N; 48%N]
  | [c] => [48%N; c]
  | _ => s
  end.

Definition add_number (a b : option Z) : option Z :=
  match a, b with
  | Some x, Some y => Some (x + y)
  | _, _ => None
  end.

Definition formatBeijingDate (B : Browser) (date : Date) : jsstring :=
  let utc := add_number date (timezoneOffset_ms B date) in
  let beijingOffset := 8 * 60 * 60 * 1000 in
  let beijingDate := new_Date (add_number utc (Some beijingOffset)) in
  let pad (n : option Z) := padStart2 (Number_toString n) in
  Number_toString (local_field B YearFromTime beijingDate) ++ js "-"
  ++ pad (add_number (local_field B MonthFromTime beijingDate) (Some 1)) ++ js "-"
  ++ pad (local_field B DateFromTime beijingDate) ++ js "T"
  ++ pad (local_field B HourFromTime beijingDate) ++ js ":"
  ++ pad (local_field B MinFromTime beijingDate).

(** [Math.ceil(a / b)] on whole numbers, [b] positive: the exact ceiling,
    which is what the program computes for [b] the length of a day and [a]
    of magnitude up to 2^53. *)
Definition ceil_div (a b : Z) : Z := - ((- a) / b).

Definition calculateDaysDiff (B : Browser) (s e : jsstring) : Z :=
  let startD := Date_parse B s in
  let endD := Date_parse B e in
  match startD, endD with
  | Some startT, Some endT =>
      let diff := endT - startT in
      Z.max 1 (ceil_div diff (1000 * 60 * 60 * 24))
  | _, _ => 1
  end.

Definition calculateEndTimeFromDays (B : Browser) (startStr : jsstring) (numDays : Z)
    : jsstring :=
  let s := Date_parse B startStr in
  let e := new_Date (add_number s (Some (numDays * 24 * 60 * 60 * 1000))) in
  formatBeijingDate B e.

(** [dateObj.setHours(h, m)]. *)
Definition setHours (B : Browser) (d : Date) (h m : Z) : Date :=
  match d with
  | None => None
  | Some tv =>
      let t := LocalTime B tv in
      let date := MakeDate (Day t) (MakeTime h m (SecFromTime t) (msFromTime t)) in
      TimeClip (date - tza_local B date)
  end.

(** [a < b] on two dates: the comparison of their time values. *)
Definition date_lt (a b : Date) : bool :=
  match a, b with
  | Some x, Some y => x <? y
  | _, _ => false
  end.

(** The state cells of the form that the time handlers read and write. *)
Record Form := {
  f_startTime : jsstring;
  f_endTime : jsstring;
  f_days : Z;
  f_travelers : Z
}.

Definition handleStartTimeChange (B : Browser) (val : jsstring) (f : Form) : Form :=
  {| f_startTime := val;
     f_endTime := calculateEndTimeFromDays B val (f_days f);
     f_days := f_days f; f_travelers := f_travelers f |}.

Definition handleEndTimeChange (B : Browser) (val : jsstring) (f : Form) : Form :=
  {| f_startTime := f_startTime f;
     f_endTime := val;
     f_days := calculateDaysDiff B (f_startTime f) val;
     f_travelers := f_travelers f |}.

Definition handleDaysChange (B : Browser) (newDays : Z) (f : Form) : Form :=
  let d := Z.max 1 newDays in
  {| f_startTime := f_startTime f;
     f_endTime := calculateEndTimeFromDays B (f_startTime f) d;
     f_days := d; f_travelers := f_travelers f |}.

Inductive Target := target_start | target_end.
Inductive Preset := preset_now | preset_noon | preset_dinner | preset_night.

(** [now0] and [now] are the instants of the two calls [new Date()]. *)
Definition handleTimePreset (B : Browser) (target : Target) (type : Preset)
    (now0 now : Z) (f : Form) : Form :=
  let currentVal :=
    match target with
    | target_start => f_startTime f
    | target_end => f_endTime f
    end in
  let dateObj := Date_parse B currentVal in
  let dateObj :=
    match dateObj with
    | None => Some now0
    | Some _ => dateObj
    end in
  let newStr :=
    match type with
    | preset_now => formatBeijingDate B (Some now)
    | _ =>
        let h :=
          match type with
          | preset_dinner => 18
          | preset_night => 23
          | _ => 12
          end in
        formatBeijingDate B (setHours B dateObj h 0)
    end in
  match target with
  | target_start =>
      let newStartDt := Date_parse B newStr in
      let currentEndDt := Date_parse B (f_endTime f) in
      if date_lt newStartDt currentEndDt then
        {| f_startTime := newStr; f_endTime := f_endTime f;
           f_days := calculateDaysDiff B newStr (f_endTime f);
           f_travelers := f_travelers f |}
      else
        {| f_startTime := newStr;
           f_endTime := calculateEndTimeFromDays B newStr (f_days f);
           f_days := f_days f; f_travelers := f_travelers f |}
  | target_end =>
      {| f_startTime := f_startTime f; f_endTime := newStr;
         f_days := calculateDaysDiff B (f_startTime f) newStr;
         f_travelers := f_travelers f |}
  end.

(** What the user does to the time part of the form: the two date inputs,
    the buttons of the days and of the travelers (lines 675-686), the
    presets. *)
Inductive FormEvent :=
| StartTimeChange (val : jsstring)
| EndTimeChange (val : jsstring)
| DaysMinus
| DaysPlus
| TravelersMinus
| TravelersPlus
| TimePreset (target : Target) (type : Preset) (now0 now : Z).

Definition form_step (B : Browser) (f : Form) (ev : FormEvent) : Form :=
  match ev with
  | StartTimeChange val => handleStartTimeChange B val f
  | EndTimeChange val => handleEndTimeChange B val f
  | DaysMinus => handleDaysChange B (Z.max 1 (f_days f - 1)) f
  | DaysPlus => handleDaysChange B (f_days f + 1) f
  | TravelersMinus =>
      {| f_startTime := f_startTime f; f_endTime := f_endTime f; f_days := f_days f;
         f_travelers := Z.max 1 (f_travelers f - 1) |}
  | TravelersPlus =>
      {| f_startTime := f_startTime f; f_endTime := f_endTime f; f_days := f_days f;
         f_travelers := f_travelers f + 1 |}
  | TimePreset target type now0 now => handleTimePreset B target type now0 now f
  end.

(** The form as the component creates it: 3 days, 2 travelers. *)
Definition initial_form (startTime0 endTime0 : jsstring) : Form :=
  {| f_startTime := startTime0; f_endTime := endTime0; f_days := 3; f_travelers := 2 |}.

(** The two digits of a number below 100. *)
Definition two_digits (n : Z) : jsstring :=
  [Z.to_N (48 + n / 10); Z.to_N (48 + n mod 10)].

(** The text [YYYY-MM-DDTHH:mm] of the calendar fields of a time [x]. *)
Definition wall_clock (x : Z) : jsstring :=
  Number_toString (Some (YearFromTime x)) ++ js "-"
  ++ two_digits (MonthFromTime x + 1) ++ js "-"
  ++ two_digits (DateFromTime x) ++ js "T"
  ++ two_digits (HourFromTime x) ++ js ":"
  ++ two_digits (MinFromTime x).

(** A browser whose local time has a constant offset from UTC, and the
    browser of a user in Beijing. *)
Definition fixed_zone (offset : Z) (parse : jsstring -> Date) : Browser :=
  {| tza := fun _ => offset; tza_local := fun _ => offset; Date_parse := parse |}.

Definition beijing_offset : Z := 8 * msPerHour.

(** ** Image addresses ([getRealImages], lines 162-184)

    [encodeURIComponent] is the function of the language standard: the
    characters of the unreserved set are kept, every other code point is
    written as the octets of its UTF-8 form, each as a percent sign and two
    uppercase hexadecimal digits; a surrogate that has no partner raises a
    URIError ([None]). *)

Definition is_alnum (c : jschar) : bool :=
  is_digit c || (N.leb 65 c && N.leb c 90) || (N.leb 97 c && N.leb c 122).

(** The marks [-_.!~*'()]. *)
Definition is_uri_mark (c : jschar) : bool :=
  N.eqb c 45 || N.eqb c 95 || N.eqb c 46 || N.eqb c 33 || N.eqb c 126 ||
  N.eqb c 42 || N.eqb c 39 || N.eqb c 40 || N.eqb c 41.

Definition is_unreserved (c : jschar) : bool := is_alnum c || is_uri_mark c.

Definition hex_upper (d : N) : jschar := if (d <? 10)%N then (48 + d)%N else (55 + d)%N.

Definition percent (octet : N) : jsstring :=
  [37%N; hex_upper (octet / 16); hex_upper (octet mod 16)].

Definition utf8 (cp : N) : list N :=
  if (cp <? 128)%N then [cp]
  else if (cp <? 2048)%N then [192 + cp / 64; 128 + cp mod 64]%N
  else if (cp <? 65536)%N then
    [224 + cp / 4096; 128 + (cp / 64) mod 64; 128 + cp mod 64]%N
  else
    [240 + cp / 262144; 128 + (cp / 4096) mod 64; 128 + (cp / 64) mod 64;
     128 + cp mod 64]%N.

(** The code point of a surrogate pair. *)
Definition code_point (lead trail : jschar) : N :=
  ((lead - 55296) * 1024 + (trail - 56320) + 65536)%N.

Definition escape_code_point (cp : N) : jsstring := flat_map percent (utf8 cp).

Fixpoint encodeURIComponent (s : jsstring) : option jsstring :=
  match s with
  | [] => Some []
  | c :: r =>
      if is_unreserved c then option_map (cons c) (encodeURIComponent r)
      else if is_high_surrogate c then
        match r with
        | d :: r' =>
            if is_low_surrogate d then
              option_map (app (escape_code_point (code_point c d))) (encodeURIComponent r')
            else None
        | [] => None
        end
      else if is_low_surrogate c then None
      else option_map (app (escape_code_point c)) (encodeURIComponent r)
  end.

(** The keywords: "高清大图", "景色", "美食" for a restaurant and "摄影"
    otherwise, "旅游". *)
Definition keywords (type : jsstring) : list jsstring :=
  [ [39640%N; 28165%N; 22823%N; 22270%N];
    [26223%N; 33394%N];
    if str_eqb type (js "restaurant") then [32654%N; 39135%N] else [25668%N; 24433%N];
    [26053%N; 28216%N] ].

(** [`https://${host}/th?q=${query}&w=800&h=600&c=7&rs=1`] with the host
    [`tse${(i % 4) + 1}.mm.bing.net`]. *)
Definition image_url (i : nat) (query : jsstring) : jsstring :=
  js "https://" ++ (js "tse" ++ numeral (N.of_nat (i mod 4) + 1) ++ js ".mm.bing.net")
  ++ js "/th?q=" ++ query ++ js "&w=800&h=600&c=7&rs=1".

(** [keywords.map((kw, i) => ...)], from index [i] on. *)
Fixpoint image_urls (i : nat) (name : jsstring) (kws : list jsstring)
    : option (list jsstring) :=
  match kws with
  | [] => Some []
  | kw :: kws' =>
      match encodeURIComponent (name ++ js " " ++ kw) with
      | None => None
      | Some query => option_map (cons (image_url i query)) (image_urls (S i) name kws')
      end
  end.

Definition getRealImages (name type : jsstring) : option (list jsstring) :=
  image_urls 0 name (keywords type).

(** [String.prototype.isWellFormed]: no surrogate without its partner. *)
Fixpoint isWellFormed (s : jsstring) : bool :=
  match s with
  | [] => true
  | c :: r =>
      if is_high_surrogate c then
        match r with
        | d :: r' => is_low_surrogate d && isWellFormed r'
        | [] => false
        end
      else negb (is_low_surrogate c) && isWellFormed r
  end.

(** The characters an encoded component is made of. *)
Definition is_uri_safe (c : jschar) : bool := is_unreserved c || N.eqb c 37.


(** ** What an enrichment leaves of a point *)

(** Every field of a point but [alternatives]. *)
Definition other_fields (pt : LocationPoint) :=
  (id pt, name pt, type pt, time pt, duration pt, ticket_price pt, average_cost pt,
   description pt, rating pt, user_ratings_total pt, arrivalTime pt,
   travelTimeToNext pt, lat pt, lng pt, photo_url pt, address pt, reviews pt,
   photos pt).

(** ** Failures seen by the queue *)

(** The task throws as it is called. *)
Definition throws (fn : task) : bool :=
  match throws_at_call fn with
  | Some _ => true
  | None => false
  end.

(** The exceptions of the tasks of a list that throw as they are called, in
    the order of the list. *)
Fixpoint call_failures (l : list task) : list exn :=
  match l with
  | [] => []
  | fn :: l' =>
      match throws_at_call fn with
      | Some e => e :: call_failures l'
      | None => call_failures l'
      end
  end.

(** The exception a settling brings, if any. *)
Definition rejection (o : outcome) : list exn :=
  match o with
  | Resolved => []
  | Rejected e => [e]
  end.

(** The rejections among the events, in order. *)
Fixpoint rejections (evs : list event) : list exn :=
  match evs with
  | [] => []
  | Add _ :: evs' => rejections evs'
  | Settle _ o :: evs' => rejection o ++ rejections evs'
  end.

(** The tasks one call of [process()] starts on the waiting list [q] when
    fewer than two tasks run: the tasks that throw as they are called, up to
    and including the first task that returns a promise. *)
Fixpoint burst (q : list task) : list task :=
  match q with
  | [] => []
  | fn :: q' => if throws fn then fn :: burst q' else [fn]
  end.

(** The state after the tasks [b], taken from the head of the waiting list,
    have been called: those that threw are logged and have finished, the
    others are awaited and count as running. *)
Definition called (b : list task) (w : World) : World :=
  {| queue := drop (length b) (queue w);
     activeCount :=
       activeCount w + Z.of_nat (length (List.filter (fun fn => negb (throws fn)) b));
     awaiting := awaiting w ++ List.filter (fun fn => negb (throws fn)) b;
     started := started w ++ b;
     finished := finished w ++ List.filter throws b;
     console := console w ++ call_failures b |}.

(** [console.error] in the [catch] block of a task that has settled. *)
Definition log_rejection (o : outcome) (w : World) : World :=
  set_console (console w ++ rejection o) w.

(** Every event of the list is a settling with the outcome [o]. *)
Definition settles_with (o : outcome) (os : list event) : Prop :=
  Forall (fun ev => exists i, ev = Settle i o) os.

(** A task that throws [e] as it is called. *)
Definition failing_task (n : nat) (e : exn) : task :=
  {| task_id := n; throws_at_call := Some e |}.

(** ** Whole numbers that binary64 holds exactly

    Every whole number of magnitude up to 2^53 is a binary64 number, and a
    sum, a difference or a product of such numbers that stays within that
    magnitude is computed without rounding.  [parseInt] on a run of digits
    gives the number written when it is at most 2^53, and the nearest
    binary64 number beyond. *)
Definition exact_bound : Z := 2 ^ 53.


(** * Properties *)

(** ** Cost aggregator *)

(** The cost of a parking point that has a ticket price of 20 yuan and no
    average cost: the ticket is charged once per traveler by the ticket rule
    and once more by the parking rule. *)
Lemma parking_yen20_cost (pt : LocationPoint) (T : Z) :
  type pt = parking ->
  ticket_price pt = Some yen20 ->
  average_cost pt = None ->
  calculatePointCost pt T = 20 * T + 20.
Proof.
  intros Hty Htk Hav. unfold calculatePointCost.
  rewrite Hty, Htk, Hav.
  replace (truthy_str (Some yen20)) with true by reflexivity.
  replace (str_includes (Some yen20) free_marker) with false by reflexivity.
  replace (parsePrice (Some yen20)) with 20 by reflexivity.
  cbn. lia.
Qed.

(** C1 (code defect). A parking point with ticket price "¥20" and no average
    cost does not contribute a flat 20: with one traveler [calculatePointCost]
    returns 40, with three travelers 80, and in general 20 * T + 20. *)
Theorem C1_parking_ticket_is_not_flat :
  calculatePointCost (sample_point parking (Some yen20) None) 1 = 40 /\
  calculatePointCost (sample_point parking (Some yen20) None) 3 = 80 /\
  forall T, calculatePointCost (sample_point parking (Some yen20) None) T = 20 * T + 20.
Proof.
  split; [reflexivity|]. split; [reflexivity|].
  intros T. now apply parking_yen20_cost.
Qed.

Lemma add_point_cost_gap T acc pt :
  total (add_point_cost T acc pt) - buckets (add_point_cost T acc pt)
  = total acc - buckets acc + unbucketed_point T pt.
Proof.
  unfold add_point_cost, unbucketed_point, buckets.
  destruct (type pt); cbn; lia.
Qed.

Lemma fold_points_gap T ps : forall acc,
  total (fold_left (add_point_cost T) ps acc) - buckets (fold_left (add_point_cost T) ps acc)
  = total acc - buckets acc + fold_left (fun a pt => a + unbucketed_point T pt) ps 0.
Proof.
  induction ps as [|pt ps IH]; intros acc; cbn [fold_left].
  - lia.
  - rewrite IH, add_point_cost_gap.
    assert (E : forall xs z, fold_left (fun a p => a + unbucketed_point T p) xs z
                   = z + fold_left (fun a p => a + unbucketed_point T p) xs 0).
    { clear. induction xs as [|x xs IHx]; intros z; cbn [fold_left]; [lia|].
      rewrite IHx, (IHx (0 + _)). lia. }
    rewrite (E ps (0 + _)). lia.
Qed.

Lemma add_day_cost_gap T acc d :
  total (add_day_cost T acc d) - buckets (add_day_cost T acc d)
  = total acc - buckets acc + unbucketed_day T d.
Proof.
  unfold add_day_cost, unbucketed_day. rewrite fold_points_gap.
  destruct (truthy_str (transportation_cost d)); unfold buckets; cbn; lia.
Qed.

(** The grand total is the sum of the four buckets plus the cost of the
    points of category start or end. *)
Lemma total_is_buckets_plus_unbucketed (p : TravelPlan) :
  total (calculateTotalCost p)
  = buckets (calculateTotalCost p)
    + fold_left (fun a d => a + unbucketed_day (travelers p) d) (days p) 0.
Proof.
  unfold calculateTotalCost.
  set (T := travelers p).
  assert (G : forall ds acc,
    total (fold_left (add_day_cost T) ds acc) - buckets (fold_left (add_day_cost T) ds acc)
    = total acc - buckets acc + fold_left (fun a d => a + unbucketed_day T d) ds 0).
  { induction ds as [|d ds IH]; intros acc; cbn [fold_left]; [lia|].
    rewrite IH, add_day_cost_gap.
    assert (E : forall xs z, fold_left (fun a d => a + unbucketed_day T d) xs z
                   = z + fold_left (fun a d => a + unbucketed_day T d) xs 0).
    { clear. induction xs as [|x xs IHx]; intros z; cbn [fold_left]; [lia|].
      rewrite IHx, (IHx (0 + _)). lia. }
    rewrite (E ds (0 + _)). lia. }
  specialize (G (days p) {| total := 0; transport := 0; accom := 0; dining := 0; tickets := 0 |}).
  unfold buckets in *. cbn in G. lia.
Qed.

(** C9 (code defect). For a plan of one day holding one point of category
    start with ticket price "¥10" and one traveler, [calculateTotalCost]
    returns a total of 10 while its four buckets are all 0: the cost of a
    start (or end) point is added to the total and to no bucket. *)
Theorem C9_start_point_in_no_bucket :
  let c := calculateTotalCost
             (sample_plan 1 [sample_day [sample_point start (Some yen10) None]]) in
  total c = 10 /\ transport c = 0 /\ accom c = 0 /\ dining c = 0 /\ tickets c = 0 /\
  total c <> transport c + accom c + dining c + tickets c.
Proof.
  vm_compute. repeat split; try reflexivity. discriminate.
Qed.

(** The cost rules on the examples of the specification. *)
Example hotel_400_three_travelers :
  calculatePointCost (sample_point hotel None (Some (165%N :: js "400"))) 3 = 800.
Proof. reflexivity. Qed.

Example restaurant_80_three_travelers :
  calculatePointCost (sample_point restaurant None (Some (165%N :: js "80"))) 3 = 240.
Proof. reflexivity. Qed.

Example free_ticket_costs_nothing (T : Z) :
  calculatePointCost (sample_point attraction (Some free_marker) None) T = 0.
Proof. reflexivity. Qed.

Example one_day_with_hotel :
  let c := calculateTotalCost
             (sample_plan 3
                [{| day := zero; date := js "2025-01-01";
                    transportation_cost := Some (165%N :: js "150");
                    points := [sample_point hotel None (Some (165%N :: js "400"))] |}]) in
  transport c = 150 /\ accom c = 800 /\ total c = 950.
Proof. repeat split. Qed.
(** ** Enrichment merges *)

Lemma with_days_same (p : TravelPlan) : with_days p (days p) = p.
Proof. now destruct p. Qed.

Lemma with_points_same (d : DayItinerary) : with_points d (points d) = d.
Proof. now destruct d. Qed.

Lemma apply_completion_Some (p : TravelPlan) (c : Completion) :
  apply_completion (Some p) c = Some (merge_plan c p).
Proof. reflexivity. Qed.

(** What one merge does to the point at any coordinate. *)
Lemma point_at_merge (c : Completion) (p : TravelPlan) (d i : nat) :
  point_at (merge_plan c p) d i =
  if decide (coord c = (d, i))
  then option_map (fun pt => with_alternatives pt (c_alts c)) (point_at p d i)
  else point_at p d i.
Proof.
  unfold merge_plan, point_at, merge_days, coord. cbn [days with_days].
  destruct (days p !! c_day c) as [dy|] eqn:Hd.
  - destruct (points dy !! c_point c) as [pt|] eqn:Hp.
    + pose proof (lookup_lt_Some _ _ _ Hd) as Ld.
      pose proof (lookup_lt_Some _ _ _ Hp) as Lp.
      destruct (decide (d = c_day c)) as [->|Nd].
      * rewrite list_lookup_insert_eq by assumption. cbn [points with_points].
        rewrite Hd.
        destruct (decide (i = c_point c)) as [->|Ni].
        -- rewrite list_lookup_insert_eq by assumption.
           rewrite decide_True by reflexivity. now rewrite Hp.
        -- rewrite list_lookup_insert_ne by congruence.
           rewrite decide_False by congruence. reflexivity.
      * rewrite list_lookup_insert_ne by congruence.
        rewrite decide_False by congruence. reflexivity.
    + case_decide as E; [|reflexivity].
      injection E as <- <-. now rewrite Hd, Hp.
  - case_decide as E; [|reflexivity].
    injection E as <- <-. now rewrite Hd.
Qed.

Lemma merge_plan_shape (c : Completion) (p : TravelPlan) :
  with_days (merge_plan c p) (days p) = p /\
  length (days (merge_plan c p)) = length (days p) /\
  forall d dy', days (merge_plan c p) !! d = Some dy' ->
    exists dy, days p !! d = Some dy /\ with_points dy' (points dy) = dy /\
               length (points dy') = length (points dy).
Proof.
  unfold merge_plan, merge_days. cbn [days with_days].
  split; [now destruct p|].
  destruct (days p !! c_day c) as [dy0|] eqn:Hd.
  2:{ split; [reflexivity|]. intros d dy' H. exists dy'.
      now rewrite with_points_same. }
  destruct (points dy0 !! c_point c) as [pt|] eqn:Hp.
  2:{ split; [reflexivity|]. intros d dy' H. exists dy'.
      now rewrite with_points_same. }
  split; [apply length_insert|].
  intros d dy' H.
  destruct (decide (d = c_day c)) as [->|Nd].
  - rewrite list_lookup_insert_eq in H by (eapply lookup_lt_Some; eauto).
    injection H as <-. exists dy0. cbn [points with_points].
    split; [assumption|]. split; [now destruct dy0|apply length_insert].
  - rewrite list_lookup_insert_ne in H by congruence.
    exists dy'. now rewrite with_points_same.
Qed.

(** A merge at a coordinate the plan does not have changes nothing. *)
Lemma merge_plan_missing (c : Completion) (p : TravelPlan) :
  point_at p (c_day c) (c_point c) = None -> merge_plan c p = p.
Proof.
  unfold point_at, merge_plan, merge_days. intros H.
  destruct (days p !! c_day c) as [dy|]; [rewrite H|]; apply with_days_same.
Qed.

(** Two plans with the same points everywhere, the same shape and the same
    other fields are equal. *)
Lemma days_ext (ds1 ds2 : list DayItinerary) :
  length ds1 = length ds2 ->
  (forall d dy1 dy2, ds1 !! d = Some dy1 -> ds2 !! d = Some dy2 ->
     with_points dy1 [] = with_points dy2 [] /\ points dy1 = points dy2) ->
  ds1 = ds2.
Proof.
  revert ds2. induction ds1 as [|a ds1 IH]; intros [|b ds2] L H; try discriminate.
  - reflexivity.
  - f_equal.
    + destruct (H 0%nat a b eq_refl eq_refl) as [E1 E2].
      destruct a, b; cbn in *. injection E1 as -> -> ->. now subst.
    + apply IH; [now injection L|].
      intros d dy1 dy2 H1 H2. apply (H (S d)); assumption.
Qed.

Lemma plan_ext (a b : TravelPlan) :
  with_days a [] = with_days b [] -> days a = days b -> a = b.
Proof.
  destruct a, b; cbn. intros E ->. now injection E as -> -> -> -> -> -> -> -> -> -> -> -> -> -> ->.
Qed.

Lemma merge_plan_comm (c1 c2 : Completion) (p : TravelPlan) :
  coord c1 <> coord c2 ->
  merge_plan c1 (merge_plan c2 p) = merge_plan c2 (merge_plan c1 p).
Proof.
  intros Hne.
  destruct (merge_plan_shape c2 p) as (S2 & L2 & D2).
  destruct (merge_plan_shape c1 (merge_plan c2 p)) as (S12 & L12 & D12).
  destruct (merge_plan_shape c1 p) as (S1 & L1 & D1).
  destruct (merge_plan_shape c2 (merge_plan c1 p)) as (S21 & L21 & D21).
  assert (E : days (merge_plan c1 (merge_plan c2 p)) = days (merge_plan c2 (merge_plan c1 p))).
  { apply days_ext; [congruence|].
    intros d dy1 dy2 H1 H2.
    destruct (D12 _ _ H1) as (a & Ha & Ea & _). destruct (D2 _ _ Ha) as (a0 & Ha0 & Ea0 & _).
    destruct (D21 _ _ H2) as (b & Hb & Eb & _). destruct (D1 _ _ Hb) as (b0 & Hb0 & Eb0 & _).
    assert (a0 = b0) by congruence. subst b0.
    split.
    - transitivity (with_points a0 []).
      + rewrite <- Ea0, <- Ea. reflexivity.
      + rewrite <- Eb0, <- Eb. reflexivity.
    - apply list_eq. intros i.
      assert (P12 : points dy1 !! i = point_at (merge_plan c1 (merge_plan c2 p)) d i)
        by (unfold point_at; now rewrite H1).
      assert (P21 : points dy2 !! i = point_at (merge_plan c2 (merge_plan c1 p)) d i)
        by (unfold point_at; now rewrite H2).
      rewrite P12, P21, !point_at_merge.
      repeat case_decide; try reflexivity. congruence. }
  apply plan_ext; [reflexivity | exact E].
Qed.

Lemma apply_completions_perm (l1 l2 : list Completion) :
  Permutation l1 l2 -> List.NoDup (map coord l1) ->
  forall p, apply_completions l1 (Some p) = apply_completions l2 (Some p).
Proof.
  induction 1 as [|x l l' HP IH|x y l|l l' l'' HP1 IH1 HP2 IH2]; intros ND p.
  - reflexivity.
  - unfold apply_completions. cbn [fold_left]. rewrite apply_completion_Some.
    cbn in ND. inversion ND; subst. now apply IH.
  - unfold apply_completions. cbn [fold_left]. rewrite !apply_completion_Some.
    rewrite merge_plan_comm; [reflexivity|].
    cbn in ND. inversion ND as [|? ? Hin _]; subst.
    intros E. apply Hin. rewrite E. now left.
  - rewrite IH1 by assumption. apply IH2.
    eapply Permutation.Permutation_NoDup; [|exact ND]. now apply Permutation_map.
Qed.

(** The plan after the merges of a list of completions with distinct
    coordinates, taken in the order of the list. *)
Lemma apply_completions_spec (order : list Completion) : forall p,
  List.NoDup (map coord order) ->
  exists p',
    apply_completions order (Some p) = Some p' /\
    (forall c pt, In c order -> point_at p (c_day c) (c_point c) = Some pt ->
       point_at p' (c_day c) (c_point c) = Some (with_alternatives pt (c_alts c))) /\
    (forall d i, ~ In (d, i) (map coord order) -> point_at p' d i = point_at p d i) /\
    with_days p' (days p) = p /\
    length (days p') = length (days p) /\
    (forall d dy', days p' !! d = Some dy' ->
       exists dy, days p !! d = Some dy /\ with_points dy' (points dy) = dy /\
                  length (points dy') = length (points dy)).
Proof.
  induction order as [|c order IH]; intros p ND.
  - exists p. cbn. repeat split; try easy.
    + apply with_days_same.
    + intros d dy' H. exists dy'. now rewrite with_points_same.
  - cbn in ND. inversion ND as [|? ? Hnin ND']; subst.
    unfold apply_completions. cbn [fold_left]. rewrite apply_completion_Some.
    fold (apply_completions order (Some (merge_plan c p))).
    destruct (IH (merge_plan c p) ND') as (p' & Hrun & Hown & Hother & Hfld & Hlen & Hday).
    destruct (merge_plan_shape c p) as (S1 & L1 & D1).
    exists p'. split; [exact Hrun|]. split; [|split; [|split; [|split]]].
    + intros c' pt [<-|Hin] Hpt.
      * rewrite Hother by exact Hnin.
        rewrite point_at_merge, decide_True by reflexivity. now rewrite Hpt.
      * apply Hown; [assumption|].
        rewrite point_at_merge, decide_False; [assumption|].
        intros E. apply Hnin. change (c_day c', c_point c') with (coord c') in E.
        rewrite E. apply (in_map coord _ _ Hin).
    + intros d i Hn. rewrite Hother.
      * rewrite point_at_merge, decide_False; [reflexivity|].
        intros E. apply Hn. cbn. now left.
      * intros Hin. apply Hn. cbn. now right.
    + transitivity (with_days (merge_plan c p) (days p)); [|exact S1].
      rewrite <- Hfld. reflexivity.
    + congruence.
    + intros d dy' H.
      destruct (Hday _ _ H) as (dy1 & H1 & E1 & Len1).
      destruct (D1 _ _ H1) as (dy & H0 & E0 & Len0).
      exists dy. split; [assumption|]. split; [|congruence].
      transitivity (with_points dy1 (points dy)); [|exact E0].
      rewrite <- E1. reflexivity.
Qed.

(** C8. Merges for distinct coordinates, applied in any order through the
    read-latest-then-write updater, give one and the same final plan; in it
    every coordinate that has a task holds a point whose [alternatives] are
    the list of its own task and whose other fields are those of the point
    it held before, every other point is the point it was, and the plan and
    its days keep their shape and all their other fields. *)
Theorem C8_merges_of_distinct_coordinates
    (p : TravelPlan) (tasks order : list Completion) :
  List.NoDup (map coord tasks) ->
  Permutation tasks order ->
  exists p',
    apply_completions order (Some p) = Some p' /\
    apply_completions tasks (Some p) = Some p' /\
    (forall c pt, In c tasks -> point_at p (c_day c) (c_point c) = Some pt ->
       exists pt',
         point_at p' (c_day c) (c_point c) = Some pt' /\
         alternatives pt' = Some (c_alts c) /\
         other_fields pt' = other_fields pt) /\
    (forall d i, ~ In (d, i) (map coord tasks) -> point_at p' d i = point_at p d i) /\
    with_days p' (days p) = p /\
    length (days p') = length (days p) /\
    (forall d dy', days p' !! d = Some dy' ->
       exists dy, days p !! d = Some dy /\ with_points dy' (points dy) = dy /\
                  length (points dy') = length (points dy)).
Proof.
  intros ND HP.
  destruct (apply_completions_spec tasks p ND) as (p' & Hrun & Hown & Hrest).
  exists p'. split; [|split; [exact Hrun | split; [|exact Hrest]]].
  - rewrite <- Hrun. symmetry. now apply apply_completions_perm.
  - intros c pt Hc Hpt. exists (with_alternatives pt (c_alts c)).
    split; [now apply Hown|]. split; reflexivity.
Qed.

(** Two completions of one day, arriving in the reverse order. *)
Lemma C8_witness :
  exists p' pt',
    apply_completions
      [ {| c_day := 0; c_point := 1; c_alts := [JNull] |};
        {| c_day := 0; c_point := 0; c_alts := [] |} ]
      (Some (sample_plan 2 [sample_day [sample_point attraction None None;
                                        sample_point hotel None None]])) = Some p' /\
    point_at p' 0 1 = Some pt' /\
    alternatives pt' = Some [JNull] /\
    other_fields pt' = other_fields (sample_point hotel None None).
Proof.
  destruct (C8_merges_of_distinct_coordinates
              (sample_plan 2 [sample_day [sample_point attraction None None;
                                          sample_point hotel None None]])
              [ {| c_day := 0; c_point := 0; c_alts := [] |};
                {| c_day := 0; c_point := 1; c_alts := [JNull] |} ]
              [ {| c_day := 0; c_point := 1; c_alts := [JNull] |};
                {| c_day := 0; c_point := 0; c_alts := [] |} ])
    as (p' & Hrun & _ & Hown & _).
  - repeat constructor; cbn; intros H; repeat destruct H as [H|H]; try discriminate; exact H.
  - apply perm_swap.
  - destruct (Hown {| c_day := 0; c_point := 1; c_alts := [JNull] |}
                   (sample_point hotel None None))
      as (pt' & Hpt & Halt & Hoth).
    + right. left. reflexivity.
    + reflexivity.
    + exists p', pt'. split; [exact Hrun|]. split; [exact Hpt|]. split; assumption.
Defined.

(** C10. When the latest plan has no point at the coordinate of a completed
    task (the day or the point is gone, or there is no plan), the merge
    changes nothing: the task resolves and the state after it equals the
    state before it. *)
Theorem C10_merge_at_missing_coordinate
    (s : AppState) (dIdx pIdx : nat) (alts : list JValue) :
  (forall p, plan s = Some p -> point_at p dIdx pIdx = None) ->
  enrichment_task dIdx pIdx (Fetched alts) s = (Resolved, s) /\
  setPlan (merge_alternatives dIdx pIdx alts) (plan s) = plan s.
Proof.
  intros H.
  assert (E : setPlan (merge_alternatives dIdx pIdx alts) (plan s) = plan s).
  { unfold setPlan, merge_alternatives. destruct (plan s) as [p|]; [|reflexivity].
    f_equal.
    apply (merge_plan_missing {| c_day := dIdx; c_point := pIdx; c_alts := alts |}).
    now apply H. }
  split; [|exact E].
  unfold enrichment_task. rewrite E. now destruct s.
Qed.

(** A completion for the fourth point of a day that has one point. *)
Lemma C10_witness :
  enrichment_task 0 3 (Fetched [JNull])
    {| plan := Some (sample_plan 2 [sample_day [sample_point hotel None None]]);
       warnings := [] |}
  = (Resolved,
     {| plan := Some (sample_plan 2 [sample_day [sample_point hotel None None]]);
        warnings := [] |}).
Proof.
  apply (C10_merge_at_missing_coordinate
           {| plan := Some (sample_plan 2 [sample_day [sample_point hotel None None]]);
              warnings := [] |} 0 3 [JNull]).
  intros p E. injection E as <-. reflexivity.
Defined.
(** ** Request queue *)

Lemma pending_take_suspend fn q' w :
  pending (suspend fn (take_task fn q' w)) = (length q' + S (length (awaiting w)))%nat.
Proof. unfold pending. cbn. rewrite length_app. cbn. lia. Qed.

(** [process()] on a state where at most one waiting task can be started
    before the cap is reached again. *)
Lemma process_from_spec (q : list task) : forall w,
  queue w = q ->
  activeCount w = Z.of_nat (length (awaiting w)) ->
  activeCount w <= maxConcurrent ->
  Permutation (started w) (finished w ++ awaiting w) ->
  (tl q <> [] -> 1 <= activeCount w) ->
  exists w' more,
    process_from q w = (inl tt, w') /\
    queue_inv w' /\
    started w' = started w ++ more /\
    q = more ++ queue w' /\
    (pending w' <= pending w)%nat /\
    (activeCount w < maxConcurrent -> forall fn q', q = fn :: q' -> exists m, more = fn :: m) /\
    (q = [] -> w' = w).
Proof.
  induction q as [|fn q' IH]; intros w Hq Hc Hcap Hacct Htl.
  - exists w, []. cbn [process_from].
    split; [now destruct (maxConcurrent <=? activeCount w)|].
    split; [constructor; try assumption; congruence|].
    split; [now rewrite app_nil_r|]. split; [now rewrite Hq|]. split; [lia|].
    split; [discriminate|reflexivity].
  - cbn [process_from].
    destruct (maxConcurrent <=? activeCount w) eqn:G.
    + apply Z.leb_le in G. exists w, [].
      split; [reflexivity|].
      split; [constructor; try assumption; intros _; lia|].
      split; [now rewrite app_nil_r|]. split; [now rewrite Hq|]. split; [lia|].
      split; [lia|discriminate].
    + apply Z.leb_gt in G.
      destruct (throws_at_call fn) as [e|] eqn:Hthrow.
      * (* the call throws: caught, logged, and process() runs again *)
        unfold try_catch_finally, throw, console_error. cbn [fst snd].
        set (w1 := release fn _).
        destruct (IH w1) as (w' & more & Hrun & Hinv & Hst & Hqq & Hpend & Hnext & _).
        -- reflexivity.
        -- subst w1. cbn. lia.
        -- subst w1. cbn. lia.
        -- subst w1. cbn.
           etransitivity; [apply Permutation_app_tail; exact Hacct|].
           rewrite <- !app_assoc. apply Permutation_app_head, Permutation_app_comm.
        -- subst w1. cbn. intros Ht.
           assert (1 <= activeCount w); [|lia].
           apply Htl. cbn. destruct q'; [contradiction|discriminate].
        -- rewrite Hrun. exists w', (fn :: more).
           split; [reflexivity|]. split; [assumption|].
           split; [subst w1; cbn in Hst; rewrite Hst, <- app_assoc; reflexivity|].
           split; [cbn; congruence|].
           split; [unfold pending in *; rewrite Hq; subst w1; cbn in *; lia|].
           split; [intros _ fn0 q0 E; injection E as <- <-; eauto | discriminate].
      * (* the call returns a promise: process() is suspended *)
        exists (suspend fn (take_task fn q' w)), [fn].
        split; [reflexivity|]. split.
        { constructor; cbn.
          - rewrite length_app. cbn. lia.
          - unfold maxConcurrent in *. lia.
          - rewrite app_assoc. apply Permutation_app; [assumption|reflexivity].
          - intros Hne. unfold maxConcurrent in *.
            assert (1 <= activeCount w) by (apply Htl; cbn; assumption). lia. }
        split; [reflexivity|]. split; [reflexivity|].
        split; [rewrite pending_take_suspend; unfold pending; rewrite Hq; cbn; lia|].
        split; [intros _ fn0 q0 E; injection E as <- <-; eauto | discriminate].
Qed.

Lemma new_RequestQueue_inv : queue_inv new_RequestQueue.
Proof. constructor; cbn; try reflexivity; [unfold maxConcurrent; lia | congruence]. Qed.

Section OneEvent.

Variable w : World.
Hypothesis Hinv : queue_inv w.

Lemma add_spec (fn : task) :
  exists w' more,
    add fn w = (inl tt, w') /\
    queue_inv w' /\
    started w' = started w ++ more /\
    queue w ++ [fn] = more ++ queue w'.
Proof.
  destruct Hinv as [Hc Hcap Hacct Hfull]. unfold add, process.
  destruct (process_from_spec (queue (push fn w)) (push fn w))
    as (w' & more & Hrun & Hinv' & Hst & Hq & _); try assumption; try reflexivity.
  - cbn. intros Ht.
    destruct (queue w) as [|a q] eqn:E; [cbn in Ht; contradiction|].
    rewrite Hfull by discriminate. unfold maxConcurrent. lia.
  - exists w', more. rewrite Hrun.
    split; [reflexivity|]. split; [assumption|]. split; assumption.
Qed.

(** The [finally] block of a settled task: the count goes down and
    [process()] runs on what is waiting. *)
Lemma finally_spec (fn : task) (i : nat) (l : list exn) :
  awaiting w !! i = Some fn ->
  exists w' more,
    process (release fn (set_console l (wake i w))) = (inl tt, w') /\
    queue_inv w' /\
    started w' = started w ++ more /\
    queue w = more ++ queue w' /\
    (pending w' < pending w)%nat /\
    (forall fn' q', queue w = fn' :: q' -> exists m, more = fn' :: m) /\
    (queue w = [] -> activeCount w' = activeCount w - 1).
Proof.
  destruct Hinv as [Hc Hcap Hacct Hfull]. intros Hi. unfold process.
  pose proof (length_delete (awaiting w) i (ex_intro _ fn Hi)) as Ld.
  pose proof (lookup_lt_Some _ _ _ Hi) as Li.
  destruct (process_from_spec (queue w) (release fn (set_console l (wake i w))))
    as (w' & more & Hrun & Hinv' & Hst & Hq & Hp & Hnext & Hnil).
  - reflexivity.
  - cbn. lia.
  - cbn. lia.
  - cbn. rewrite Hacct, <- app_assoc. apply Permutation_app_head.
    apply (delete_Permutation _ _ _ Hi).
  - cbn. intros Ht.
    destruct (queue w) as [|a q] eqn:E; [cbn in Ht; contradiction|].
    rewrite Hfull by discriminate. unfold maxConcurrent. lia.
  - exists w', more.
    split; [exact Hrun|]. split; [assumption|]. split; [assumption|].
    split; [assumption|].
    split; [unfold pending in *; cbn in Hp; lia|].
    split.
    + intros fn' q' E. apply (Hnext ltac:(cbn; lia) fn' q' E).
    + intros E. rewrite (Hnil E). cbn. reflexivity.
Qed.

Lemma resume_unfold (fn : task) (o : outcome) (w0 : World) :
  resume fn o w0 =
  process (release fn (set_console
                         (match o with
                          | Resolved => console w0
                          | Rejected e => console w0 ++ [e]
                          end) w0)).
Proof.
  assert (E : forall x : (unit + exn) * World,
             (let '(rf, w3) := x in
              match rf with inr e => (inr e, w3) | inl _ => (inl tt, w3) end) = x).
  { intros [[[]|e] w3]; reflexivity. }
  unfold resume, try_catch_finally, ret, throw, console_error.
  destruct o as [|e].
  - replace (set_console (console w0) w0) with w0 by now destruct w0.
    apply E.
  - apply E.
Qed.

Lemma step_spec (ev : event) (r : unit + exn) (w' : World) :
  step ev w = Some (r, w') ->
  r = inl tt /\ queue_inv w' /\
  started w' ++ queue w' = (started w ++ queue w) ++ submitted [ev] /\
  (is_settle ev = true -> (pending w' < pending w)%nat).
Proof.
  intros Hstep. destruct ev as [fn|i o]; unfold step in Hstep.
  - destruct (add_spec fn) as (w1 & more & Hrun & Hinv1 & Hst & Hq).
    rewrite Hrun in Hstep. injection Hstep as <- <-.
    split; [reflexivity|]. split; [assumption|]. split; [|discriminate].
    cbn. rewrite Hst, <- !app_assoc, <- Hq. reflexivity.
  - destruct (awaiting w !! i) as [fn|] eqn:Hi; [|discriminate].
    rewrite resume_unfold in Hstep.
    destruct (finally_spec fn i
                (match o with Resolved => console w | Rejected e => console w ++ [e] end)
                Hi) as (w1 & more & Hrun & Hinv1 & Hst & Hq & Hp & _).
    change (console (wake i w)) with (console w) in Hstep.
    rewrite Hrun in Hstep. injection Hstep as <- <-.
    split; [reflexivity|]. split; [assumption|]. split; [|intros _; assumption].
    cbn. rewrite app_nil_r, Hst, <- app_assoc, <- Hq. reflexivity.
Qed.

End OneEvent.

Lemma submitted_app (e1 e2 : list event) :
  submitted (e1 ++ e2) = submitted e1 ++ submitted e2.
Proof.
  induction e1 as [|[fn|i o] e1 IH]; cbn; [reflexivity| |assumption].
  now rewrite IH.
Qed.

Lemma submitted_settles (os : list event) :
  forallb is_settle os = true -> submitted os = [].
Proof.
  induction os as [|[fn|i o] os IH]; cbn; [reflexivity|discriminate|assumption].
Qed.

Lemma run_spec (evs : list event) : forall w w',
  queue_inv w ->
  run evs w = Some w' ->
  queue_inv w' /\ started w' ++ queue w' = (started w ++ queue w) ++ submitted evs.
Proof.
  induction evs as [|ev evs IH]; intros w w' Hinv Hrun; cbn in Hrun.
  - injection Hrun as <-. cbn. now rewrite app_nil_r.
  - destruct (step ev w) as [[r w1]|] eqn:Hstep; [|discriminate].
    destruct (step_spec _ Hinv _ _ _ Hstep) as (_ & Hinv1 & Hq & _).
    destruct (IH _ _ Hinv1 Hrun) as (Hinv' & Hq').
    split; [assumption|].
    rewrite Hq', Hq. change (ev :: evs) with ([ev] ++ evs).
    now rewrite submitted_app, <- !app_assoc.
Qed.

(** From any state of the queue, settling the awaited tasks one after the
    other empties the queue. *)
Lemma drain_exists (n : nat) : forall w,
  queue_inv w -> (pending w <= n)%nat ->
  exists os w',
    forallb is_settle os = true /\ run os w = Some w' /\
    queue w' = [] /\ awaiting w' = [] /\ activeCount w' = 0.
Proof.
  induction n as [|n IH]; intros w Hinv Hp.
  - exists [], w. unfold pending in Hp.
    destruct (queue w) eqn:Eq; [|cbn in Hp; lia].
    destruct (awaiting w) eqn:Ea; [|cbn in Hp; lia].
    repeat split. rewrite (inv_count _ Hinv), Ea. reflexivity.
  - destruct (awaiting w) as [|fn aw] eqn:Ea.
    + exists [], w. pose proof (inv_count _ Hinv) as Hc. rewrite Ea in Hc. cbn in Hc.
      repeat split; try assumption.
      destruct (queue w) eqn:Eq; [reflexivity|].
      pose proof (inv_full _ Hinv) as Hf. rewrite Eq in Hf.
      specialize (Hf ltac:(discriminate)). unfold maxConcurrent in Hf. lia.
    + destruct (step (Settle 0 Resolved) w) as [[r w1]|] eqn:Hstep.
      2:{ cbn in Hstep. rewrite Ea in Hstep. discriminate. }
      destruct (step_spec _ Hinv _ _ _ Hstep) as (_ & Hinv1 & _ & Hlt).
      specialize (Hlt eq_refl).
      destruct (IH w1 Hinv1 ltac:(lia)) as (os & w' & Hos & Hrun & Res).
      exists (Settle 0 Resolved :: os), w'.
      split; [exact Hos|]. split; [|exact Res].
      cbn [run]. rewrite Hstep. exact Hrun.
Qed.

(** C5. In every state the queue reaches from a new queue, by submissions
    and by awaited tasks settling in any order: the number of running tasks
    is [activeCount], between 0 and the cap 2; the tasks started so far,
    followed by the tasks still waiting, are the submitted tasks in
    submission order; a task waits only while two tasks run; every started
    task is running or has finished, once; every settling of a running task
    is accepted and leaves fewer tasks to do; and some sequence of
    settlings leads to the idle state, in which the finished tasks are
    exactly the submitted ones. *)
Theorem C5_queue_cap_fifo_completion (evs : list event) (w : World) :
  run evs new_RequestQueue = Some w ->
  (0 <= activeCount w <= maxConcurrent /\
   activeCount w = Z.of_nat (length (awaiting w))) /\
  started w ++ queue w = submitted evs /\
  (queue w <> [] -> activeCount w = maxConcurrent) /\
  Permutation (started w) (finished w ++ awaiting w) /\
  (forall i o, (i < length (awaiting w))%nat ->
     exists w', step (Settle i o) w = Some (inl tt, w') /\ (pending w' < pending w)%nat) /\
  (awaiting w = [] -> queue w = [] /\ Permutation (finished w) (submitted evs)) /\
  (exists os w',
     forallb is_settle os = true /\ run os w = Some w' /\
     queue w' = [] /\ awaiting w' = [] /\ activeCount w' = 0 /\
     Permutation (finished w') (submitted evs)).
Proof.
  intros Hrun.
  destruct (run_spec _ _ _ new_RequestQueue_inv Hrun) as (Hinv & Hfifo).
  cbn in Hfifo.
  pose proof Hinv as [Hc Hcap Hacct Hfull].
  split; [split; [lia | assumption]|].
  split; [assumption|]. split; [assumption|]. split; [assumption|].
  split; [|split].
  - intros i o Hi.
    destruct (lookup_lt_is_Some_2 _ _ Hi) as [fn Hfn].
    destruct (step (Settle i o) w) as [[r w1]|] eqn:Hstep.
    2:{ cbn in Hstep. rewrite Hfn in Hstep. discriminate. }
    destruct (step_spec _ Hinv _ _ _ Hstep) as (-> & _ & _ & Hlt).
    exists w1. split; [reflexivity | now apply Hlt].
  - intros Ea. rewrite Ea in Hc, Hacct. cbn in Hc.
    assert (Eq : queue w = []).
    { destruct (queue w) eqn:Eq; [reflexivity|].
      specialize (Hfull ltac:(discriminate)). unfold maxConcurrent in Hfull. lia. }
    split; [assumption|].
    rewrite Eq, app_nil_r in Hfifo. rewrite app_nil_r in Hacct.
    rewrite <- Hfifo. now symmetry.
  - destruct (drain_exists (pending w) w Hinv (le_n _))
      as (os & w' & Hos & Hrun' & Eq & Ea & Hz).
    exists os, w'. repeat (split; [assumption|]).
    destruct (run_spec _ _ _ Hinv Hrun') as ([_ _ Hacct' _] & Hfifo').
    rewrite Eq, (submitted_settles _ Hos), !app_nil_r in Hfifo'.
    rewrite Ea, app_nil_r in Hacct'.
    rewrite <- Hfifo, <- Hfifo'. now symmetry.
Qed.

(** Three submissions and the settling of the second task. *)
Lemma C5_witness :
  exists w,
    run [Add (sample_task 1); Add (sample_task 2); Add (sample_task 3);
         Settle 1 Resolved] new_RequestQueue = Some w /\
    started w ++ queue w = [sample_task 1; sample_task 2; sample_task 3] /\
    0 <= activeCount w <= maxConcurrent.
Proof.
  eexists. split; [reflexivity|].
  destruct (C5_queue_cap_fifo_completion
              [Add (sample_task 1); Add (sample_task 2); Add (sample_task 3);
               Settle 1 Resolved] _ eq_refl) as ((Hcap & _) & Hfifo & _).
  split; [exact Hfifo | exact Hcap].
Defined.

(** ** Failures of tasks *)

Lemma world_ext (a b : World) :
  queue a = queue b -> activeCount a = activeCount b -> awaiting a = awaiting b ->
  started a = started b -> finished a = finished b -> console a = console b -> a = b.
Proof. destruct a, b; cbn; intros; subst; reflexivity. Qed.

Lemma process_from_called (q : list task) : forall w,
  queue w = q -> activeCount w < maxConcurrent ->
  process_from q w = (inl tt, called (burst q) w).
Proof.
  induction q as [|fn q' IH]; intros w Hq Hc; cbn [process_from burst].
  - apply Z.leb_gt in Hc. rewrite Hc. f_equal.
    apply world_ext; cbn; rewrite ?app_nil_r; try reflexivity; lia.
  - pose proof Hc as Hc'. apply Z.leb_gt in Hc'. rewrite Hc'.
    unfold throws at 1. destruct (throws_at_call fn) as [e|] eqn:Ht.
    + unfold try_catch_finally, throw, console_error. cbn [fst snd].
      set (w1 := release fn _).
      rewrite (IH w1) by (subst w1; cbn; first [reflexivity | lia]).
      f_equal. subst w1.
      apply world_ext; cbn [called queue activeCount awaiting started finished console
                             release take_task length List.filter call_failures].
      * rewrite Hq. reflexivity.
      * unfold throws at 2. rewrite Ht. cbn [negb]. lia.
      * unfold throws at 2. rewrite Ht. reflexivity.
      * now rewrite <- app_assoc.
      * unfold throws at 2. rewrite Ht. now rewrite <- app_assoc.
      * rewrite Ht. now rewrite <- app_assoc.
    + f_equal.
      apply world_ext; cbn [called queue activeCount awaiting started finished console
                             suspend take_task length List.filter call_failures].
      * rewrite Hq. cbn. now rewrite drop_0.
      * unfold throws. rewrite Ht. cbn. lia.
      * unfold throws. rewrite Ht. reflexivity.
      * reflexivity.
      * unfold throws. rewrite Ht. cbn. now rewrite app_nil_r.
      * rewrite Ht. cbn. now rewrite app_nil_r.
Qed.

Lemma add_called (w : World) (fn : task) :
  add fn w = (inl tt, called (if maxConcurrent <=? activeCount w then []
                              else burst (queue w ++ [fn])) (push fn w)).
Proof.
  unfold add, process. destruct (Z.leb_spec maxConcurrent (activeCount w)) as [H|H].
  - assert (E : process_from (queue (push fn w)) (push fn w) = (inl tt, push fn w)).
    { apply Z.leb_le in H. destruct (queue (push fn w)); cbn [process_from activeCount push];
        now rewrite H. }
    rewrite E. f_equal.
    apply world_ext; cbn; rewrite ?app_nil_r; try reflexivity; lia.
  - now apply process_from_called.
Qed.

Lemma settle_called (w : World) (i : nat) (fn : task) (o : outcome) :
  activeCount w <= maxConcurrent -> awaiting w !! i = Some fn ->
  step (Settle i o) w
  = Some (inl tt, called (burst (queue w)) (release fn (log_rejection o (wake i w)))).
Proof.
  intros Hc Hi. unfold step. rewrite Hi, resume_unfold. f_equal.
  replace (set_console (match o with
                        | Resolved => console (wake i w)
                        | Rejected e => console (wake i w) ++ [e]
                        end) (wake i w))
    with (log_rejection o (wake i w))
    by (unfold log_rejection; destruct o; cbn [rejection]; now rewrite ?app_nil_r).
  unfold process. apply process_from_called; [reflexivity|]. cbn. lia.
Qed.

Lemma call_failures_app (l1 l2 : list task) :
  call_failures (l1 ++ l2) = call_failures l1 ++ call_failures l2.
Proof.
  induction l1 as [|fn l1 IH]; cbn; [reflexivity|].
  destruct (throws_at_call fn); cbn; now rewrite IH.
Qed.

Lemma in_throwers (b : list task) (fn : task) :
  In fn b -> throws fn = true -> In fn (List.filter throws b).
Proof. intros H T. apply List.filter_In. now split. Qed.

(** What a run adds to the trace of the queue: the failures on the console
    are those of the tasks it called and the rejections it brought, and the
    tasks that threw as they were called have finished. *)
Lemma run_failures (evs : list event) : forall w w',
  queue_inv w -> run evs w = Some w' ->
  exists more fin,
    started w' = started w ++ more /\
    finished w' = finished w ++ fin /\
    Permutation (console w') (console w ++ call_failures more ++ rejections evs) /\
    (forall fn, In fn more -> throws fn = true -> In fn fin).
Proof.
  induction evs as [|ev evs IH]; intros w w' Hinv Hrun; cbn [run] in Hrun.
  - injection Hrun as <-. exists [], []. cbn. rewrite !app_nil_r.
    repeat split; try reflexivity. contradiction.
  - destruct (step ev w) as [[r w1]|] eqn:Hstep; [|discriminate].
    destruct (step_spec _ Hinv _ _ _ Hstep) as (_ & Hinv1 & _).
    destruct (IH _ _ Hinv1 Hrun) as (more & fin & Hst & Hfin & Hcon & Hthr).
    destruct ev as [fn|i o].
    + cbn [step] in Hstep. rewrite add_called in Hstep. injection Hstep as _ <-.
      set (b := if maxConcurrent <=? activeCount w then [] else burst (queue w ++ [fn])) in *.
      cbn [called started finished console push] in Hst, Hfin, Hcon.
      exists (b ++ more), (List.filter throws b ++ fin).
      split; [now rewrite Hst, <- app_assoc|]. split; [now rewrite Hfin, <- app_assoc|].
      split.
      * cbn [rejections]. rewrite call_failures_app, Hcon, <- !app_assoc. reflexivity.
      * intros f Hf T. apply in_app_iff. apply in_app_iff in Hf as [Hf|Hf];
          [left; now apply in_throwers | right; now apply Hthr].
    + cbn [step] in Hstep. destruct (awaiting w !! i) as [fn|] eqn:Hi; [|discriminate].
      pose proof (settle_called w i fn o (inv_cap _ Hinv) Hi) as E.
      cbn [step] in E. rewrite Hi in E. rewrite E in Hstep. injection Hstep as _ <-.
      set (b := burst (queue w)) in *.
      cbn [called started finished console release log_rejection set_console wake]
        in Hst, Hfin, Hcon.
      exists (b ++ more), (fn :: List.filter throws b ++ fin).
      split; [now rewrite Hst, <- app_assoc|].
      split; [rewrite Hfin, <- !app_assoc; reflexivity|].
      split.
      * cbn [rejections]. rewrite call_failures_app, Hcon, <- !app_assoc.
        apply Permutation_app_head.
        transitivity ((rejection o ++ (call_failures b ++ call_failures more))
                      ++ rejections evs); [now rewrite <- !app_assoc|].
        rewrite (Permutation_app_comm (rejection o)).
        now rewrite <- !app_assoc.
      * intros f Hf T. right. apply in_app_iff. apply in_app_iff in Hf as [Hf|Hf];
          [left; now apply in_throwers | right; now apply Hthr].
Qed.

Lemma run_app (e1 e2 : list event) : forall w w1,
  run e1 w = Some w1 -> run (e1 ++ e2) w = run e2 w1.
Proof.
  induction e1 as [|ev e1 IH]; intros w w1 H; cbn [run app] in *.
  - now injection H as <-.
  - destruct (step ev w) as [[r w0]|]; [|discriminate]. now apply IH.
Qed.

(** From any state of the queue, the awaited tasks settling one after the
    other with the outcome [o] empty the queue. *)
Lemma drain_with (o : outcome) (n : nat) : forall w,
  queue_inv w -> (pending w <= n)%nat ->
  exists os w',
    settles_with o os /\ run os w = Some w' /\
    queue w' = [] /\ awaiting w' = [] /\ activeCount w' = 0.
Proof.
  induction n as [|n IH]; intros w Hinv Hp.
  - exists [], w. unfold pending in Hp.
    destruct (queue w) eqn:Eq; [|cbn in Hp; lia].
    destruct (awaiting w) eqn:Ea; [|cbn in Hp; lia].
    split; [constructor|]. repeat split. rewrite (inv_count _ Hinv), Ea. reflexivity.
  - destruct (awaiting w) as [|fn aw] eqn:Ea.
    + exists [], w. pose proof (inv_count _ Hinv) as Hc. rewrite Ea in Hc. cbn in Hc.
      split; [constructor|]. repeat split; try assumption.
      destruct (queue w) eqn:Eq; [reflexivity|].
      pose proof (inv_full _ Hinv) as Hf. rewrite Eq in Hf.
      specialize (Hf ltac:(discriminate)). unfold maxConcurrent in Hf. lia.
    + destruct (step (Settle 0 o) w) as [[r w1]|] eqn:Hstep.
      2:{ cbn in Hstep. rewrite Ea in Hstep. discriminate. }
      destruct (step_spec _ Hinv _ _ _ Hstep) as (_ & Hinv1 & _ & Hlt).
      specialize (Hlt eq_refl).
      destruct (IH w1 Hinv1 ltac:(lia)) as (os & w' & Hos & Hrun & Res).
      exists (Settle 0 o :: os), w'.
      split; [constructor; [now exists 0%nat | exact Hos]|]. split; [|exact Res].
      cbn [run]. rewrite Hstep. exact Hrun.
Qed.

Lemma submitted_settles_with (o : outcome) (os : list event) :
  settles_with o os -> submitted os = [].
Proof.
  induction 1 as [|ev os [i ->] _ IH]; cbn; [reflexivity|assumption].
Qed.

(** The task of [prefetchAlternatives] catches the failure of its fetch
    itself: it warns, leaves the plan alone, and resolves. *)
Lemma enrichment_task_failure (dIdx pIdx : nat) (err : exn) (s : AppState) :
  enrichment_task dIdx pIdx (FetchFailed err) s
  = (Resolved, {| plan := plan s; warnings := warnings s ++ [err] |}).
Proof. reflexivity. Qed.

(** C6. In every state [w] the queue reaches from a new queue:
    - what the console holds are the failures so far, each once and nothing
      else: the exceptions of the started tasks that threw as they were
      called and the rejections of the tasks that settled;
    - a started task that threw as it was called has finished, and
      [activeCount] is the number of tasks awaited: no failure keeps a slot;
    - [add] raises nothing for the submitter and leaves the state written
      out here: when a slot is free the task is called, and if it throws it
      is logged and finished at once;
    - when the promise of a running task settles, with a rejection or
      not, the rest of [process()] raises nothing and leaves the state
      written out here: the rejection is logged, the count goes down, the
      task has finished, and the waiting tasks are called from the head of
      the list, each one that throws being logged and finished, up to the
      first one that returns a promise; a rejection changes the console and
      nothing else;
    - whatever the outcome with which the running tasks settle, rejections
      included, some sequence of settlings leads to the idle state, in which
      every submitted task has finished and the console holds the exception
      of every submitted task that threw and every rejection;
    - the task of [prefetchAlternatives] catches the failure of its fetch
      itself: it warns, leaves the plan alone, and resolves. *)
Theorem C6_task_failure_is_isolated (evs : list event) (w : World) :
  run evs new_RequestQueue = Some w ->
  Permutation (console w) (call_failures (started w) ++ rejections evs) /\
  (forall fn, In fn (started w) -> throws fn = true -> In fn (finished w)) /\
  activeCount w = Z.of_nat (length (awaiting w)) /\
  (forall fn,
     add fn w = (inl tt, called (if maxConcurrent <=? activeCount w then []
                                 else burst (queue w ++ [fn])) (push fn w))) /\
  (forall i fn o, awaiting w !! i = Some fn ->
     step (Settle i o) w
     = Some (inl tt, called (burst (queue w)) (release fn (log_rejection o (wake i w))))) /\
  (forall fn q', queue w = fn :: q' -> exists m, burst (queue w) = fn :: m) /\
  (forall o, exists os w',
     settles_with o os /\ run os w = Some w' /\
     queue w' = [] /\ awaiting w' = [] /\ activeCount w' = 0 /\
     Permutation (finished w') (submitted evs) /\
     Permutation (console w') (call_failures (submitted evs) ++ rejections (evs ++ os))) /\
  (forall dIdx pIdx err s,
     enrichment_task dIdx pIdx (FetchFailed err) s
     = (Resolved, {| plan := plan s; warnings := warnings s ++ [err] |})).
Proof.
  intros Hrun.
  destruct (run_spec _ _ _ new_RequestQueue_inv Hrun) as (Hinv & Hfifo).
  destruct (run_failures _ _ _ new_RequestQueue_inv Hrun)
    as (more & fin & Hst & Hfin & Hcon & Hthr).
  cbn [new_RequestQueue started finished console queue app] in Hst, Hfin, Hcon, Hfifo.
  split; [now rewrite Hst|].
  split; [rewrite Hst, Hfin; exact Hthr|].
  split; [apply (inv_count _ Hinv)|].
  split; [intros fn; apply add_called|].
  split; [intros i fn o Hi; apply settle_called; [apply (inv_cap _ Hinv) | exact Hi]|].
  split.
  { intros fn q' ->. cbn [burst]. destruct (throws fn); eauto. }
  split; [|intros dIdx pIdx err s; apply enrichment_task_failure].
  intros o.
  destruct (drain_with o (pending w) w Hinv (le_n _)) as (os & w' & Hos & Hrun' & Eq & Ea & Hz).
  exists os, w'. do 5 (split; [assumption|]).
  pose proof (run_app evs os _ _ Hrun) as Happ. rewrite Hrun' in Happ.
  destruct (run_spec _ _ _ new_RequestQueue_inv Happ) as ([_ _ Hacct' _] & Hfifo').
  destruct (run_failures _ _ _ new_RequestQueue_inv Happ)
    as (more' & fin' & Hst' & _ & Hcon' & _).
  cbn [new_RequestQueue started finished console queue app] in Hst', Hcon', Hfifo'.
  rewrite Eq, app_nil_r in Hfifo'. rewrite Ea, app_nil_r in Hacct'.
  rewrite submitted_app, (submitted_settles_with o os Hos), app_nil_r in Hfifo'.
  split.
  - rewrite <- Hfifo'. now symmetry.
  - rewrite <- Hfifo', Hst'. exact Hcon'.
Qed.

(** Two tasks run; a task that throws as it is called and a fourth task
    wait.  The first task rejects: its rejection is logged, the third task
    is called, caught and logged, and the fourth task is started. *)
Lemma C6_witness :
  step (Settle 0 (Rejected (js "boom")))
    (Build_World [failing_task 3 (js "bang"); sample_task 4] 2
       [sample_task 1; sample_task 2] [sample_task 1; sample_task 2] [] [])
  = Some (inl tt,
          Build_World [] 2 [sample_task 2; sample_task 4]
            [sample_task 1; sample_task 2; failing_task 3 (js "bang"); sample_task 4]
            [sample_task 1; failing_task 3 (js "bang")]
            [js "boom"; js "bang"]).
Proof.
  exact (proj1 (proj2 (proj2 (proj2 (proj2
           (C6_task_failure_is_isolated
              [Add (sample_task 1); Add (sample_task 2);
               Add (failing_task 3 (js "bang")); Add (sample_task 4)] _ eq_refl)))))
           0%nat (sample_task 1) (Rejected (js "boom")) eq_refl).
Defined.

(** ** Plan decoder *)

(** C7, as stated, fails: for a request of 3 days and the reply
    [{"title":"x"}], the plan returned has [durationDays] 3 and an empty
    [days] list. *)
Lemma C7_counterexample :
  exists plan,
    generateTravelPlan (sample_params 3) (js "1") reply_without_days = Ok plan /\
    g_durationDays plan = 3 /\
    g_days plan = JArray [] /\
    entries (g_days plan) <> Some (g_durationDays plan).
Proof.
  eexists. split; [vm_compute; reflexivity|].
  cbn. repeat split. discriminate.
Qed.

(** C7, amended. Every plan returned by [generateTravelPlan] has
    [durationDays] equal to the number of days that was requested, whatever
    the reply holds; its [days] is the [days] value of the reply when that
    value is truthy and the empty list otherwise, in particular when the
    reply has no [days] field.  The two agree exactly when the reply holds as
    many days as were requested. *)
Theorem C7_duration_is_the_requested_days
    (params : Params) (now text : jsstring) (plan : GeneratedPlan) :
  generateTravelPlan params now text = Ok plan ->
  g_durationDays plan = p_days params /\
  exists data d,
    extractJson text = Ok data /\
    get_property data (js "days") = Ok d /\
    g_days plan = js_or d (JArray []) /\
    (d = None -> g_days plan = JArray []) /\
    (entries (g_days plan) = Some (g_durationDays plan) <->
     entries (js_or d (JArray [])) = Some (p_days params)).
Proof.
  unfold generateTravelPlan. intros H.
  destruct (extractJson text) as [data|e]; [|discriminate].
  destruct (get_property data (js "title")) as [t|e]; [|discriminate].
  destruct (get_property data (js "days")) as [d|e] eqn:Hd; [|discriminate].
  injection H as <-. cbn [g_durationDays g_days].
  split; [reflexivity|]. exists data, d.
  split; [reflexivity|]. split; [assumption|]. split; [reflexivity|].
  split; [intros ->; reflexivity | reflexivity].
Qed.

(** The plan decoded from a reply without [days], for a request of 3 days. *)
Lemma C7_witness :
  g_durationDays
    {| g_id := js "1"; g_params := sample_params 3; g_startPoint := js "A";
       g_endPoint := js "B"; g_title := JString (js "x"); g_durationDays := 3;
       g_days := JArray []; g_mustVisit := None; g_avoid := None |} = 3.
Proof.
  apply (C7_duration_is_the_requested_days (sample_params 3) (js "1") reply_without_days).
  vm_compute. reflexivity.
Defined.

(** ** Comment removal *)

Lemma guarded_from_of_slashes (s : jsstring) : forall pc,
  (forall l1 l2, s = l1 ++ [c_slash; c_slash] ++ l2 ->
     (l1 = [] /\ pc = true) \/ exists l0, l1 = l0 ++ [c_colon]) ->
  guarded_from pc s = true.
Proof.
  induction s as [|c r IH]; intros pc H; cbn [guarded_from]; [reflexivity|].
  apply andb_true_iff. split.
  - destruct (N.eqb c c_slash) eqn:E1; [|reflexivity].
    destruct r as [|c2 r2]; [reflexivity|]. cbn [starts_with andb].
    destruct (chr_eqb c_slash c2) eqn:E2; [|reflexivity]. cbn [andb].
    apply N.eqb_eq in E1. apply N.eqb_eq in E2. subst c c2.
    destruct (H [] r2 eq_refl) as [[_ ->]|[l0 Hl0]]; [reflexivity|].
    destruct l0; discriminate.
  - apply IH. intros l1 l2 E.
    destruct (H (c :: l1) l2) as [[Hn _]|[l0 Hl0]].
    + cbn. now rewrite E.
    + discriminate.
    + destruct l0 as [|x l0].
      * cbn in Hl0. injection Hl0 as -> ->. left. split; [reflexivity|].
        reflexivity.
      * cbn in Hl0. injection Hl0 as -> ->. right. now exists l0.
Qed.

Lemma starts_with_2 (a b : jschar) (s : jsstring) :
  starts_with [a; b] s = true <-> exists r, s = a :: b :: r.
Proof.
  split.
  - destruct s as [|x [|y r]]; cbn; try discriminate.
    + rewrite andb_false_r. discriminate.
    + unfold chr_eqb. rewrite andb_true_r, andb_true_iff, !N.eqb_eq.
      intros [-> ->]. now exists r.
  - intros [r ->]. cbn. unfold chr_eqb. now rewrite !N.eqb_refl.
Qed.

(** No match of the comment pattern where every [//] follows a colon. *)
Lemma strip_comments_guarded (s : jsstring) : forall pc bol,
  guarded_from pc s = true ->
  (bol = true -> pc = false) ->
  strip_comments_from false bol s = s.
Proof.
  induction s as [|c r IH]; intros pc bol G Hb; [reflexivity|].
  cbn [guarded_from] in G. apply andb_true_iff in G. destruct G as [G1 G2].
  cbn [strip_comments_from andb].
  destruct (bol && N.eqb c c_slash && starts_with [c_slash] r) eqn:A1.
  { apply andb_true_iff in A1. destruct A1 as [A1 A3].
    apply andb_true_iff in A1. destruct A1 as [A1 A2].
    rewrite A2, A3 in G1. cbn in G1. rewrite (Hb A1) in G1. discriminate. }
  destruct (negb (N.eqb c c_colon) && starts_with [c_slash; c_slash] r) eqn:A2.
  { apply andb_true_iff in A2. destruct A2 as [A2 A3].
    apply starts_with_2 in A3. destruct A3 as [r2 ->].
    cbn [guarded_from] in G2. apply andb_true_iff in G2. destruct G2 as [G2 _].
    cbn in G2. apply negb_true_iff in A2. rewrite A2 in G2. discriminate. }
  f_equal. apply (IH (N.eqb c c_colon)); [assumption|].
  intros Hlt. unfold is_line_terminator in Hlt.
  destruct (N.eqb c c_colon) eqn:E; [|reflexivity].
  apply N.eqb_eq in E. subst c. discriminate.
Qed.

(** Inside a match: up to the next line terminator, nothing is kept. *)
Lemma strip_comments_skip (body tail : jsstring) (b : bool) :
  forallb (fun x => negb (is_line_terminator x)) body = true ->
  strip_comments_from true b (body ++ tail) = strip_comments_from true false tail.
Proof.
  revert b. induction body as [|x body IH]; intros b H.
  - cbn [app]. destruct tail as [|t r]; [reflexivity|].
    cbn [strip_comments_from]. destruct (is_line_terminator t) eqn:Ht; [|reflexivity].
    cbn [andb negb].
    assert (N.eqb t c_slash = false) as ->.
    { unfold is_line_terminator in Ht. apply N.eqb_neq. intros ->. discriminate. }
    now rewrite andb_false_r.
  - cbn in H. apply andb_true_iff in H. destruct H as [Hx H].
    cbn [app strip_comments_from]. rewrite Hx. cbn [andb]. now apply IH.
Qed.

Lemma strip_comments_at_terminator (tail : jsstring) :
  (tail = [] \/ exists t r, tail = t :: r /\ is_line_terminator t = true) ->
  strip_comments_from true false tail = strip_comments tail.
Proof.
  intros [->|(t & r & -> & Ht)]; [reflexivity|].
  unfold strip_comments. cbn [strip_comments_from]. rewrite Ht. cbn [andb negb].
  assert (N.eqb t c_slash = false) as ->.
  { unfold is_line_terminator in Ht. apply N.eqb_neq. intros ->. discriminate. }
  reflexivity.
Qed.

(** Up to a [//] that follows a character other than a colon or a slash,
    where every earlier [//] follows a colon, nothing is removed; from there
    on the line is dropped. *)
Lemma strip_comments_first_match (pre : jsstring) (c : jschar) (rest : jsstring) :
  forall pc bol,
  guarded_from pc (pre ++ [c]) = true ->
  (bol = true -> pc = false) ->
  N.eqb c c_colon = false -> N.eqb c c_slash = false ->
  strip_comments_from false bol (pre ++ c :: c_slash :: c_slash :: rest)
  = pre ++ c :: strip_comments_from true false (c_slash :: c_slash :: rest).
Proof.
  induction pre as [|x pre IH]; intros pc bol G Hb Hc Hs.
  - cbn [app strip_comments_from andb]. rewrite Hs, andb_false_r. cbn [andb].
    rewrite Hc. cbn [negb]. cbn [starts_with]. unfold chr_eqb. rewrite N.eqb_refl.
    cbn [andb]. reflexivity.
  - cbn [app guarded_from] in G. apply andb_true_iff in G. destruct G as [G1 G2].
    cbn [app strip_comments_from andb].
    assert (S1 : starts_with [c_slash] (pre ++ c :: c_slash :: c_slash :: rest)
                 = starts_with [c_slash] (pre ++ [c])).
    { destruct pre; reflexivity. }
    assert (S2 : starts_with [c_slash; c_slash] (pre ++ c :: c_slash :: c_slash :: rest)
                 = true -> exists r2, pre ++ [c] = c_slash :: c_slash :: r2).
    { intros H. apply starts_with_2 in H. destruct H as [r2 H].
      destruct pre as [|y [|z pre]]; cbn in H.
      - injection H as -> _. discriminate.
      - injection H as -> -> _. discriminate.
      - injection H as -> -> _. cbn. eauto. }
    rewrite S1.
    destruct (bol && N.eqb x c_slash && starts_with [c_slash] (pre ++ [c])) eqn:A1.
    { apply andb_true_iff in A1. destruct A1 as [A1 A3].
      apply andb_true_iff in A1. destruct A1 as [A1 A2].
      rewrite A2, A3 in G1. cbn in G1. rewrite (Hb A1) in G1. discriminate. }
    destruct (negb (N.eqb x c_colon)
              && starts_with [c_slash; c_slash] (pre ++ c :: c_slash :: c_slash :: rest))
      eqn:A2.
    { apply andb_true_iff in A2. destruct A2 as [A2 A3].
      destruct (S2 A3) as [r2 E]. rewrite E in G2.
      cbn [guarded_from] in G2. apply andb_true_iff in G2. destruct G2 as [G2 _].
      cbn in G2. apply negb_true_iff in A2. rewrite A2 in G2. discriminate. }
    f_equal. apply (IH (N.eqb x c_colon)); try assumption.
    intros Hlt. unfold is_line_terminator in Hlt.
    destruct (N.eqb x c_colon) eqn:E; [|reflexivity].
    apply N.eqb_eq in E. subst x. discriminate.
Qed.

Lemma starts_with_app (p s : jsstring) : starts_with p (p ++ s) = true.
Proof.
  induction p as [|a p IH]; [reflexivity|].
  cbn. unfold chr_eqb. now rewrite N.eqb_refl, IH.
Qed.

Lemma includes_infix (l1 p l2 : jsstring) : includes (l1 ++ p ++ l2) p = true.
Proof.
  induction l1 as [|a l1 IH].
  - cbn [app]. destruct (p ++ l2) eqn:E; cbn [includes];
      rewrite <- E, starts_with_app; reflexivity.
  - cbn [app includes]. rewrite IH. apply orb_true_r.
Qed.

Lemma slashes_of_guarded_from (l1 : jsstring) : forall s pc l2,
  guarded_from pc s = true ->
  s = l1 ++ [c_slash; c_slash] ++ l2 ->
  (l1 = [] /\ pc = true) \/ exists l0, l1 = l0 ++ [c_colon].
Proof.
  induction l1 as [|a l1 IH]; intros s pc l2 G E; subst s.
  - left. split; [reflexivity|].
    cbn in G. apply andb_true_iff in G. now destruct G.
  - right. cbn [app guarded_from] in G. apply andb_true_iff in G. destruct G as [_ G].
    destruct (IH _ _ l2 G eq_refl) as [[-> Ha]|[l0 ->]].
    + apply N.eqb_eq in Ha. subst a. now exists [].
    + now exists (a :: l0).
Qed.

(** The check from left to right decides [slashes_guarded]. *)
Lemma slashes_guarded_by_check (s : jsstring) :
  guarded_from false s = true -> slashes_guarded s.
Proof.
  intros G l1 l2 E.
  destruct (slashes_of_guarded_from l1 s false l2 G E) as [[_ H]|H];
    [discriminate | exact H].
Qed.




(** ** The automaton of [JSON.parse] *)

Lemma feed_app (s1 s2 : jsstring) : forall st,
  feed st (s1 ++ s2) = match feed st s1 with Some st1 => feed st1 s2 | None => None end.
Proof.
  induction s1 as [|c s1 IH]; intros st; cbn [app feed]; [reflexivity|].
  destruct (pstep st c); [apply IH|reflexivity].
Qed.

Lemma js_space_cases (c : jschar) : is_js_space c = true -> In c js_spaces.
Proof.
  unfold is_js_space. intros H.
  repeat (apply orb_true_iff in H; destruct H as [H|H]);
    try (apply N.eqb_eq in H; subst c; cbn; tauto).
  apply andb_true_iff in H. destruct H as [H1 H2].
  apply N.leb_le in H1. apply N.leb_le in H2.
  assert (c = 8192 \/ c = 8193 \/ c = 8194 \/ c = 8195 \/ c = 8196 \/ c = 8197 \/
          c = 8198 \/ c = 8199 \/ c = 8200 \/ c = 8201 \/ c = 8202)%N as E by lia.
  decompose [or] E; subst c; cbn; tauto.
Qed.

Ltac each_space H :=
  apply js_space_cases in H; cbn [In js_spaces] in H;
  repeat (destruct H as [H|H]; [subst|]); [..|contradiction].

Lemma place_wf (v : JValue) (stk : list frame) (st : pstate) :
  forallb awaits_value (tl stk) = true -> value_ctx stk = true ->
  place v stk = Some st -> wf st = true.
Proof.
  unfold place, wf. intros Ht Hv H.
  destruct stk as [|[es|ms [k|]] stk']; try discriminate;
    injection H as <-; cbn in *; try assumption; now rewrite ?Ht.
Qed.

Lemma all_await (stk : list frame) :
  forallb awaits_value stk = true <->
  forallb awaits_value (tl stk) = true /\ value_ctx stk = true.
Proof.
  destruct stk as [|f stk]; cbn; [tauto|].
  rewrite andb_true_iff. tauto.
Qed.

Lemma place_wf_all (v : JValue) (stk : list frame) (st : pstate) :
  forallb awaits_value stk = true -> place v stk = Some st -> wf st = true.
Proof.
  intros H. apply all_await in H. destruct H. now apply place_wf.
Qed.

Ltac break_if_hyp H :=
  match type of H with
  | context [if ?b then _ else _] => destruct b eqn:?
  end.

Ltac wf_goal V :=
  unfold wf; cbn [pmode stack tl mode_ok]; apply andb_true_iff; split;
  [ first [assumption | reflexivity]
  | first [assumption | reflexivity | rewrite V; reflexivity] ].

Lemma follow_wf (st st' : pstate) (c : jschar) :
  wf st = true -> follow st c = Some st' -> wf st' = true.
Proof.
  destruct st as [stk m]. unfold follow, wf. cbn [pmode stack].
  intros W H. destruct m; try discriminate.
  - (* MAfter *)
    unfold after_step in H. apply andb_true_iff in W. destruct W as [W1 W2].
    destruct (is_json_ws c); [injection H as <-; cbn [pmode stack]; now rewrite W1, W2|].
    destruct (N.eqb c c_comma).
    { destruct stk as [|[es|ms [k|]] stk']; try discriminate H; injection H as <-;
        cbn in *; now rewrite W1. }
    destruct (N.eqb c c_rbracket).
    { destruct stk as [|[es|ms k] stk']; try discriminate H.
      apply (place_wf_all _ _ _ W1 H). }
    destruct (N.eqb c c_rbrace); [|discriminate].
    destruct stk as [|[es|ms [k|]] stk']; try discriminate H.
    apply (place_wf_all _ _ _ W1 H).
  - (* MDone *)
    unfold done_step in H. destruct (is_json_ws c); [|discriminate].
    injection H as <-. reflexivity.
Qed.

Lemma pstep_wf (st st' : pstate) (c : jschar) :
  wf st = true -> pstep st c = Some st' -> wf st' = true.
Proof.
  intros W H. destruct st as [stk m].
  destruct m as [first|first| | |v|k acc esc|ph a|rest v].
  - (* MValue *)
    unfold wf in W. cbn [pmode stack] in W.
    apply andb_true_iff in W. destruct W as [W1 W2].
    assert (V : value_ctx stk = true).
    { destruct first; [|assumption]. destruct stk as [|[[|]|] ?]; easy. }
    assert (A : forallb awaits_value stk = true) by (apply all_await; now split).
    unfold pstep, value_step in H. cbn [pmode stack] in H.
    repeat (break_if_hyp H; [try (injection H as <-; wf_goal V)|]).
    all: try discriminate.
    match goal with E : _ && first = true |- _ =>
      apply andb_true_iff in E; destruct E as [_ ->] end.
    destruct stk as [|[es|] stk']; try discriminate H.
    apply (place_wf_all _ _ _ W1 H).
  - (* MKey *)
    unfold wf in W. cbn [pmode stack] in W.
    apply andb_true_iff in W. destruct W as [W1 W2].
    assert (K : key_ctx stk = true).
    { destruct first; [|assumption]. destruct stk as [|[|[|] [|]] ?]; easy. }
    unfold pstep, key_step in H. cbn [pmode stack] in H.
    repeat (break_if_hyp H; [try (injection H as <-; wf_goal K)|]).
    all: try discriminate.
    destruct stk as [|[|ms [|]] stk']; try discriminate H.
    apply (place_wf_all _ _ _ W1 H).
  - (* MColon *)
    unfold wf in W. cbn [pmode stack] in W.
    apply andb_true_iff in W. destruct W as [W1 W2].
    unfold pstep in H. cbn [pmode stack] in H.
    destruct (is_json_ws c).
    { injection H as <-. unfold wf. cbn [pmode stack]. now rewrite W1, W2. }
    destruct (N.eqb c c_colon); [|discriminate].
    injection H as <-. unfold wf. cbn [pmode stack mode_ok]. rewrite W1.
    destruct stk as [|[|ms [|]] stk']; easy.
  - (* MAfter *)
    apply (follow_wf {| stack := stk; pmode := MAfter |} st' c W H).
  - (* MDone *)
    apply (follow_wf {| stack := stk; pmode := MDone v |} st' c W H).
  - (* MStr *)
    unfold wf in W. cbn [pmode stack] in W.
    apply andb_true_iff in W. destruct W as [W1 W2].
    unfold pstep, str_step in H. cbn [pmode stack] in H.
    destruct esc as [| |ds].
    + destruct (N.eqb c c_quote).
      { unfold end_string in H. destruct k.
        - destruct stk as [|[|ms [|]] stk']; try discriminate H.
          injection H as <-. unfold wf. cbn. cbn in W1. now rewrite W1.
        - apply (place_wf _ _ _ W1 W2 H). }
      repeat (break_if_hyp H; [try (injection H as <-; unfold wf; cbn [pmode stack mode_ok];
                                    rewrite W1; exact W2)|]).
      all: try discriminate.
      injection H as <-. unfold wf; cbn [pmode stack mode_ok]. rewrite W1; exact W2.
    + destruct (N.eqb c 117).
      { injection H as <-. unfold wf; cbn [pmode stack mode_ok]. rewrite W1; exact W2. }
      destruct (simple_escape c); [|discriminate].
      injection H as <-. unfold wf; cbn [pmode stack mode_ok]. rewrite W1; exact W2.
    + destruct (hex_val c); [|discriminate].
      destruct (Nat.eqb _ 4); injection H as <-;
        unfold wf; cbn [pmode stack mode_ok]; rewrite W1; exact W2.
  - (* MNum *)
    unfold wf in W. cbn [pmode stack] in W.
    apply andb_true_iff in W. destruct W as [W1 W2].
    unfold pstep in H. cbn [pmode stack] in H.
    destruct (num_step ph a c) as [[ph' a']|].
    { injection H as <-. unfold wf; cbn [pmode stack mode_ok]. rewrite W1; exact W2. }
    destruct (num_accepting ph); [|discriminate].
    destruct (place (JNumber (num_value a)) stk) as [st1|] eqn:P; [|discriminate].
    apply (follow_wf st1 st' c); [|assumption].
    apply (place_wf _ _ _ W1 W2 P).
  - (* MLit *)
    unfold wf in W. cbn [pmode stack] in W.
    apply andb_true_iff in W. destruct W as [W1 W2].
    cbn [mode_ok] in W2. apply andb_true_iff in W2. destruct W2 as [W2 W4].
    apply andb_true_iff in W2. destruct W2 as [W2 W3].
    unfold pstep in H. cbn [pmode stack] in H.
    destruct rest as [|x rest']; [discriminate|].
    destruct (N.eqb c x); [|discriminate].
    destruct rest' as [|y rest''].
    + apply (place_wf _ _ _ W1 W2 H).
    + injection H as <-. unfold wf; cbn [pmode stack mode_ok]. rewrite W1, W2.
      change (forallb is_lower (x :: y :: rest''))
        with (is_lower x && forallb is_lower (y :: rest'')) in W3.
      apply andb_true_iff in W3. destruct W3 as [_ W3].
      rewrite W3. reflexivity.
Qed.

Lemma feed_wf (s : jsstring) : forall st st',
  wf st = true -> feed st s = Some st' -> wf st' = true.
Proof.
  induction s as [|c s IH]; intros st st' W H; cbn [feed] in H.
  - now injection H as <-.
  - destruct (pstep st c) as [st1|] eqn:P; [|discriminate].
    apply (IH st1); [|assumption]. apply (pstep_wf _ _ _ W P).
Qed.

(** *** White space and the automaton *)

Lemma value_step_space (first : bool) (stk : list frame) (c : jschar) :
  is_js_space c = true ->
  value_step first stk c =
  if is_json_ws c then Some {| stack := stk; pmode := MValue first |} else None.
Proof. intros H. each_space H; reflexivity. Qed.

Lemma key_step_space (first : bool) (stk : list frame) (c : jschar) :
  is_js_space c = true ->
  key_step first stk c =
  if is_json_ws c then Some {| stack := stk; pmode := MKey first |} else None.
Proof. intros H. each_space H; reflexivity. Qed.

Lemma after_step_space (stk : list frame) (c : jschar) :
  is_js_space c = true ->
  after_step stk c =
  if is_json_ws c then Some {| stack := stk; pmode := MAfter |} else None.
Proof. intros H. each_space H; reflexivity. Qed.

Lemma colon_space (c : jschar) : is_js_space c = true -> N.eqb c c_colon = false.
Proof. intros H. each_space H; reflexivity. Qed.

Lemma str_step_space (k : bool) (acc : jsstring) (esc : escstate)
    (stk : list frame) (c : jschar) :
  is_js_space c = true ->
  str_step k acc esc stk c =
  match esc with
  | ENone =>
      if N.ltb c 32 then None
      else Some {| stack := stk; pmode := MStr k (c :: acc) ENone |}
  | _ => None
  end.
Proof. intros H. each_space H; destruct esc; reflexivity. Qed.

Lemma num_step_space (ph : numphase) (a : numacc) (c : jschar) :
  is_js_space c = true -> num_step ph a c = None.
Proof. intros H. each_space H; destruct ph; reflexivity. Qed.

Lemma lower_not_space (c : jschar) : is_js_space c = true -> is_lower c = false.
Proof. intros H. each_space H; reflexivity. Qed.

(** A white space character never completes the text: if the text is
    complete after it, it was complete before it. *)
Lemma pstep_space_finish (st st' : pstate) (c : jschar) (v : JValue) :
  wf st = true -> is_js_space c = true ->
  pstep st c = Some st' -> finish st' = Some v -> finish st = Some v.
Proof.
  intros W Hc H F. destruct st as [stk m].
  unfold pstep in H. cbn [pmode stack] in H.
  destruct m as [first|first| | |v0|k acc esc|ph a|rest v0].
  - rewrite value_step_space in H by assumption.
    destruct (is_json_ws c); [injection H as <-|]; discriminate.
  - rewrite key_step_space in H by assumption.
    destruct (is_json_ws c); [injection H as <-|]; discriminate.
  - rewrite colon_space in H by assumption.
    destruct (is_json_ws c); [injection H as <-|]; discriminate.
  - rewrite after_step_space in H by assumption.
    destruct (is_json_ws c); [injection H as <-|]; discriminate.
  - unfold done_step in H. destruct (is_json_ws c); [|discriminate].
    injection H as <-. cbn in F. injection F as <-.
    unfold wf in W. cbn in W. apply andb_true_iff in W. destruct W as [_ W].
    destruct stk; [reflexivity|discriminate].
  - rewrite str_step_space in H by assumption.
    destruct esc; try discriminate.
    destruct (N.ltb c 32); [discriminate|]. injection H as <-. discriminate.
  - rewrite num_step_space in H by assumption.
    destruct (num_accepting ph) eqn:A; [|discriminate].
    destruct stk as [|[es|ms [k|]] stk']; cbn [place] in H; try discriminate.
    + unfold follow, done_step in H. cbn [pmode] in H.
      destruct (is_json_ws c); [|discriminate].
      injection H as <-. cbn in F. injection F as <-. cbn. now rewrite A.
    + unfold follow in H. cbn [pmode stack] in H.
      rewrite after_step_space in H by assumption.
      destruct (is_json_ws c); [injection H as <-|]; discriminate.
    + unfold follow in H. cbn [pmode stack] in H.
      rewrite after_step_space in H by assumption.
      destruct (is_json_ws c); [injection H as <-|]; discriminate.
  - destruct rest as [|x rest']; [discriminate|].
    destruct (N.eqb c x) eqn:E; [|discriminate].
    apply N.eqb_eq in E. subst x.
    unfold wf in W. cbn in W. rewrite (lower_not_space c Hc) in W.
    rewrite !andb_false_r in W. discriminate.
Qed.

Lemma feed_trailing_spaces (t : jsstring) : forall st st' v,
  wf st = true -> forallb is_js_space t = true ->
  feed st t = Some st' -> finish st' = Some v -> finish st = Some v.
Proof.
  induction t as [|c t IH]; intros st st' v W Ht H F; cbn [feed] in H.
  - now injection H as <-.
  - cbn [forallb] in Ht. apply andb_true_iff in Ht. destruct Ht as [Hc Ht].
    destruct (pstep st c) as [st1|] eqn:P; [|discriminate].
    apply (pstep_space_finish st st1 c v W Hc P).
    apply (IH st1 st'); try assumption. apply (pstep_wf _ _ _ W P).
Qed.

Lemma feed_leading_spaces (l s : jsstring) (st : pstate) :
  forallb is_js_space l = true ->
  feed pstart (l ++ s) = Some st -> feed pstart s = Some st.
Proof.
  induction l as [|c l IH]; intros Hl H; [assumption|].
  cbn [forallb] in Hl. apply andb_true_iff in Hl. destruct Hl as [Hc Hl].
  cbn [app feed] in H. unfold pstep, pstart in H. cbn [pmode stack] in H.
  rewrite value_step_space in H by assumption.
  destruct (is_json_ws c); [|discriminate]. now apply IH.
Qed.

Lemma drop_spaces_split (s : jsstring) :
  exists l, s = l ++ drop_spaces s /\ forallb is_js_space l = true.
Proof.
  induction s as [|c s (l & E & Hl)]; [now exists []|].
  cbn [drop_spaces]. destruct (is_js_space c) eqn:Hc.
  - exists (c :: l). cbn. now rewrite Hc, Hl, <- E.
  - now exists [].
Qed.

(** The text, its white space at both ends apart. *)
Lemma trim_split (s : jsstring) :
  exists l r, s = l ++ trim s ++ r /\
              forallb is_js_space l = true /\ forallb is_js_space r = true.
Proof.
  destruct (drop_spaces_split s) as (l & E & Hl).
  destruct (drop_spaces_split (rev (drop_spaces s))) as (r & E' & Hr).
  exists l, (rev r). unfold trim. split; [|split; [assumption|]].
  - rewrite <- rev_app_distr, <- E', rev_involutive. exact E.
  - rewrite forallb_forall in *. intros x Hx. apply Hr. now apply in_rev.
Qed.

(** [trim] does not change what [JSON.parse] returns for a text it
    accepts. *)
Lemma JSON_parse_trim (text : jsstring) (v : JValue) :
  JSON_parse text = Some v -> JSON_parse (trim text) = Some v.
Proof.
  unfold JSON_parse. intros H.
  destruct (trim_split text) as (l & r & E & Hl & Hr).
  rewrite E in H.
  destruct (feed pstart (l ++ trim text ++ r)) as [st|] eqn:F; [|discriminate].
  apply feed_leading_spaces in F; [|assumption].
  rewrite feed_app in F.
  destruct (feed pstart (trim text)) as [st1|] eqn:F1; [|discriminate].
  apply (feed_trailing_spaces r st1 st v); try assumption.
  apply (feed_wf (trim text) pstart st1 eq_refl F1).
Qed.

(** ** The cleaning steps on a text they have nothing to remove from *)

Lemma starts_with_skipn (p s : jsstring) :
  starts_with p s = true -> s = p ++ skipn (length p) s.
Proof.
  revert s. induction p as [|a p IH]; intros s H; [reflexivity|].
  destruct s as [|b s]; [discriminate|]. cbn in H.
  apply andb_true_iff in H. destruct H as [E H]. apply N.eqb_eq in E. subst b.
  cbn. f_equal. now apply IH.
Qed.

Lemma after_first_Some (p s r : jsstring) :
  after_first p s = Some r -> exists l1, s = l1 ++ p ++ r.
Proof.
  induction s as [|c s IH]; cbn [after_first].
  - destruct (starts_with p []) eqn:E; [|discriminate].
    intros [= <-]. exists []. now apply starts_with_skipn.
  - destruct (starts_with p (c :: s)) eqn:E.
    + intros [= <-]. exists []. now apply starts_with_skipn.
    + intros H. destruct (IH H) as [l1 ->]. now exists (c :: l1).
Qed.

Lemma codeBlockMatch_no_fence (s : jsstring) : no_fence s -> codeBlockMatch s = None.
Proof.
  intros H. unfold codeBlockMatch.
  destruct (after_first fence s) as [r|] eqn:E; [|reflexivity].
  destruct (after_first_Some _ _ _ E) as [l1 E']. now destruct (H l1 r).
Qed.

Lemma no_fence_infix (l s r : jsstring) : no_fence (l ++ s ++ r) -> no_fence s.
Proof.
  intros H l1 l2 E. apply (H (l ++ l1) (l2 ++ r)).
  rewrite E, <- !app_assoc. reflexivity.
Qed.

Lemma slashes_guarded_infix (l s r : jsstring) :
  forallb is_js_space l = true ->
  slashes_guarded (l ++ s ++ r) -> slashes_guarded s.
Proof.
  intros Hl H l1 l2 E.
  destruct (H (l ++ l1) (l2 ++ r)) as [l0 E0].
  { rewrite E, <- !app_assoc. reflexivity. }
  destruct (exists_last (l := l1)) as (l1' & x & ->).
  - intros ->. rewrite app_nil_r in E0. subst l.
    rewrite forallb_app in Hl. apply andb_true_iff in Hl. destruct Hl as [_ Hl].
    discriminate.
  - rewrite app_assoc in E0. apply app_inj_tail in E0. destruct E0 as [_ ->].
    now exists l1'.
Qed.

Lemma from_first_open_None (s : jsstring) :
  from_first_open s = None <-> forallb (fun c => negb (is_open c)) s = true.
Proof.
  induction s as [|c s IH]; cbn; [tauto|].
  destruct (is_open c); cbn; [split; discriminate | exact IH].
Qed.

Lemma drop_spaces_snoc (x : jsstring) (c : jschar) :
  is_js_space c = false -> drop_spaces (x ++ [c]) = drop_spaces x ++ [c].
Proof.
  intros Hc. induction x as [|a x IH]; cbn.
  - now rewrite Hc.
  - destruct (is_js_space a); [exact IH | reflexivity].
Qed.

Lemma open_not_space (c : jschar) : is_open c = true -> is_js_space c = false.
Proof.
  unfold is_open. intros H. apply orb_true_iff in H.
  destruct H as [H|H]; apply N.eqb_eq in H; subst c; reflexivity.
Qed.

Lemma trim_opens_first (s : jsstring) :
  opens_first s ->
  from_first_open (trim s) = None \/ from_first_open (trim s) = Some (trim s).
Proof.
  intros [H|(c & r & E & Hc)].
  - left. destruct (trim_split s) as (l & t & E & _).
    apply from_first_open_None. apply from_first_open_None in H.
    rewrite E, !forallb_app in H.
    apply andb_true_iff in H. destruct H as [_ H].
    apply andb_true_iff in H. now destruct H.
  - right. unfold trim. rewrite E. cbn [rev].
    rewrite drop_spaces_snoc by now apply open_not_space.
    rewrite rev_app_distr. cbn. now rewrite Hc.
Qed.

Lemma clean_wellformed (text : jsstring) :
  no_fence text -> slashes_guarded text -> opens_first text ->
  clean text = trim text.
Proof.
  intros Hf Hs Ho. unfold clean.
  destruct (trim_split text) as (l & r & E & Hl & Hr).
  rewrite codeBlockMatch_no_fence.
  2:{ apply (no_fence_infix l _ r). now rewrite <- E. }
  assert (Hc : strip_comments (trim text) = trim text).
  { unfold strip_comments.
    apply (strip_comments_guarded _ false true); [|reflexivity].
    apply guarded_from_of_slashes. intros l1 l2 E1. right.
    refine (slashes_guarded_infix l (trim text) r Hl _ l1 l2 E1). now rewrite <- E. }
  rewrite Hc.
  destruct (trim_opens_first text Ho) as [-> | ->]; reflexivity.
Qed.

(** The conditions under which the cleaning steps leave a text as it
    is. *)
Lemma clean_unchanged (text : jsstring) :
  no_fence text -> slashes_guarded text -> opens_first text -> trim text = text ->
  clean text = text.
Proof. intros Hf Hs Ho Ht. now rewrite clean_wellformed. Qed.

(** C2, as stated, fails: [{"a":"```b```"}] is a valid document, and
    [extractJson] takes the text between the fences inside its string for
    the reply, cannot decode it and throws. *)
Lemma C2_counterexample :
  JSON_parse text_with_fence
    = Some (JObject [(js "a", JString (js "```b```"))]) /\
  extractJson text_with_fence = Throw UnrecoverableFormat /\
  JSON_parse text_with_slashes
    = Some (JObject [(js "a", JString (js "x//y"))]) /\
  extractJson text_with_slashes = Ok (JObject [(js "a", JString (js "x"))]).
Proof. repeat split. Qed.

(** C2, amended. For every valid JSON text that holds no fence, in which
    every [//] comes right after a colon, and whose first character other
    than white space is an opening brace or bracket (or that has neither
    brace nor bracket at all), [extractJson] returns exactly what
    [JSON.parse] returns for the text: on such a text the cleaning steps
    remove only the white space at both ends and the repair is not
    reached. *)
Theorem C2_wellformed_text_is_decoded (text : jsstring) (v : JValue) :
  JSON_parse text = Some v ->
  no_fence text -> slashes_guarded text -> opens_first text ->
  extractJson text = Ok v /\ clean text = trim text.
Proof.
  intros Hp Hf Hs Ho.
  pose proof (clean_wellformed text Hf Hs Ho) as Hc.
  split; [|exact Hc].
  unfold extractJson, parse_or_repair.
  rewrite Hc, (JSON_parse_trim text v Hp). reflexivity.
Qed.

Lemma no_infix_by_includes (s p : jsstring) :
  includes s p = false -> forall l1 l2, s <> l1 ++ p ++ l2.
Proof.
  intros H l1 l2 E. rewrite E, includes_infix in H. discriminate.
Qed.

(** A document with white space around it and a URL in a string. *)
Lemma C2_witness :
  extractJson spaced_doc
  = Ok (JObject [(js "a",
           JArray [JNumber {| dneg := false; dmant := 1; dexp := 0 |};
                   JString (js "http://x")])]).
Proof.
  apply (C2_wellformed_text_is_decoded spaced_doc).
  - reflexivity.
  - exact (no_infix_by_includes spaced_doc fence eq_refl).
  - apply slashes_guarded_by_check. reflexivity.
  - right. exists c_lbrace, (jq "'a':[1,'http://x']} "). split; reflexivity.
Defined.

(** ** The repair scan follows the automaton *)

Lemma scan_char_inert (sc : scan_state) (c : jschar) :
  isEscaped sc = false -> inString sc = false -> scan_inert c = true ->
  scan_char sc c = sc.
Proof.
  destruct sc as [cl inS esc]. cbn. intros -> -> H.
  unfold scan_inert, is_open, is_closer in H.
  repeat (apply andb_true_iff in H; destruct H as [H ?]).
  repeat match goal with
         | X : negb _ = true |- _ => apply negb_true_iff in X
         | X : _ || _ = false |- _ => apply orb_false_iff in X; destruct X
         end.
  unfold scan_char. cbn [isEscaped inString closers].
  repeat match goal with X : N.eqb c _ = false |- _ => rewrite X; clear X end.
  reflexivity.
Qed.

Lemma inert_ws (c : jschar) : is_json_ws c = true -> scan_inert c = true.
Proof.
  unfold is_json_ws. intros H.
  repeat (apply orb_true_iff in H; destruct H as [H|H]);
    apply N.eqb_eq in H; subst c; reflexivity.
Qed.

Lemma inert_digit (c : jschar) : is_digit c = true -> scan_inert c = true.
Proof.
  unfold is_digit. intros H. apply andb_true_iff in H. destruct H as [H1 H2].
  apply N.leb_le in H1. apply N.leb_le in H2.
  unfold scan_inert, is_open, is_closer, c_backslash, c_quote, c_lbrace, c_lbracket,
    c_rbrace, c_rbracket.
  repeat match goal with
         | |- context [N.eqb c ?k] => destruct (N.eqb_spec c k); [lia|]
         end.
  reflexivity.
Qed.

Lemma inert_lower (c : jschar) : is_lower c = true -> scan_inert c = true.
Proof.
  unfold is_lower. intros H. apply andb_true_iff in H. destruct H as [H1 H2].
  apply N.leb_le in H1. apply N.leb_le in H2.
  unfold scan_inert, is_open, is_closer, c_backslash, c_quote, c_lbrace, c_lbracket,
    c_rbrace, c_rbracket.
  repeat match goal with
         | |- context [N.eqb c ?k] => destruct (N.eqb_spec c k); [lia|]
         end.
  reflexivity.
Qed.

Lemma inert_num (ph : numphase) (a : numacc) (c : jschar) (r : numphase * numacc) :
  num_step ph a c = Some r -> scan_inert c = true.
Proof.
  unfold num_step, is_exp_mark. intros H.
  destruct ph;
    repeat match type of H with
           | context [if is_digit c then _ else _] =>
               destruct (is_digit c) eqn:D; [now apply inert_digit|]
           | context [if N.eqb c ?k then _ else _] =>
               destruct (N.eqb_spec c k); [subst c; reflexivity|]
           | context [if N.eqb c ?k || N.eqb c ?k' then _ else _] =>
               destruct (N.eqb_spec c k); [subst c; reflexivity|];
               destruct (N.eqb_spec c k'); [subst c; reflexivity|]; cbn [orb] in H
           end; discriminate.
Qed.

Create HintDb scan.
#[local] Hint Resolve inert_ws inert_digit inert_lower : scan.

Lemma place_agrees (v : JValue) (stk : list frame) (st : pstate) :
  place v stk = Some st ->
  map closer_of (stack st) = map closer_of stk /\
  in_string (pmode st) = false /\ after_backslash (pmode st) = false /\
  (pmode st = MAfter \/ exists v', pmode st = MDone v').
Proof.
  unfold place. intros H.
  destruct stk as [|[es|ms [k|]] stk']; try discriminate H; injection H as <-; cbn; eauto 6.
Qed.

Lemma agrees_same (sc : scan_state) (stk : list frame) (m m' : mode) :
  in_string m = false -> in_string m' = false ->
  scan_agrees sc {| stack := stk; pmode := m |} ->
  scan_agrees sc {| stack := stk; pmode := m' |}.
Proof.
  unfold scan_agrees. cbn. intros Hm Hm' (H1 & H2 & H3).
  destruct m; try discriminate; destruct m'; try discriminate; cbn in *; auto.
Qed.

(** The scan at a closer that the automaton accepts: the innermost frame
    is popped. *)
Lemma scan_char_pop (sc : scan_state) (f : frame) (stk : list frame) (c : jschar) :
  closers sc = closer_of f :: map closer_of stk ->
  inString sc = false -> isEscaped sc = false ->
  c = closer_of f ->
  scan_char sc c = {| closers := map closer_of stk; inString := false; isEscaped := false |}.
Proof.
  destruct sc as [cl inS esc]. cbn. intros -> -> -> ->.
  unfold scan_char. cbn [isEscaped inString closers].
  destruct f; reflexivity.
Qed.

Lemma follow_agrees (sc : scan_state) (st st' : pstate) (c : jschar) :
  wf st = true ->
  scan_agrees sc st -> follow st c = Some st' -> scan_agrees (scan_char sc c) st'.
Proof.
  destruct st as [stk m]. unfold follow. cbn [pmode stack]. intros Wf A H.
  pose proof A as (A1 & A2 & A3). cbn [pmode stack] in A1, A2, A3.
  destruct m; try discriminate.
  - unfold after_step in H.
    destruct (is_json_ws c) eqn:W.
    { injection H as <-. rewrite scan_char_inert; auto with scan. }
    destruct (N.eqb_spec c c_comma) as [->|_].
    { rewrite scan_char_inert by (auto; reflexivity).
      destruct stk as [|[es|ms [k|]] stk']; try discriminate H; injection H as <-;
        eapply agrees_same; try exact A; reflexivity. }
    destruct (N.eqb_spec c c_rbracket) as [->|_].
    { destruct stk as [|[es|ms k] stk']; try discriminate H.
      destruct (place_agrees _ _ _ H) as (P1 & P2 & P3 & _).
      rewrite (scan_char_pop sc (FArr es) stk') by auto.
      unfold scan_agrees. cbn. now rewrite P1, P2, P3. }
    destruct (N.eqb_spec c c_rbrace) as [->|_]; [|discriminate].
    destruct stk as [|[es|ms [k|]] stk']; try discriminate H.
    destruct (place_agrees _ _ _ H) as (P1 & P2 & P3 & _).
    rewrite (scan_char_pop sc (FObj ms None) stk') by auto.
    unfold scan_agrees. cbn. now rewrite P1, P2, P3.
  - unfold done_step in H. destruct (is_json_ws c) eqn:W; [|discriminate].
    injection H as <-. rewrite scan_char_inert; auto with scan.
    unfold wf in Wf. cbn in Wf. apply andb_true_iff in Wf. destruct Wf as [_ Wf].
    destruct stk; [exact A | discriminate].
Qed.

Lemma scan_char_in_string (sc : scan_state) (c : jschar) :
  inString sc = true -> isEscaped sc = false ->
  N.eqb c c_backslash = false -> N.eqb c c_quote = false ->
  scan_char sc c = sc.
Proof.
  destruct sc as [cl inS esc]. cbn. intros -> -> H1 H2.
  unfold scan_char. cbn [isEscaped inString closers]. now rewrite H1, H2.
Qed.

Lemma hex_not_special (c : jschar) (h : N) :
  hex_val c = Some h -> N.eqb c c_backslash = false /\ N.eqb c c_quote = false.
Proof.
  unfold hex_val, is_digit. intros H.
  destruct (N.leb_spec 48 c), (N.leb_spec c 57), (N.leb_spec 97 c), (N.leb_spec c 102),
    (N.leb_spec 65 c), (N.leb_spec c 70); cbn in H; try discriminate;
    unfold c_backslash, c_quote; split; apply N.eqb_neq; lia.
Qed.

(** One character: if the automaton accepts it, the scan and the automaton
    still agree after it. *)
Lemma pstep_agrees (sc : scan_state) (st st' : pstate) (c : jschar) :
  wf st = true ->
  scan_agrees sc st -> pstep st c = Some st' -> scan_agrees (scan_char sc c) st'.
Proof.
  intros Wf A H. destruct st as [stk m].
  pose proof A as (A1 & A2 & A3). cbn [pmode stack] in A1, A2, A3.
  unfold pstep in H. cbn [pmode stack] in H.
  destruct m as [first|first| | |v|k acc esc|ph a|rest v].
  - (* MValue *)
    unfold value_step in H.
    destruct (is_json_ws c) eqn:W.
    { injection H as <-. rewrite scan_char_inert; auto with scan. }
    destruct (N.eqb_spec c c_lbrace) as [->|_].
    { injection H as <-. destruct sc as [cl inS es]. cbn in *. subst.
      unfold scan_agrees. cbn. auto. }
    destruct (N.eqb_spec c c_lbracket) as [->|_].
    { injection H as <-. destruct sc as [cl inS es]. cbn in *. subst.
      unfold scan_agrees. cbn. auto. }
    destruct (N.eqb_spec c c_quote) as [->|_].
    { injection H as <-. destruct sc as [cl inS es]. cbn in *. subst.
      unfold scan_agrees. cbn. auto. }
    destruct (N.eqb_spec c 45) as [->|_].
    { injection H as <-. rewrite scan_char_inert by (auto; reflexivity).
      eapply agrees_same; try exact A; reflexivity. }
    destruct (N.eqb_spec c 48) as [->|_].
    { injection H as <-. rewrite scan_char_inert by (auto; reflexivity).
      eapply agrees_same; try exact A; reflexivity. }
    destruct (is_digit c) eqn:D.
    { injection H as <-. rewrite scan_char_inert by auto with scan.
      eapply agrees_same; try exact A; reflexivity. }
    destruct (N.eqb_spec c 116) as [->|_].
    { injection H as <-. rewrite scan_char_inert by (auto; reflexivity).
      eapply agrees_same; try exact A; reflexivity. }
    destruct (N.eqb_spec c 102) as [->|_].
    { injection H as <-. rewrite scan_char_inert by (auto; reflexivity).
      eapply agrees_same; try exact A; reflexivity. }
    destruct (N.eqb_spec c 110) as [->|_].
    { injection H as <-. rewrite scan_char_inert by (auto; reflexivity).
      eapply agrees_same; try exact A; reflexivity. }
    destruct (N.eqb_spec c c_rbracket) as [->|_]; [|discriminate].
    destruct first; [|discriminate]. cbn [andb] in H.
    destruct stk as [|[es|ms k] stk']; try discriminate H.
    destruct (place_agrees _ _ _ H) as (P1 & P2 & P3 & _).
    rewrite (scan_char_pop sc (FArr es) stk') by auto.
    unfold scan_agrees. cbn. now rewrite P1, P2, P3.
  - (* MKey *)
    unfold key_step in H.
    destruct (is_json_ws c) eqn:W.
    { injection H as <-. rewrite scan_char_inert; auto with scan. }
    destruct (N.eqb_spec c c_quote) as [->|_].
    { injection H as <-. destruct sc as [cl inS es]. cbn in *. subst.
      unfold scan_agrees. cbn. auto. }
    destruct (N.eqb_spec c c_rbrace) as [->|_]; [|discriminate].
    destruct first; [|discriminate]. cbn [andb] in H.
    destruct stk as [|[es|ms [k|]] stk']; try discriminate H.
    destruct (place_agrees _ _ _ H) as (P1 & P2 & P3 & _).
    rewrite (scan_char_pop sc (FObj ms None) stk') by auto.
    unfold scan_agrees. cbn. now rewrite P1, P2, P3.
  - (* MColon *)
    destruct (is_json_ws c) eqn:W.
    { injection H as <-. rewrite scan_char_inert; auto with scan. }
    destruct (N.eqb_spec c c_colon) as [->|_]; [|discriminate].
    injection H as <-. rewrite scan_char_inert by (auto; reflexivity).
    eapply agrees_same; try exact A; reflexivity.
  - (* MAfter *)
    apply (follow_agrees sc {| stack := stk; pmode := MAfter |} st' c Wf A H).
  - (* MDone *)
    apply (follow_agrees sc {| stack := stk; pmode := MDone v |} st' c Wf A H).
  - (* MStr *)
    unfold str_step in H. destruct esc as [| |ds].
    + destruct (N.eqb_spec c c_quote) as [->|Nq].
      { destruct sc as [cl inS es]. cbn in A1, A2, A3. subst.
        unfold end_string in H. destruct k.
        - destruct stk as [|[es|ms [k|]] stk']; try discriminate H.
          injection H as <-. unfold scan_agrees. cbn. auto.
        - destruct (place_agrees _ _ _ H) as (P1 & P2 & P3 & _).
          unfold scan_agrees. cbn. now rewrite P1, P2, P3. }
      destruct (N.eqb_spec c c_backslash) as [->|Nb].
      { injection H as <-. destruct sc as [cl inS es]. cbn in A1, A2, A3. subst.
        unfold scan_agrees. cbn. auto. }
      destruct (N.ltb c 32); [discriminate|]. injection H as <-.
      rewrite scan_char_in_string; auto; now apply N.eqb_neq.
    + destruct sc as [cl inS es]. cbn in A1, A2, A3. subst.
      destruct (N.eqb c 117).
      { injection H as <-. unfold scan_agrees. cbn. auto. }
      destruct (simple_escape c); [|discriminate].
      injection H as <-. unfold scan_agrees. cbn. auto.
    + destruct (hex_val c) as [h|] eqn:Hx; [|discriminate].
      destruct (hex_not_special _ _ Hx) as [Nb Nq].
      rewrite scan_char_in_string by auto.
      destruct (Nat.eqb _ 4); injection H as <-; exact A.
  - (* MNum *)
    destruct (num_step ph a c) as [[ph' a']|] eqn:Ns.
    { injection H as <-. rewrite scan_char_inert; eauto using inert_num. }
    destruct (num_accepting ph); [|discriminate].
    destruct (place (JNumber (num_value a)) stk) as [st1|] eqn:P; [|discriminate].
    destruct (place_agrees _ _ _ P) as (P1 & P2 & P3 & _).
    unfold wf in Wf. cbn [pmode stack] in Wf.
    apply andb_true_iff in Wf. destruct Wf as [W1 W2].
    apply (follow_agrees sc st1 st' c); [apply (place_wf _ _ _ W1 W2 P)| |assumption].
    unfold scan_agrees. now rewrite P1, P2, P3.
  - (* MLit *)
    destruct rest as [|x rest']; [discriminate|].
    destruct (N.eqb_spec c x) as [->|_]; [|discriminate].
    assert (I : scan_inert x = true).
    { apply inert_lower. unfold wf in Wf. cbn in Wf.
      repeat (apply andb_true_iff in Wf; destruct Wf as [Wf ?]).
      now repeat match goal with X : _ && _ = true |- _ =>
            apply andb_true_iff in X; destruct X end. }
    rewrite scan_char_inert by auto.
    destruct rest' as [|y rest''].
    + destruct (place_agrees _ _ _ H) as (P1 & P2 & P3 & _).
      unfold scan_agrees. now rewrite P1, P2, P3.
    + injection H as <-. exact A.
Qed.

Lemma feed_agrees (s : jsstring) : forall sc st st',
  wf st = true -> scan_agrees sc st -> feed st s = Some st' ->
  scan_agrees (fold_left scan_char s sc) st'.
Proof.
  induction s as [|c s IH]; intros sc st st' Wf A H; cbn [feed fold_left] in *.
  - now injection H as <-.
  - destruct (pstep st c) as [st1|] eqn:P; [|discriminate].
    apply (IH _ st1); [apply (pstep_wf _ _ _ Wf P) | apply (pstep_agrees _ _ _ _ Wf A P) | exact H].
Qed.

Lemma scan_agrees_feed (s : jsstring) (st : pstate) :
  feed pstart s = Some st -> scan_agrees (scan s) st.
Proof.
  intros H. apply (feed_agrees s scan_start pstart st); try assumption; repeat split.
Qed.

(** ** Closing what is open *)

Lemma after_step_closer (f : frame) (stk : list frame) :
  after_ctx [f] = true ->
  after_step (f :: stk) (closer_of f) = place (close_frame f) stk.
Proof. destruct f as [es|ms [k|]]; try discriminate; reflexivity. Qed.

(** A value placed in a stack of frames that all wait for one, followed by
    the closers of these frames, innermost first, completes the text with
    the value [unwind] gives. *)
Lemma place_then_close (stk : list frame) : forall v,
  forallb awaits_value stk = true ->
  exists st1,
    place v stk = Some st1 /\
    feed st1 (map closer_of stk) = Some {| stack := []; pmode := MDone (unwind v stk) |}.
Proof.
  induction stk as [|f stk IH]; intros v H.
  - eexists. split; reflexivity.
  - cbn [forallb] in H. apply andb_true_iff in H. destruct H as [Hf H].
    destruct f as [es|ms [k|]]; try discriminate Hf.
    + destruct (IH (JArray (rev (v :: es))) H) as (st2 & P2 & F2).
      eexists. split; [reflexivity|].
      cbn [map feed closer_of]. unfold pstep. cbn [pmode stack].
      change (after_step (FArr (v :: es) :: stk) c_rbracket)
        with (place (JArray (rev (v :: es))) stk).
      rewrite P2. exact F2.
    + destruct (IH (JObject (rev ((k, v) :: ms))) H) as (st2 & P2 & F2).
      eexists. split; [reflexivity|].
      cbn [map feed closer_of]. unfold pstep. cbn [pmode stack].
      change (after_step (FObj ((k, v) :: ms) None :: stk) c_rbrace)
        with (place (JObject (rev ((k, v) :: ms))) stk).
      rewrite P2. exact F2.
Qed.

(** After a complete member or element: the closers complete the text. *)
Lemma close_after (f : frame) (stk : list frame) :
  after_ctx [f] = true -> forallb awaits_value stk = true ->
  feed {| stack := f :: stk; pmode := MAfter |} (map closer_of (f :: stk))
  = Some {| stack := []; pmode := MDone (unwind (close_frame f) stk) |}.
Proof.
  intros Hf H. cbn [map feed]. unfold pstep. cbn [pmode stack].
  rewrite (after_step_closer f stk Hf).
  destruct (place_then_close stk (close_frame f) H) as (st1 & -> & F). exact F.
Qed.

Lemma closer_not_num (f : frame) (ph : numphase) (a : numacc) :
  num_step ph a (closer_of f) = None.
Proof. destruct f, ph; reflexivity. Qed.

(** Inside a number that can end here: the closers end it and complete the
    text. *)
Lemma close_number (ph : numphase) (a : numacc) (f : frame) (stk : list frame) :
  num_accepting ph = true -> forallb awaits_value (f :: stk) = true ->
  feed {| stack := f :: stk; pmode := MNum ph a |} (map closer_of (f :: stk))
  = Some {| stack := []; pmode := MDone (unwind (JNumber (num_value a)) (f :: stk)) |}.
Proof.
  intros Hacc H.
  destruct (place_then_close (f :: stk) (JNumber (num_value a)) H) as (st1 & P & F).
  rewrite <- F. cbn [map feed]. unfold pstep at 1. cbn [pmode stack].
  rewrite closer_not_num, Hacc, P.
  destruct f as [es|ms [k|]]; try discriminate H; injection P as <-; reflexivity.
Qed.

(** Inside a string value, not in an escape: a quote ends it and the
    closers complete the text. *)
Lemma close_string (acc : jsstring) (stk : list frame) :
  forallb awaits_value stk = true ->
  feed {| stack := stk; pmode := MStr false acc ENone |} (c_quote :: map closer_of stk)
  = Some {| stack := []; pmode := MDone (unwind (JString (rev acc)) stk) |}.
Proof.
  intros H. cbn [feed]. unfold pstep, str_step, end_string. cbn [pmode stack].
  rewrite N.eqb_refl.
  destruct (place_then_close stk (JString (rev acc)) H) as (st1 & -> & F). exact F.
Qed.

(** Right after an opening bracket or brace. *)
Lemma close_fresh_array (stk : list frame) :
  forallb awaits_value stk = true ->
  feed {| stack := FArr [] :: stk; pmode := MValue true |} (map closer_of (FArr [] :: stk))
  = Some {| stack := []; pmode := MDone (unwind (JArray []) stk) |}.
Proof.
  intros H. cbn [map feed]. unfold pstep. cbn [pmode stack closer_of].
  change (value_step true (FArr [] :: stk) c_rbracket) with (place (JArray []) stk).
  destruct (place_then_close stk (JArray []) H) as (st1 & -> & F). exact F.
Qed.

Lemma close_fresh_object (stk : list frame) :
  forallb awaits_value stk = true ->
  feed {| stack := FObj [] None :: stk; pmode := MKey true |}
    (map closer_of (FObj [] None :: stk))
  = Some {| stack := []; pmode := MDone (unwind (JObject []) stk) |}.
Proof.
  intros H. cbn [map feed]. unfold pstep. cbn [pmode stack closer_of].
  change (key_step true (FObj [] None :: stk) c_rbrace) with (place (JObject []) stk).
  destruct (place_then_close stk (JObject []) H) as (st1 & -> & F). exact F.
Qed.

Lemma feed_start_wf (s : jsstring) (st : pstate) :
  feed pstart s = Some st -> wf st = true.
Proof. apply (feed_wf s pstart st eq_refl). Qed.

(** ** The comma before the end of the text *)

Lemma comma_step (st st1 : pstate) :
  wf st = true ->
  pstep st c_comma = Some st1 ->
  in_string (pmode st1) = true \/
  (after_comma_mode (pmode st1) = true /\
   ((pmode st = MAfter /\ stack st1 = stack st) \/
    (exists ph a, pmode st = MNum ph a /\ num_accepting ph = true /\
       place (JNumber (num_value a)) (stack st)
       = Some {| stack := stack st1; pmode := MAfter |}))).
Proof.
  destruct st as [stk m]. unfold pstep. cbn [pmode stack]. intros Wf H.
  destruct m as [first|first| | |v|k acc esc|ph a|rest v]; try discriminate H.
  - right. unfold after_step in H. cbn in H.
    destruct stk as [|[es|ms [k|]] stk']; try discriminate H; injection H as <-;
      cbn; auto.
  - left. unfold str_step in H. destruct esc; try discriminate H.
    + cbn in H. injection H as <-. reflexivity.
  - right. destruct ph; cbn in H; try discriminate H;
      destruct stk as [|[es|ms [k|]] stk']; try discriminate H; injection H as <-;
      cbn; split; try reflexivity; right; eauto.
  - destruct rest as [|x rest']; [discriminate H|].
    destruct (N.eqb_spec c_comma x) as [<-|]; [|discriminate H].
    unfold wf in Wf. cbn in Wf. rewrite !andb_false_r in Wf. discriminate.
Qed.

(** White space after a comma changes nothing. *)
Lemma space_keeps_after_comma (st st' : pstate) (c : jschar) :
  is_js_space c = true -> pstep st c = Some st' ->
  after_comma_mode (pmode st') = true -> st' = st.
Proof.
  intros Hc H M. destruct st as [stk m].
  unfold pstep in H. cbn [pmode stack] in H.
  destruct m as [first|first| | |v|k acc esc|ph a|rest v].
  - rewrite value_step_space in H by assumption.
    destruct (is_json_ws c); [now injection H as <-|discriminate].
  - rewrite key_step_space in H by assumption.
    destruct (is_json_ws c); [now injection H as <-|discriminate].
  - rewrite colon_space in H by assumption.
    destruct (is_json_ws c); [now injection H as <-|discriminate].
  - rewrite after_step_space in H by assumption.
    destruct (is_json_ws c); [injection H as <-|]; discriminate.
  - unfold done_step in H.
    destruct (is_json_ws c); [injection H as <-|]; discriminate.
  - rewrite str_step_space in H by assumption.
    destruct esc; try discriminate.
    destruct (N.ltb c 32); [discriminate|]. injection H as <-. discriminate.
  - rewrite num_step_space in H by assumption.
    destruct (num_accepting ph); [|discriminate].
    destruct (place (JNumber (num_value a)) stk) as [st1|] eqn:P; [|discriminate].
    destruct (place_agrees _ _ _ P) as (_ & _ & _ & [Hm|[v' Hm]]);
      unfold follow in H; rewrite Hm in H.
    + rewrite after_step_space in H by assumption.
      destruct (is_json_ws c); [injection H as <-|]; discriminate.
    + unfold done_step in H.
      destruct (is_json_ws c); [injection H as <-|]; discriminate.
  - destruct rest as [|x rest']; [discriminate|].
    destruct (N.eqb c x); [|discriminate].
    destruct rest' as [|y rest''].
    + destruct (place_agrees _ _ _ H) as (_ & _ & _ & [Hm|[v' Hm]]);
        rewrite Hm in M; discriminate.
    + injection H as <-. discriminate.
Qed.

(** White space after a comma, or inside a string, leaves the automaton
    after a comma, or inside a string. *)
Lemma space_keeps_class (st st' : pstate) (c : jschar) :
  is_js_space c = true -> pstep st c = Some st' ->
  after_comma_mode (pmode st) || in_string (pmode st) = true ->
  after_comma_mode (pmode st') || in_string (pmode st') = true.
Proof.
  intros Hc H M. destruct st as [stk m].
  unfold pstep in H. cbn [pmode stack] in H. cbn [pmode] in M.
  destruct m as [first|first| | |v|k acc esc|ph a|rest v]; try discriminate M.
  - rewrite value_step_space in H by assumption.
    destruct (is_json_ws c); [now injection H as <-|discriminate].
  - rewrite key_step_space in H by assumption.
    destruct (is_json_ws c); [now injection H as <-|discriminate].
  - rewrite str_step_space in H by assumption.
    destruct esc; try discriminate.
    destruct (N.ltb c 32); [discriminate|]. now injection H as <-.
Qed.

Lemma feed_spaces_class (ws : jsstring) : forall st st',
  forallb is_js_space ws = true -> feed st ws = Some st' ->
  after_comma_mode (pmode st) || in_string (pmode st) = true ->
  after_comma_mode (pmode st') || in_string (pmode st') = true.
Proof.
  induction ws as [|c ws IH]; intros st st' Hs H M; cbn [feed] in H.
  - now injection H as <-.
  - cbn [forallb] in Hs. apply andb_true_iff in Hs. destruct Hs as [Hc Hs].
    destruct (pstep st c) as [st1|] eqn:P; [|discriminate].
    apply (IH st1 st' Hs H). apply (space_keeps_class st st1 c Hc P M).
Qed.

Lemma last_nonspace_snoc (s : jsstring) (c : jschar) :
  last_nonspace (s ++ [c]) = if is_js_space c then last_nonspace s else Some c.
Proof.
  unfold last_nonspace. rewrite rev_app_distr. cbn [rev app drop_spaces].
  now destruct (is_js_space c).
Qed.

Lemma drop_spaces_all (ws s : jsstring) :
  forallb is_js_space ws = true -> drop_spaces (ws ++ s) = drop_spaces s.
Proof.
  induction ws as [|c ws IH]; intros H; [reflexivity|].
  cbn [forallb] in H. apply andb_true_iff in H. destruct H as [Hc H].
  cbn [app drop_spaces]. rewrite Hc. now apply IH.
Qed.

(** The text ends with a comma and white space exactly when its last
    character other than white space is a comma. *)
Lemma last_nonspace_comma (s : jsstring) :
  last_nonspace s = Some c_comma ->
  exists x ws, s = x ++ [c_comma] ++ ws /\ forallb is_js_space ws = true.
Proof.
  unfold last_nonspace. intros H.
  destruct (drop_spaces_split (rev s)) as (l & E & Hl).
  destruct (drop_spaces (rev s)) as [|c r]; [discriminate|]. injection H as ->.
  exists (rev r), (rev l). split.
  - rewrite <- (rev_involutive s), E, rev_app_distr. cbn [rev].
    now rewrite <- app_assoc.
  - rewrite forallb_forall in *. intros y Hy. apply Hl. now apply in_rev.
Qed.

Lemma strip_trailing_comma_fires (x ws : jsstring) :
  forallb is_js_space ws = true ->
  strip_trailing_comma (x ++ [c_comma] ++ ws) = x.
Proof.
  intros H. unfold strip_trailing_comma.
  rewrite !rev_app_distr, <- app_assoc. cbn [rev app].
  rewrite drop_spaces_all.
  2:{ rewrite forallb_forall in *. intros y Hy. apply H. now apply in_rev. }
  cbn [drop_spaces]. change (is_js_space c_comma) with false. cbn.
  apply rev_involutive.
Qed.

Lemma strip_trailing_comma_idle (s : jsstring) :
  last_nonspace s <> Some c_comma -> strip_trailing_comma s = s.
Proof.
  unfold last_nonspace, strip_trailing_comma. intros H.
  destruct (drop_spaces (rev s)) as [|c r]; [reflexivity|].
  destruct (N.eqb_spec c c_comma) as [->|]; [now destruct H | reflexivity].
Qed.

(** In a state that does not follow a comma and is not inside a string, the
    text read so far does not end with a comma and white space. *)
Lemma no_trailing_comma (pre : jsstring) (st : pstate) :
  feed pstart pre = Some st ->
  after_comma_mode (pmode st) || in_string (pmode st) = false ->
  last_nonspace pre <> Some c_comma.
Proof.
  intros F M L.
  destruct (last_nonspace_comma pre L) as (x & ws & -> & Hws).
  rewrite feed_app in F.
  destruct (feed pstart x) as [stx|] eqn:Fx; [|discriminate].
  cbn [app feed] in F.
  destruct (pstep stx c_comma) as [stc|] eqn:Pc; [|discriminate].
  assert (C : after_comma_mode (pmode stc) || in_string (pmode stc) = true).
  { destruct (comma_step stx stc (feed_start_wf _ _ Fx) Pc) as [H|[H _]];
      rewrite H; [apply orb_true_r | reflexivity]. }
  rewrite (feed_spaces_class ws stc st Hws F C) in M. discriminate.
Qed.

Lemma json_ws_js_space (c : jschar) : is_json_ws c = true -> is_js_space c = true.
Proof.
  unfold is_json_ws. intros H.
  repeat (apply orb_true_iff in H; destruct H as [H|H]);
    apply N.eqb_eq in H; subst c; reflexivity.
Qed.

Lemma place_not_after_comma (v : JValue) (stk : list frame) (st : pstate) :
  place v stk = Some st -> after_comma_mode (pmode st) = false.
Proof.
  intros P. destruct (place_agrees _ _ _ P) as (_ & _ & _ & [->|[v' ->]]); reflexivity.
Qed.

Lemma follow_into_after_comma (st st' : pstate) (c : jschar) :
  follow st c = Some st' -> after_comma_mode (pmode st') = true ->
  is_json_ws c = false -> c = c_comma.
Proof.
  destruct st as [stk m]. unfold follow. cbn [pmode stack]. intros H A W.
  destruct m; try discriminate H.
  - unfold after_step in H. rewrite W in H.
    destruct (N.eqb_spec c c_comma); [assumption|].
    destruct (N.eqb c c_rbracket).
    { destruct stk as [|[es|ms k] stk']; try discriminate H.
      rewrite (place_not_after_comma _ _ _ H) in A. discriminate. }
    destruct (N.eqb c c_rbrace); [|discriminate H].
    destruct stk as [|[es|ms [k|]] stk']; try discriminate H.
    rewrite (place_not_after_comma _ _ _ H) in A. discriminate.
  - unfold done_step in H. rewrite W in H. discriminate.
Qed.

(** The only character other than white space that leads to a state after
    a comma is the comma (the colon leads to a value in an object). *)
Lemma into_after_comma (st st' : pstate) (c : jschar) :
  wf st = true -> pstep st c = Some st' ->
  after_comma_mode (pmode st') = true ->
  (is_json_ws c = true -> False) ->
  (forall ms k stk', stack st' = FObj ms (Some k) :: stk' -> pmode st' = MKey false) ->
  c = c_comma.
Proof.
  intros Wf P A W T.
  assert (W' : is_json_ws c = false) by (destruct (is_json_ws c); [now destruct W|reflexivity]).
  clear W. destruct st as [stk m].
  unfold pstep in P. cbn [pmode stack] in P.
  destruct m as [first|first| | |v|k acc esc|ph a|rest v].
  - unfold value_step in P. rewrite W' in P.
    repeat (break_if_hyp P; [try (injection P as <-; discriminate)|]);
      try discriminate P.
    destruct stk as [|[es|ms k] stk']; try discriminate P.
    rewrite (place_not_after_comma _ _ _ P) in A. discriminate.
  - unfold key_step in P. rewrite W' in P.
    repeat (break_if_hyp P; [try (injection P as <-; discriminate)|]);
      try discriminate P.
    destruct stk as [|[es|ms [k|]] stk']; try discriminate P.
    rewrite (place_not_after_comma _ _ _ P) in A. discriminate.
  - rewrite W' in P. destruct (N.eqb c c_colon); [|discriminate P].
    injection P as <-.
    unfold wf in Wf. cbn in Wf.
    destruct stk as [|[es|ms [k|]] stk']; try (rewrite andb_false_r in Wf; discriminate Wf).
    specialize (T ms k stk' eq_refl). discriminate T.
  - apply (follow_into_after_comma {| stack := stk; pmode := MAfter |} st' c P A W').
  - apply (follow_into_after_comma {| stack := stk; pmode := MDone v |} st' c P A W').
  - unfold str_step in P. destruct esc.
    + destruct (N.eqb c c_quote).
      { unfold end_string in P. destruct k.
        - destruct stk as [|[es|ms [k|]] stk']; try discriminate P.
          injection P as <-. discriminate.
        - rewrite (place_not_after_comma _ _ _ P) in A. discriminate. }
      repeat (break_if_hyp P; [try (injection P as <-; discriminate)|]);
        try discriminate P. injection P as <-. discriminate.
    + destruct (N.eqb c 117); [injection P as <-; discriminate|].
      destruct (simple_escape c); [injection P as <-|]; discriminate.
    + destruct (hex_val c); [|discriminate P].
      destruct (Nat.eqb _ 4); injection P as <-; discriminate.
  - destruct (num_step ph a c) as [[ph' a']|]; [injection P as <-; discriminate|].
    destruct (num_accepting ph); [|discriminate P].
    destruct (place (JNumber (num_value a)) stk) as [st1|]; [|discriminate P].
    apply (follow_into_after_comma st1 st' c P A W').
  - destruct rest as [|x rest']; [discriminate P|].
    destruct (N.eqb c x); [|discriminate P].
    destruct rest' as [|y rest''].
    + rewrite (place_not_after_comma _ _ _ P) in A. discriminate.
    + injection P as <-. discriminate.
Qed.

(** In a state that follows a comma, the text read so far ends with that
    comma and white space, and the comma was read after a complete element
    or member, or ended a number. *)
Lemma after_comma_split (pre : jsstring) : forall st,
  feed pstart pre = Some st ->
  (pmode st = MKey false \/
   (pmode st = MValue false /\ exists es stk', stack st = FArr es :: stk')) ->
  exists x ws stx,
    pre = x ++ [c_comma] ++ ws /\ forallb is_js_space ws = true /\
    feed pstart x = Some stx /\ pstep stx c_comma = Some st.
Proof.
  induction pre as [|c pre IH] using rev_ind; intros st F M.
  - cbn in F. injection F as <-. cbn in M.
    destruct M as [M|[_ (es & stk' & M)]]; discriminate.
  - rewrite feed_app in F.
    destruct (feed pstart pre) as [st0|] eqn:F0; [|discriminate].
    cbn [feed] in F. destruct (pstep st0 c) as [st1|] eqn:P; [|discriminate].
    injection F as ->.
    assert (A : after_comma_mode (pmode st) = true).
    { destruct M as [->|[-> _]]; reflexivity. }
    destruct (is_js_space c) eqn:Hc.
    + pose proof (space_keeps_after_comma st0 st c Hc P A) as ->.
      destruct (IH st0 eq_refl M) as (x & ws & stx & -> & Hws & Fx & Px).
      exists x, (ws ++ [c]), stx. rewrite <- !app_assoc. split; [reflexivity|].
      split; [|split; assumption].
      rewrite forallb_app, Hws. cbn. now rewrite Hc.
    + assert (c = c_comma) as ->.
      { pose proof (feed_start_wf _ _ F0) as Wf.
        apply (into_after_comma st0 st c Wf P A).
        - intros E. rewrite (json_ws_js_space c E) in Hc. discriminate.
        - intros ms k stk' E. destruct M as [M|[_ (es & stk'' & M)]];
            [exact M | rewrite M in E; discriminate]. }
      exists pre, [], st0. repeat split; assumption.
Qed.

(** ** The last cleanup of the repair *)

Lemma remove_commas_idle (s : jsstring) :
  (comma_closer_free s = true -> remove_commas_from None s = s) /\
  (forall ws, closer_next s = false -> comma_closer_free s = true ->
     remove_commas_from (Some ws) s = c_comma :: ws ++ s).
Proof.
  induction s as [|c r [IH1 IH2]]; (split; [intros F | intros ws N F]).
  - reflexivity.
  - cbn. now rewrite app_nil_r.
  - cbn [comma_closer_free] in F. apply andb_true_iff in F. destruct F as [F1 F2].
    cbn [remove_commas_from]. destruct (N.eqb_spec c c_comma) as [->|].
    + cbn [andb negb] in F1. apply negb_true_iff in F1.
      rewrite IH2 by assumption. reflexivity.
    + now rewrite (IH1 F2).
  - cbn [comma_closer_free] in F. apply andb_true_iff in F. destruct F as [F1 F2].
    cbn [closer_next] in N. cbn [remove_commas_from].
    destruct (is_js_space c).
    + rewrite IH2 by assumption. now rewrite <- app_assoc.
    + rewrite N. destruct (N.eqb_spec c c_comma) as [->|].
      * cbn [andb negb] in F1. apply negb_true_iff in F1.
        rewrite IH2 by assumption. reflexivity.
      * now rewrite (IH1 F2).
Qed.

Lemma closer_next_app (r y : jsstring) :
  closer_next r = true -> closer_next (r ++ y) = true.
Proof.
  induction r as [|c r IH]; [discriminate|].
  cbn [app closer_next]. destruct (is_js_space c); [exact IH | trivial].
Qed.

Lemma free_prefix (x y : jsstring) :
  comma_closer_free (x ++ y) = true -> comma_closer_free x = true.
Proof.
  induction x as [|c x IH]; [reflexivity|].
  cbn [app comma_closer_free]. intros F.
  apply andb_true_iff in F. destruct F as [F1 F2].
  rewrite (IH F2), andb_true_r.
  destruct (N.eqb c c_comma); [|reflexivity]. cbn [andb] in *.
  destruct (closer_next x) eqn:E; [|reflexivity].
  now rewrite (closer_next_app x y E) in F1.
Qed.

Lemma closer_next_snoc (r : jsstring) (x : jschar) :
  closer_next r = false -> is_closer x = false -> closer_next (r ++ [x]) = false.
Proof.
  intros N Hx. induction r as [|c r IH]; cbn [app closer_next] in *.
  - rewrite Hx. now destruct (is_js_space x).
  - destruct (is_js_space c); [now apply IH | assumption].
Qed.

Lemma free_snoc (s : jsstring) (x : jschar) :
  comma_closer_free s = true -> is_closer x = false -> N.eqb x c_comma = false ->
  comma_closer_free (s ++ [x]) = true.
Proof.
  intros F Hx Hc. induction s as [|c s IH]; cbn [app comma_closer_free] in *.
  - now rewrite Hc.
  - apply andb_true_iff in F. destruct F as [F1 F2].
    rewrite (IH F2), andb_true_r.
    destruct (N.eqb c c_comma); [|reflexivity]. cbn [andb negb] in *.
    apply negb_true_iff in F1. now rewrite (closer_next_snoc s x F1 Hx).
Qed.

Lemma drop_spaces_app (a b : jsstring) :
  drop_spaces (a ++ b) =
  match drop_spaces a with
  | [] => drop_spaces b
  | y :: t => y :: t ++ b
  end.
Proof.
  induction a as [|c a IH]; [cbn; now destruct (drop_spaces b)|].
  cbn [app drop_spaces]. destruct (is_js_space c); [exact IH | reflexivity].
Qed.

Lemma last_nonspace_cons (c : jschar) (r : jsstring) :
  last_nonspace (c :: r) =
  match last_nonspace r with
  | Some y => Some y
  | None => if is_js_space c then None else Some c
  end.
Proof.
  unfold last_nonspace. cbn [rev]. rewrite drop_spaces_app.
  destruct (drop_spaces (rev r)); [|reflexivity].
  cbn. now destruct (is_js_space c).
Qed.

Lemma closer_next_last (r cl : jsstring) (y : jschar) :
  last_nonspace r = Some y -> closer_next (r ++ cl) = closer_next r.
Proof.
  induction r as [|c r IH]; [discriminate|].
  rewrite last_nonspace_cons. cbn [app closer_next]. intros H.
  destruct (is_js_space c); [|reflexivity].
  apply IH. destruct (last_nonspace r); [assumption|discriminate].
Qed.

Lemma closer_not_comma (c : jschar) : is_closer c = true -> N.eqb c c_comma = false.
Proof.
  unfold is_closer. intros H. apply orb_true_iff in H.
  destruct H as [H|H]; apply N.eqb_eq in H; subst c; reflexivity.
Qed.

Lemma free_closers (cl : jsstring) :
  forallb is_closer cl = true -> comma_closer_free cl = true.
Proof.
  induction cl as [|c cl IH]; [reflexivity|]. cbn. intros H.
  apply andb_true_iff in H. destruct H as [Hc H].
  now rewrite (closer_not_comma c Hc), (IH H).
Qed.

(** Closers appended to a text that does not end with a comma bring no
    comma before a closer. *)
Lemma free_app_closers (s cl : jsstring) :
  comma_closer_free s = true -> last_nonspace s <> Some c_comma ->
  forallb is_closer cl = true -> comma_closer_free (s ++ cl) = true.
Proof.
  intros F L Hcl. induction s as [|c s IH]; [now apply free_closers|].
  cbn [app comma_closer_free] in *.
  apply andb_true_iff in F. destruct F as [F1 F2].
  rewrite last_nonspace_cons in L.
  rewrite IH, andb_true_r; [|assumption|].
  2:{ intros E. rewrite E in L. now apply L. }
  destruct (N.eqb_spec c c_comma) as [->|]; [|reflexivity]. cbn [andb negb] in *.
  apply negb_true_iff in F1.
  destruct (last_nonspace s) as [y|] eqn:E.
  - now rewrite (closer_next_last s cl y E), F1.
  - now destruct L.
Qed.

Lemma closers_are_closers (stk : list frame) :
  forallb is_closer (map closer_of stk) = true.
Proof.
  induction stk as [|f stk IH]; [reflexivity|].
  cbn. rewrite IH. now destruct f.
Qed.

#[local] Hint Resolve closers_are_closers : scan.

(** ** The repair of a truncated document *)

Lemma parse_of_feed (s1 s2 : jsstring) (st : pstate) (v : JValue) :
  feed pstart s1 = Some st ->
  feed st s2 = Some {| stack := []; pmode := MDone v |} ->
  JSON_parse (s1 ++ s2) = Some v.
Proof. intros F1 F2. unfold JSON_parse. now rewrite feed_app, F1, F2. Qed.

Section Truncated.

(** A text [pre] that the automaton has read up to the state [st], and in
    which no comma stands before a closer. *)
Variables (pre : jsstring) (st : pstate).
Hypothesis F : feed pstart pre = Some st.
Hypothesis Hf : comma_closer_free pre = true.

(** The repaired text when the text stops outside a string and not after a
    comma: the text and the closers of the open containers, innermost
    first. *)
Lemma repair_plain :
  in_string (pmode st) = false -> after_comma_mode (pmode st) = false ->
  repair pre = pre ++ map closer_of (stack st).
Proof.
  intros Hs Hc.
  destruct (scan_agrees_feed pre st F) as (A1 & A2 & _).
  unfold repair. rewrite A1, A2, Hs.
  assert (L : last_nonspace pre <> Some c_comma).
  { apply (no_trailing_comma pre st F). now rewrite Hs, Hc. }
  rewrite (strip_trailing_comma_idle pre L).
  apply (proj1 (remove_commas_idle _)).
  apply free_app_closers; auto with scan.
Qed.

(** The repaired text when the text stops inside a string: a quote comes
    before the closers. *)
Lemma repair_in_string :
  in_string (pmode st) = true ->
  repair pre = pre ++ c_quote :: map closer_of (stack st).
Proof.
  intros Hs.
  destruct (scan_agrees_feed pre st F) as (A1 & A2 & _).
  unfold repair. rewrite A1, A2, Hs.
  assert (L : last_nonspace (pre ++ [c_quote]) <> Some c_comma).
  { rewrite last_nonspace_snoc. discriminate. }
  rewrite (strip_trailing_comma_idle _ L).
  rewrite (proj1 (remove_commas_idle _)).
  - now rewrite <- app_assoc.
  - apply free_app_closers; auto with scan.
    now apply free_snoc.
Qed.

(** The repaired text when the text stops after a comma: the comma goes,
    and the closers follow what stood before it. *)
Lemma repair_after_comma :
  (pmode st = MKey false \/
   (pmode st = MValue false /\ exists es stk', stack st = FArr es :: stk')) ->
  exists x stx,
    feed pstart x = Some stx /\ pstep stx c_comma = Some st /\
    repair pre = x ++ map closer_of (stack st).
Proof.
  intros M.
  assert (Hs : in_string (pmode st) = false).
  { destruct M as [->|[-> _]]; reflexivity. }
  destruct (after_comma_split pre st F M) as (x & ws & stx & E & Hws & Fx & Px).
  exists x, stx. split; [assumption|]. split; [assumption|].
  destruct (scan_agrees_feed _ st F) as (A1 & A2 & _).
  unfold repair. rewrite A1, A2, Hs, E.
  rewrite (strip_trailing_comma_fires x ws Hws).
  apply (proj1 (remove_commas_idle _)).
  apply free_app_closers; auto with scan.
  - apply (free_prefix x ([c_comma] ++ ws)). now rewrite <- E.
  - apply (no_trailing_comma x stx Fx).
    destruct (comma_step stx st (feed_start_wf _ _ Fx) Px)
      as [H|[_ [[H _]|(ph & a & H & _)]]].
    + rewrite H in Hs. discriminate.
    + now rewrite H.
    + now rewrite H.
Qed.

End Truncated.

(** The closers complete a text that stops after a comma. *)
Lemma close_before_comma (stx st : pstate) :
  wf stx = true -> wf st = true ->
  pstep stx c_comma = Some st ->
  in_string (pmode st) = false ->
  exists v, close_all (stack st) = Some v /\
    feed stx (map closer_of (stack st)) = Some {| stack := []; pmode := MDone v |}.
Proof.
  intros Wx Wf P Hs.
  destruct (comma_step stx st Wx P) as [H|[A [[H E]|(ph & a & H & Hacc & Pl)]]].
  - rewrite H in Hs. discriminate.
  - destruct stx as [stk m]. cbn in H, E. subst m. rewrite E.
    unfold wf in Wx. cbn in Wx. apply andb_true_iff in Wx. destruct Wx as [W1 W2].
    destruct stk as [|f stk']; [discriminate|].
    exists (unwind (close_frame f) stk'). split; [reflexivity|].
    apply close_after; [|assumption].
    destruct f as [|? [|]]; easy.
  - destruct stx as [stk m]. cbn in H, Pl. subst m.
    unfold wf in Wx. cbn in Wx. apply andb_true_iff in Wx. destruct Wx as [W1 W2].
    destruct stk as [|f stk'].
    { cbn in Pl. discriminate. }
    assert (Aw : forallb awaits_value (f :: stk') = true) by (apply all_await; now split).
    pose proof (close_number ph a f stk' Hacc Aw) as C.
    destruct (place_agrees _ _ _ Pl) as (E1 & _). cbn [stack] in E1.
    rewrite E1.
    destruct f as [es|ms [k|]]; try discriminate Aw;
      cbn in Pl; injection Pl as E; rewrite <- E; eexists; (split; [reflexivity|]);
      exact C.
Qed.

(** The direct parse, or the parse of the repaired text, of a text that
    the automaton has read up to a state from which something is
    recovered. *)
Lemma repair_recovers (pre : jsstring) (st : pstate) (v : JValue) :
  feed pstart pre = Some st ->
  comma_closer_free pre = true ->
  recovered st = Some v ->
  parse_or_repair pre = Ok v.
Proof.
  intros F Hfree R.
  pose proof (feed_start_wf pre st F) as Wf.
  unfold parse_or_repair.
  assert (Direct : JSON_parse pre = finish st) by (unfold JSON_parse; now rewrite F).
  rewrite Direct.
  assert (Fin : forall s2,
             feed st s2 = Some {| stack := []; pmode := MDone v |} ->
             JSON_parse (pre ++ s2) = Some v).
  { intros s2. apply (parse_of_feed pre s2 st v F). }
  destruct st as [stk m]. unfold recovered in R. cbn [pmode stack] in *.
  unfold wf in Wf. cbn [pmode stack] in Wf.
  apply andb_true_iff in Wf. destruct Wf as [W1 W2].
  destruct m as [first|first| | |v1|k acc esc|ph a|rest v1]; try discriminate R.
  - (* a value is expected *)
    destruct first.
    + (* right after '[' *)
      destruct stk as [|[[|]|] stk']; try discriminate W2.
      cbn in R. injection R as <-.
      unfold finish. cbn [pmode stack].
      rewrite (repair_plain pre _ F Hfree eq_refl eq_refl). cbn [stack].
      rewrite (Fin _ (close_fresh_array stk' W1)). reflexivity.
    + (* after a comma in an array *)
      destruct stk as [|[es|] stk']; try discriminate R.
      cbn in R. injection R as <-.
      unfold finish. cbn [pmode stack].
      destruct (repair_after_comma pre _ F Hfree) as (x & stx & Fx & Px & ->);
        [right; eauto |].
      destruct (close_before_comma stx _ (feed_start_wf _ _ Fx)
                  (feed_start_wf _ _ F) Px eq_refl) as (v & Hv & C).
      cbn in Hv. injection Hv as <-.
      now rewrite (parse_of_feed x _ stx _ Fx C).
  - (* a key is expected *)
    destruct stk as [|f stk']; [discriminate R|].
    cbn in R. injection R as <-.
    unfold finish. cbn [pmode stack].
    destruct first.
    + destruct f as [|[|] [|]]; try discriminate W2.
      rewrite (repair_plain pre _ F Hfree eq_refl eq_refl). cbn [stack].
      rewrite (Fin _ (close_fresh_object stk' W1)). reflexivity.
    + destruct (repair_after_comma pre _ F Hfree) as (x & stx & Fx & Px & ->);
        [left; reflexivity |].
      destruct (close_before_comma stx _ (feed_start_wf _ _ Fx)
                  (feed_start_wf _ _ F) Px eq_refl) as (v & Hv & C).
      cbn in Hv. injection Hv as <-.
      now rewrite (parse_of_feed x _ stx _ Fx C).
  - (* after a complete element or member *)
    destruct stk as [|f stk']; [discriminate R|].
    cbn in R. injection R as <-.
    unfold finish. cbn [pmode stack].
    rewrite (repair_plain pre _ F Hfree eq_refl eq_refl). cbn [stack].
    rewrite (Fin _ (close_after f stk' ltac:(destruct f as [|? [|]]; easy) W1)).
    reflexivity.
  - (* inside a string *)
    destruct k; [discriminate R|]. destruct esc; try discriminate R.
    injection R as <-.
    unfold finish. cbn [pmode stack].
    rewrite (repair_in_string pre _ F Hfree eq_refl). cbn [stack].
    assert (Aw : forallb awaits_value stk = true) by (apply all_await; now split).
    rewrite (Fin _ (close_string acc stk Aw)). reflexivity.
  - (* inside a number *)
    destruct (num_accepting ph) eqn:Hacc; [|discriminate R]. injection R as <-.
    unfold finish. cbn [pmode stack]. rewrite Hacc.
    destruct stk as [|f stk']; [reflexivity|].
    rewrite (repair_plain pre _ F Hfree eq_refl eq_refl). cbn [stack].
    assert (Aw : forallb awaits_value (f :: stk') = true) by (apply all_await; now split).
    rewrite (Fin _ (close_number ph a f stk' Hacc Aw)). reflexivity.
Qed.


(** C4, amended. Take a text whose cleaned form (what steps 1 to 3 leave
    of it) is a valid JSON document cut at some point, and in which no comma
    is followed, after optional white space, by a closing brace or bracket.
    Then [JSON.parse] has read the cleaned text up to a state [st], the
    repair scan has found the string state and the open containers of [st],
    innermost first, and whenever [recovered st] is a value, that is, when
    the text stops inside a string value outside an escape, inside a number
    that may end there, after a complete element or member, after the comma
    that follows one, or right after an opening bracket or brace,
    [extractJson] returns that value: the containers read so far, each
    closed with what it holds.  Where the text stops inside a key, between a
    key and its value or inside a literal, nothing is promised. *)
Theorem C4_truncation_repair (doc text post : jsstring) (v0 : JValue) :
  JSON_parse doc = Some v0 ->
  doc = clean text ++ post ->
  comma_closer_free (clean text) = true ->
  exists st,
    feed pstart (clean text) = Some st /\
    inString (scan (clean text)) = in_string (pmode st) /\
    closers (scan (clean text)) = map closer_of (stack st) /\
    forall v, recovered st = Some v -> extractJson text = Ok v.
Proof.
  intros Hdoc Hcut Hfree.
  unfold JSON_parse in Hdoc. rewrite Hcut, feed_app in Hdoc.
  destruct (feed pstart (clean text)) as [st|] eqn:F; [|discriminate].
  exists st. split; [reflexivity|].
  destruct (scan_agrees_feed _ st F) as (A1 & A2 & _).
  split; [assumption|]. split; [assumption|].
  intros v R. unfold extractJson.
  apply (repair_recovers _ st v F Hfree R).
Qed.

(** C4, as stated, fails: [{"a":[1,"xy"],"b":2}] is a valid document; cut
    inside its object, right after the key ["a"], it leaves [{"a"], which the
    repair closes to [{"a"}]: not JSON, so [extractJson] throws. *)
Lemma C4_counterexample :
  JSON_parse sample_doc
    = Some (JObject [(js "a", JArray [JNumber {| dneg := false; dmant := 1; dexp := 0 |};
                                      JString (js "xy")]);
                     (js "b", JNumber {| dneg := false; dmant := 2; dexp := 0 |})]) /\
  sample_doc = cut_after_key ++ jq ":[1,'xy'],'b':2}" /\
  closers (scan cut_after_key) = [c_rbrace] /\
  inString (scan cut_after_key) = false /\
  isEscaped (scan cut_after_key) = false /\
  repair cut_after_key = jq "{'a'}" /\
  extractJson cut_after_key = Throw UnrecoverableFormat.
Proof. repeat split. Qed.

(** A reply with leading prose, cut inside a string value. *)
Lemma C4_witness :
  extractJson reply_cut_in_string
  = Ok (JObject [(js "a", JArray [JNumber {| dneg := false; dmant := 1; dexp := 0 |};
                                  JString (js "x")])]).
Proof.
  destruct (C4_truncation_repair sample_doc reply_cut_in_string (jq "y'],'b':2}") _
              eq_refl eq_refl eq_refl) as (st & F & _ & _ & H).
  apply H. vm_compute in F. injection F as <-. reflexivity.
Defined.

(** Trailing commas, and a document cut after a comma. *)
Example trailing_comma_in_object :
  extractJson (jq "{'a':1,}") = extractJson (jq "{'a':1}") /\
  extractJson (jq "[1,2,]") = extractJson (jq "[1,2]").
Proof. split; reflexivity. Qed.

Example cut_after_comma_recovered :
  extractJson cut_after_comma
  = Ok (JObject [(js "a", JArray [JNumber {| dneg := false; dmant := 1; dexp := 0 |};
                                  JString (js "xy")])]).
Proof. reflexivity. Qed.

(** ** Prices read from text *)

Lemma parseInt10_from (ds : jsstring) : forall a,
  fold_left (fun acc c => 10 * acc + (Z.of_N c - 48)) ds a
  = a * 10 ^ Z.of_nat (length ds) + parseInt10 ds.
Proof.
  unfold parseInt10.
  induction ds as [|c ds IH]; intros a; cbn [fold_left length].
  - cbn. lia.
  - rewrite IH, (IH (10 * 0 + _)).
    rewrite Nat2Z.inj_succ, Z.pow_succ_r by lia. lia.
Qed.

Lemma parseInt10_cons (c : jschar) (ds : jsstring) :
  parseInt10 (c :: ds) = (Z.of_N c - 48) * 10 ^ Z.of_nat (length ds) + parseInt10 ds.
Proof.
  unfold parseInt10 at 1. cbn [fold_left]. rewrite parseInt10_from. lia.
Qed.

Lemma is_digit_range (c : jschar) : is_digit c = true <-> (48 <= c <= 57)%N.
Proof.
  unfold is_digit. rewrite andb_true_iff, !N.leb_le. tauto.
Qed.

Lemma parseInt10_nonneg (ds : jsstring) :
  forallb is_digit ds = true -> 0 <= parseInt10 ds.
Proof.
  induction ds as [|c ds IH]; cbn [forallb]; intros H.
  - cbn. lia.
  - apply andb_true_iff in H as [Hc Hds]. apply is_digit_range in Hc.
    rewrite parseInt10_cons. specialize (IH Hds).
    assert (0 <= 10 ^ Z.of_nat (length ds)) by (apply Z.pow_nonneg; lia).
    nia.
Qed.

Lemma take_digits_digits (s : jsstring) : forallb is_digit (take_digits s) = true.
Proof.
  induction s as [|c s IH]; cbn; [reflexivity|].
  destruct (is_digit c) eqn:E; cbn; [now rewrite E|reflexivity].
Qed.

Lemma skip_to_digit_free (pre s : jsstring) :
  digit_free pre = true -> skip_to_digit (pre ++ s) = skip_to_digit s.
Proof.
  induction pre as [|c pre IH]; cbn; intros H; [reflexivity|].
  apply andb_true_iff in H as [Hc Hpre]. apply negb_true_iff in Hc.
  rewrite Hc. now apply IH.
Qed.

Lemma take_digits_run (ds rest : jsstring) :
  forallb is_digit ds = true -> no_digit_first rest = true ->
  take_digits (ds ++ rest) = ds.
Proof.
  induction ds as [|c ds IH]; cbn; intros H R.
  - destruct rest as [|x rest]; [reflexivity|]. cbn in R.
    apply negb_true_iff in R. cbn. now rewrite R.
  - apply andb_true_iff in H as [Hc Hds]. rewrite Hc. f_equal. now apply IH.
Qed.

(** [parsePrice] reads the first run of digits of the text, whatever comes
    before it and after it. *)
Lemma parsePrice_first_run (pre ds rest : jsstring) :
  digit_free pre = true -> ds <> [] -> forallb is_digit ds = true ->
  no_digit_first rest = true ->
  parsePrice (Some (pre ++ ds ++ rest)) = parseInt10 ds.
Proof.
  intros Hpre Hne Hds Hrest. unfold parsePrice.
  assert (T : truthy_str (Some (pre ++ ds ++ rest)) = true).
  { destruct pre; [|reflexivity]. destruct ds; [congruence|reflexivity]. }
  rewrite T. cbn [negb]. unfold match_digits.
  rewrite skip_to_digit_free by assumption.
  assert (S : skip_to_digit (ds ++ rest) = ds ++ rest).
  { destruct ds as [|c ds]; [congruence|]. cbn in Hds |- *.
    apply andb_true_iff in Hds as [Hc _]. now rewrite Hc. }
  rewrite S, take_digits_run by assumption.
  destruct ds; [congruence|reflexivity].
Qed.

Lemma numeral_from_value (fuel : nat) : forall n acc,
  (n < 2 ^ N.of_nat fuel)%N ->
  parseInt10 (numeral_from fuel n acc)
  = Z.of_N n * 10 ^ Z.of_nat (length acc) + parseInt10 acc.
Proof.
  induction fuel as [|fuel IH]; intros n acc Hn.
  - cbn in Hn. assert (n = 0%N) by lia. subst n. cbn [numeral_from]. lia.
  - cbn [numeral_from]. destruct (N.ltb_spec n 10) as [L|L].
    + rewrite parseInt10_cons. rewrite N.mod_small by assumption. lia.
    + rewrite IH.
      * rewrite parseInt10_cons. cbn [length].
        rewrite Nat2Z.inj_succ, Z.pow_succ_r by lia.
        pose proof (N.div_mod n 10 ltac:(lia)) as D.
        assert (Z.of_N n = 10 * Z.of_N (n / 10) + Z.of_N (n mod 10)) by lia.
        nia.
      * rewrite Nat2N.inj_succ, N.pow_succ_r' in Hn.
        apply N.Div0.div_lt_upper_bound. lia.
Qed.

Lemma numeral_from_digits (fuel : nat) : forall n acc,
  forallb is_digit acc = true -> forallb is_digit (numeral_from fuel n acc) = true.
Proof.
  induction fuel as [|fuel IH]; intros n acc H; cbn [numeral_from]; [assumption|].
  assert (D : is_digit (48 + n mod 10)%N = true).
  { apply is_digit_range. pose proof (N.mod_upper_bound n 10 ltac:(lia)).
    pose proof (N.le_0_l (n mod 10)). lia. }
  destruct (n <? 10)%N.
  - cbn [forallb]. now rewrite D.
  - apply IH. cbn [forallb]. now rewrite D.
Qed.

Lemma numeral_from_nonempty (fuel : nat) (n : N) (acc : jsstring) :
  numeral_from (S fuel) n acc <> [].
Proof.
  revert n acc. induction fuel as [|fuel IH]; intros n acc.
  - cbn. now destruct (n <? 10)%N.
  - change (numeral_from (S (S fuel)) n acc)
      with (if (n <? 10)%N then (48 + n mod 10)%N :: acc
            else numeral_from (S fuel) (n / 10)%N ((48 + n mod 10)%N :: acc)).
    destruct (n <? 10)%N; [discriminate|apply IH].
Qed.

Lemma numeral_value (n : N) : parseInt10 (numeral n) = Z.of_N n.
Proof.
  unfold numeral. rewrite numeral_from_value.
  - cbn. lia.
  - destruct n as [|p]; [cbn; lia|].
    rewrite Nat2N.inj_succ, N2Nat.id.
    apply N.log2_spec. lia.
Qed.

(** X1. A price written as a decimal numeral, of a value up to 2^53, is
    read back exactly, whatever text without digits comes before it (a
    currency sign, a minus sign) and whatever follows it from the first
    character that is not a digit (a decimal part, a unit, a second amount).
    Beyond 2^53 [parseInt] gives the nearest binary64 number, which need not
    be the number written. *)
Theorem parsePrice_reads_the_first_numeral (pre rest : jsstring) (n : N) :
  digit_free pre = true -> no_digit_first rest = true ->
  Z.of_N n <= exact_bound ->
  parsePrice (Some (pre ++ numeral n ++ rest)) = Z.of_N n.
Proof.
  intros Hpre Hrest _. rewrite parsePrice_first_run; try assumption.
  - apply numeral_value.
  - apply numeral_from_nonempty.
  - now apply numeral_from_digits.
Qed.

(** "¥80-120/人" is read as 80. *)
Lemma parsePrice_reads_the_first_numeral_witness :
  parsePrice (Some (165%N :: js "80-120/" ++ [20154%N])) = 80.
Proof.
  apply (parsePrice_reads_the_first_numeral [165%N] (js "-120/" ++ [20154%N]) 80).
  - reflexivity.
  - reflexivity.
  - vm_compute. discriminate.
Defined.

Lemma parsePrice_nonneg (o : option jsstring) : 0 <= parsePrice o.
Proof.
  unfold parsePrice. destruct (truthy_str o); cbn [negb]; [|lia].
  destruct o as [s|]; [|lia]. unfold match_digits.
  pose proof (take_digits_digits (skip_to_digit s)) as D.
  destruct (take_digits (skip_to_digit s)) as [|c ds] eqn:E; [lia|].
  now apply parseInt10_nonneg.
Qed.

Lemma skip_to_digit_none (s : jsstring) : digit_free s = true -> skip_to_digit s = [].
Proof.
  induction s as [|c s IH]; cbn; intros H; [reflexivity|].
  apply andb_true_iff in H as [Hc Hs]. apply negb_true_iff in Hc.
  rewrite Hc. now apply IH.
Qed.

(** X2. [parsePrice] never returns a negative amount, and it returns 0 for
    a missing price and for every text without a digit. *)
Theorem parsePrice_is_never_negative :
  (forall o, 0 <= parsePrice o) /\
  parsePrice None = 0 /\
  (forall s, digit_free s = true -> parsePrice (Some s) = 0).
Proof.
  split; [exact parsePrice_nonneg|]. split; [reflexivity|].
  intros s H. unfold parsePrice.
  destruct (truthy_str (Some s)); cbn [negb]; [|reflexivity].
  unfold match_digits. now rewrite skip_to_digit_none.
Qed.

Lemma parsePrice_is_never_negative_witness :
  parsePrice (Some (js "-")) = 0.
Proof.
  apply (proj2 (proj2 parsePrice_is_never_negative)). reflexivity.
Defined.

(** ** The cost of one point *)

Lemma ceil_half_mono (a b : Z) : a <= b -> ceil_half a <= ceil_half b.
Proof. unfold ceil_half. intros H. Z.div_mod_to_equations. lia. Qed.

Lemma ceil_half_nonneg (a : Z) : 0 <= a -> 0 <= ceil_half a.
Proof. unfold ceil_half. intros H. Z.div_mod_to_equations. lia. Qed.

Lemma calculatePointCost_mono (pt : LocationPoint) (T T' : Z) :
  0 <= T -> T <= T' ->
  0 <= calculatePointCost pt T /\ calculatePointCost pt T <= calculatePointCost pt T'.
Proof.
  intros H0 HT. unfold calculatePointCost.
  pose proof (parsePrice_nonneg (ticket_price pt)) as Pt.
  pose proof (parsePrice_nonneg (average_cost pt)) as Pa.
  pose proof (ceil_half_mono _ _ HT) as Hc.
  pose proof (ceil_half_nonneg _ H0) as Hc0.
  set (t := parsePrice (ticket_price pt)) in *.
  set (a := parsePrice (average_cost pt)) in *.
  set (r := ceil_half T) in *. set (r' := ceil_half T') in *.
  destruct (truthy_str (ticket_price pt) && negb (str_includes (ticket_price pt) free_marker));
    destruct (truthy_str (average_cost pt) && negb (str_includes (average_cost pt) free_marker));
    destruct (PointType_eqb (type pt) hotel);
    destruct (PointType_eqb (type pt) restaurant);
    destruct (PointType_eqb (type pt) parking && truthy_str (ticket_price pt));
    nia.
Qed.



(** X4. For every category but hotel and parking the cost of a point is
    proportional to the number of travelers, as long as the number of
    travelers and the cost stay within 2^53, where the products and the sum
    of [calculatePointCost] are exact. *)
Theorem point_cost_is_per_person (pt : LocationPoint) (T : Z) :
  type pt <> hotel -> type pt <> parking ->
  1 <= T <= exact_bound -> calculatePointCost pt T <= exact_bound ->
  calculatePointCost pt T = T * calculatePointCost pt 1.
Proof.
  intros Hh Hp _ _. unfold calculatePointCost.
  destruct (type pt); try congruence; cbn [PointType_eqb andb];
    destruct (truthy_str (ticket_price pt) && negb (str_includes (ticket_price pt) free_marker));
    destruct (truthy_str (average_cost pt) && negb (str_includes (average_cost pt) free_marker));
    lia.
Qed.

Lemma point_cost_is_per_person_witness :
  calculatePointCost (sample_point restaurant (Some yen20) (Some yen10)) 5
  = 5 * calculatePointCost (sample_point restaurant (Some yen20) (Some yen10)) 1.
Proof.
  apply (point_cost_is_per_person
           (sample_point restaurant (Some yen20) (Some yen10)) 5).
  - discriminate.
  - discriminate.
  - split; vm_compute; discriminate.
  - vm_compute. discriminate.
Defined.



(** ** The cost of a plan *)

Lemma costs_plus_0_r (a : Costs) : costs_plus a no_costs = a.
Proof. destruct a. unfold costs_plus, no_costs. cbn. f_equal; lia. Qed.

Lemma costs_plus_0_l (a : Costs) : costs_plus no_costs a = a.
Proof. destruct a. unfold costs_plus, no_costs. cbn. f_equal; lia. Qed.

Lemma costs_plus_assoc (a b c : Costs) :
  costs_plus (costs_plus a b) c = costs_plus a (costs_plus b c).
Proof. unfold costs_plus. cbn. f_equal; lia. Qed.

Lemma costs_plus_comm (a b : Costs) : costs_plus a b = costs_plus b a.
Proof. unfold costs_plus. f_equal; lia. Qed.

Lemma add_point_cost_plus (T : Z) (acc : Costs) (pt : LocationPoint) :
  add_point_cost T acc pt = costs_plus acc (add_point_cost T no_costs pt).
Proof.
  unfold add_point_cost, costs_plus, no_costs.
  destruct (type pt); cbn; f_equal; lia.
Qed.

Lemma fold_points_plus (T : Z) (ps : list LocationPoint) : forall acc,
  fold_left (add_point_cost T) ps acc
  = costs_plus acc (fold_left (add_point_cost T) ps no_costs).
Proof.
  induction ps as [|pt ps IH]; intros acc; cbn [fold_left].
  - now rewrite costs_plus_0_r.
  - rewrite IH, (IH (add_point_cost T no_costs pt)), add_point_cost_plus.
    apply costs_plus_assoc.
Qed.

Lemma add_day_cost_plus (T : Z) (acc : Costs) (d : DayItinerary) :
  add_day_cost T acc d = costs_plus acc (add_day_cost T no_costs d).
Proof.
  unfold add_day_cost.
  destruct (truthy_str (transportation_cost d)).
  - rewrite fold_points_plus. symmetry. rewrite fold_points_plus.
    rewrite <- costs_plus_assoc. f_equal.
    unfold costs_plus, no_costs. cbn. f_equal; lia.
  - apply fold_points_plus.
Qed.

Lemma fold_days_plus (T : Z) (ds : list DayItinerary) : forall acc,
  fold_left (add_day_cost T) ds acc
  = costs_plus acc (fold_left (add_day_cost T) ds no_costs).
Proof.
  induction ds as [|d ds IH]; intros acc; cbn [fold_left].
  - now rewrite costs_plus_0_r.
  - rewrite IH, (IH (add_day_cost T no_costs d)), add_day_cost_plus.
    apply costs_plus_assoc.
Qed.

Lemma fold_points_perm (T : Z) (ps ps' : list LocationPoint) :
  Permutation ps ps' ->
  forall acc, fold_left (add_point_cost T) ps acc = fold_left (add_point_cost T) ps' acc.
Proof.
  induction 1 as [|x l l' _ IH|x y l|l l' l'' _ IH1 _ IH2]; intros acc; cbn [fold_left].
  - reflexivity.
  - apply IH.
  - f_equal.
    rewrite (add_point_cost_plus T (add_point_cost T acc y) x), (add_point_cost_plus T acc y).
    rewrite (add_point_cost_plus T (add_point_cost T acc x) y), (add_point_cost_plus T acc x).
    rewrite !costs_plus_assoc. f_equal. apply costs_plus_comm.
  - now rewrite IH1.
Qed.

Lemma fold_days_perm (T : Z) (ds ds' : list DayItinerary) :
  Permutation ds ds' ->
  forall acc, fold_left (add_day_cost T) ds acc = fold_left (add_day_cost T) ds' acc.
Proof.
  induction 1 as [|x l l' _ IH|x y l|l l' l'' _ IH1 _ IH2]; intros acc; cbn [fold_left].
  - reflexivity.
  - apply IH.
  - f_equal.
    rewrite (add_day_cost_plus T (add_day_cost T acc y) x), (add_day_cost_plus T acc y).
    rewrite (add_day_cost_plus T (add_day_cost T acc x) y), (add_day_cost_plus T acc x).
    rewrite !costs_plus_assoc. f_equal. apply costs_plus_comm.
  - now rewrite IH1.
Qed.

Lemma fold_days_point_order (T : Z) (ds ds' : list DayItinerary) :
  same_days_up_to_point_order ds ds' ->
  forall acc, fold_left (add_day_cost T) ds acc = fold_left (add_day_cost T) ds' acc.
Proof.
  induction 1 as [|d d' ds ds' [E P] _ IH]; intros acc; cbn [fold_left]; [reflexivity|].
  rewrite IH. f_equal. unfold add_day_cost.
  rewrite (fold_points_perm T _ _ P).
  replace (transportation_cost d) with (transportation_cost d'); [reflexivity|].
  rewrite <- E. reflexivity.
Qed.

(** X6. As long as the number of travelers is at least 1 and the total
    stays within 2^53, where every sum of [calculateTotalCost] is exact: the
    budget of a plan is the sum of the budgets of its parts, and it does not
    depend on the order of the days nor on the order of the points inside a
    day. *)
Theorem total_cost_is_additive_and_order_free (p : TravelPlan) :
  1 <= travelers p <= exact_bound ->
  (forall ds1 ds2,
     total (calculateTotalCost (with_days p (ds1 ++ ds2))) <= exact_bound ->
     calculateTotalCost (with_days p (ds1 ++ ds2))
     = costs_plus (calculateTotalCost (with_days p ds1))
                  (calculateTotalCost (with_days p ds2))) /\
  (forall ds', total (calculateTotalCost p) <= exact_bound ->
     Permutation (days p) ds' ->
     calculateTotalCost (with_days p ds') = calculateTotalCost p) /\
  (forall ds', total (calculateTotalCost p) <= exact_bound ->
     same_days_up_to_point_order (days p) ds' ->
     calculateTotalCost (with_days p ds') = calculateTotalCost p).
Proof.
  intros _. unfold calculateTotalCost. cbn [days travelers with_days].
  fold no_costs. split; [|split].
  - intros ds1 ds2 _. rewrite fold_left_app. apply fold_days_plus.
  - intros ds' _ H. symmetry. now apply fold_days_perm.
  - intros ds' _ H. symmetry. now apply fold_days_point_order.
Qed.

Lemma total_cost_is_additive_and_order_free_witness :
  calculateTotalCost
    (with_days (sample_plan 2 [sample_day [sample_point hotel None (Some yen20)];
                               sample_day [sample_point parking (Some yen10) None]])
               [sample_day [sample_point parking (Some yen10) None];
                sample_day [sample_point hotel None (Some yen20)]])
  = calculateTotalCost
      (sample_plan 2 [sample_day [sample_point hotel None (Some yen20)];
                      sample_day [sample_point parking (Some yen10) None]]).
Proof.
  refine (proj1 (proj2 (total_cost_is_additive_and_order_free
           (sample_plan 2 [sample_day [sample_point hotel None (Some yen20)];
                           sample_day [sample_point parking (Some yen10) None]]) _)) _ _ _).
  - split; vm_compute; discriminate.
  - vm_compute. discriminate.
  - apply perm_swap.
Defined.

Lemma unbucketed_zero (T : Z) (ps : list LocationPoint) :
  forallb (fun pt => negb (PointType_eqb (type pt) start)
                     && negb (PointType_eqb (type pt) end_)) ps = true ->
  fold_left (fun a pt => a + unbucketed_point T pt) ps 0 = 0.
Proof.
  induction ps as [|pt ps IH]; cbn [forallb fold_left]; intros H; [reflexivity|].
  apply andb_true_iff in H as [Hpt Hps].
  replace (0 + unbucketed_point T pt) with 0; [now apply IH|].
  unfold unbucketed_point. destruct (type pt); try reflexivity; discriminate.
Qed.

(** X7. As long as the number of travelers is at least 1 and the total
    stays within 2^53, where every sum of [calculateTotalCost] is exact: the
    grand total is the sum of the four buckets plus the cost of the points
    of category start or end; for a plan without such points the four
    buckets add up to the total exactly. *)
Theorem buckets_add_up_without_start_and_end (p : TravelPlan) :
  1 <= travelers p <= exact_bound ->
  total (calculateTotalCost p) <= exact_bound ->
  total (calculateTotalCost p)
  = transport (calculateTotalCost p) + accom (calculateTotalCost p)
    + dining (calculateTotalCost p) + tickets (calculateTotalCost p)
    + fold_left (fun a d => a + unbucketed_day (travelers p) d) (days p) 0 /\
  (all_bucketed p = true ->
   total (calculateTotalCost p)
   = transport (calculateTotalCost p) + accom (calculateTotalCost p)
     + dining (calculateTotalCost p) + tickets (calculateTotalCost p)).
Proof.
  intros _ _.
  pose proof (total_is_buckets_plus_unbucketed p) as G. unfold buckets in G.
  split; [exact G|].
  intros H. rewrite G at 1.
  enough (E : fold_left (fun a d => a + unbucketed_day (travelers p) d) (days p) 0 = 0) by lia.
  unfold all_bucketed in H. clear G.
  induction (days p) as [|d ds IH]; cbn [forallb fold_left] in *; [reflexivity|].
  apply andb_true_iff in H as [Hd Hds].
  unfold unbucketed_day at 2. rewrite unbucketed_zero by assumption. now apply IH.
Qed.

Lemma buckets_add_up_without_start_and_end_witness :
  total (calculateTotalCost
           (sample_plan 2 [sample_day [sample_point hotel None (Some yen20);
                                       sample_point parking (Some yen10) None]])) = 50.
Proof.
  assert (B : 1 <= 2 <= exact_bound) by (split; vm_compute; discriminate).
  assert (C : total (calculateTotalCost
                       (sample_plan 2 [sample_day [sample_point hotel None (Some yen20);
                                                   sample_point parking (Some yen10) None]]))
              <= exact_bound) by (vm_compute; discriminate).
  rewrite (proj2 (buckets_add_up_without_start_and_end
             (sample_plan 2 [sample_day [sample_point hotel None (Some yen20);
                                         sample_point parking (Some yen10) None]]) B C)
             eq_refl).
  reflexivity.
Defined.

Lemma add_point_cost_ok (T : Z) (acc : Costs) (pt : LocationPoint) :
  0 <= T -> costs_ok acc -> costs_ok (add_point_cost T acc pt).
Proof.
  intros HT H. unfold costs_ok in *.
  destruct (calculatePointCost_mono pt T T HT ltac:(lia)) as [C _].
  unfold add_point_cost.
  destruct (type pt); cbn; lia.
Qed.

Lemma add_day_cost_ok (T : Z) (acc : Costs) (d : DayItinerary) :
  0 <= T -> costs_ok acc -> costs_ok (add_day_cost T acc d).
Proof.
  intros HT H. unfold add_day_cost.
  set (acc' := if truthy_str (transportation_cost d) then _ else acc).
  assert (H' : costs_ok acc').
  { subst acc'. pose proof (parsePrice_nonneg (transportation_cost d)).
    destruct (truthy_str (transportation_cost d)); [|assumption].
    unfold costs_ok in *. cbn. lia. }
  clearbody acc'. revert acc' H'.
  induction (points d) as [|pt ps IH]; intros acc' H'; cbn [fold_left]; [assumption|].
  apply IH. now apply add_point_cost_ok.
Qed.



(** ** Enrichment and the budget *)

Lemma fold_left_insert_same {A B} (f : B -> A -> B) (l : list A) (i : nat) (x y : A) :
  l !! i = Some x -> (forall b, f b y = f b x) ->
  forall b, fold_left f (<[i := y]> l) b = fold_left f l b.
Proof.
  revert i. induction l as [|a l IH]; intros [|i] Hx Hf b; cbn in *; try discriminate.
  - injection Hx as ->. now rewrite Hf.
  - now apply IH.
Qed.

Lemma merge_plan_cost (c : Completion) (p : TravelPlan) :
  calculateTotalCost (merge_plan c p) = calculateTotalCost p.
Proof.
  unfold calculateTotalCost, merge_plan, merge_days. cbn [days travelers with_days].
  destruct (days p !! c_day c) as [d|] eqn:Hd; [|reflexivity].
  destruct (points d !! c_point c) as [pt|] eqn:Hp; [|reflexivity].
  apply fold_left_insert_same with (x := d); [assumption|].
  intros b. unfold add_day_cost. cbn [transportation_cost points with_points].
  apply fold_left_insert_same with (x := pt); [assumption|].
  reflexivity.
Qed.

(** X9. Enrichment never changes the budget: whatever alternatives arrive,
    for whatever coordinates and in whatever order, the plan after the merges
    has the costs of the plan before them. *)
Theorem enrichment_keeps_the_budget (order : list Completion) (p : TravelPlan) :
  exists p', apply_completions order (Some p) = Some p' /\
             calculateTotalCost p' = calculateTotalCost p.
Proof.
  revert p. induction order as [|c order IH]; intros p.
  - exists p. split; reflexivity.
  - unfold apply_completions. cbn [fold_left]. rewrite apply_completion_Some.
    destruct (IH (merge_plan c p)) as (p' & Hrun & Hcost).
    exists p'. split; [exact Hrun|]. rewrite Hcost. apply merge_plan_cost.
Qed.

(** ** The submissions of a prefetch *)

Lemma in_prefetch_points (dIdx : nat) (ps : list LocationPoint) : forall pIdx r,
  In r (prefetch_points dIdx pIdx ps) <->
  pf_day r = dIdx /\ (pIdx <= pf_point r)%nat /\
  exists point, ps !! (pf_point r - pIdx)%nat = Some point /\
                pf_name r = name point /\ pf_type r = type point.
Proof.
  induction ps as [|pt ps IH]; intros pIdx r; cbn [prefetch_points In].
  - split; [contradiction|]. intros (_ & _ & point & H & _). discriminate.
  - rewrite IH. split.
    + intros [<-|(Hd & Hle & point & Hl & Hn & Ht)]; cbn.
      * split; [reflexivity|]. split; [lia|]. exists pt.
        rewrite Nat.sub_diag. repeat split.
      * split; [assumption|]. split; [lia|]. exists point.
        replace (pf_point r - pIdx)%nat with (S (pf_point r - S pIdx)) by lia.
        repeat split; assumption.
    + intros (Hd & Hle & point & Hl & Hn & Ht).
      destruct (decide (pf_point r = pIdx)) as [E|N].
      * left. rewrite E, Nat.sub_diag in Hl. injection Hl as <-.
        destruct r; cbn in *. congruence.
      * right. split; [assumption|]. split; [lia|]. exists point.
        replace (pf_point r - pIdx)%nat with (S (pf_point r - S pIdx)) in Hl by lia.
        repeat split; assumption.
Qed.

Lemma in_prefetch_days (ds : list DayItinerary) : forall dIdx r,
  In r (prefetch_days dIdx ds) <->
  (dIdx <= pf_day r)%nat /\
  exists d point, ds !! (pf_day r - dIdx)%nat = Some d /\
                  points d !! pf_point r = Some point /\
                  pf_name r = name point /\ pf_type r = type point.
Proof.
  induction ds as [|d ds IH]; intros dIdx r; cbn [prefetch_days].
  - split; [contradiction|]. intros (_ & d & point & H & _). discriminate.
  - rewrite in_app_iff, in_prefetch_points, IH. split.
    + intros [(Hd & _ & point & Hl & Hn & Ht)|(Hle & d' & point & Hd & Hl & Hn & Ht)].
      * split; [lia|]. exists d, point. rewrite Hd, Nat.sub_diag.
        rewrite Nat.sub_0_r in Hl. repeat split; assumption.
      * split; [lia|]. exists d', point.
        replace (pf_day r - dIdx)%nat with (S (pf_day r - S dIdx)) by lia.
        repeat split; assumption.
    + intros (Hle & d' & point & Hd & Hl & Hn & Ht).
      destruct (decide (pf_day r = dIdx)) as [E|N].
      * left. rewrite E, Nat.sub_diag in Hd. injection Hd as <-.
        split; [assumption|]. split; [lia|]. exists point.
        rewrite Nat.sub_0_r. repeat split; assumption.
      * right. split; [lia|]. exists d', point.
        replace (pf_day r - dIdx)%nat with (S (pf_day r - S dIdx)) in Hd by lia.
        repeat split; assumption.
Qed.

Lemma sorted_prefetch_points (dIdx : nat) (ps : list LocationPoint) : forall pIdx,
  StronglySorted coord_lt (map pf_coord (prefetch_points dIdx pIdx ps)).
Proof.
  induction ps as [|pt ps IH]; intros pIdx; cbn [prefetch_points map]; constructor.
  - apply IH.
  - apply List.Forall_forall. intros c Hc. apply in_map_iff in Hc as (r & <- & Hr).
    apply in_prefetch_points in Hr as (Hd & Hle & _).
    right. cbn. split; [congruence|lia].
Qed.

Lemma sorted_app (l1 l2 : list (nat * nat)) :
  StronglySorted coord_lt l1 -> StronglySorted coord_lt l2 ->
  (forall a b, In a l1 -> In b l2 -> coord_lt a b) ->
  StronglySorted coord_lt (l1 ++ l2).
Proof.
  induction 1 as [|a l1 S1 IH F1]; intros S2 H; cbn; [assumption|].
  constructor.
  - apply IH; [assumption|]. intros x y Hx Hy. apply H; [now right|assumption].
  - apply List.Forall_forall. intros c Hc. apply in_app_iff in Hc as [Hc|Hc].
    + rewrite List.Forall_forall in F1. now apply F1.
    + apply H; [now left|assumption].
Qed.

Lemma sorted_prefetch_days (ds : list DayItinerary) : forall dIdx,
  StronglySorted coord_lt (map pf_coord (prefetch_days dIdx ds)).
Proof.
  induction ds as [|d ds IH]; intros dIdx; cbn [prefetch_days map]; [constructor|].
  rewrite map_app. apply sorted_app; [apply sorted_prefetch_points|apply IH|].
  intros a b Ha Hb.
  apply in_map_iff in Ha as (r & <- & Hr). apply in_map_iff in Hb as (r' & <- & Hr').
  apply in_prefetch_points in Hr as (Hd & _). apply in_prefetch_days in Hr' as (Hle & _).
  left. cbn. lia.
Qed.

Lemma sorted_NoDup (l : list (nat * nat)) : StronglySorted coord_lt l -> List.NoDup l.
Proof.
  induction 1 as [|a l S IH F]; constructor; [|assumption].
  intros Hin. rewrite List.Forall_forall in F. specialize (F _ Hin).
  destruct F as [F|[_ F]]; lia.
Qed.

Lemma prefetch_NoDup (p : TravelPlan) :
  List.NoDup (map pf_coord (prefetchAlternatives p)).
Proof. apply sorted_NoDup, sorted_prefetch_days. Qed.

Lemma in_prefetch (p : TravelPlan) (r : Prefetch) :
  In r (prefetchAlternatives p) <->
  exists point, point_at p (pf_day r) (pf_point r) = Some point /\
                pf_name r = name point /\ pf_type r = type point.
Proof.
  unfold prefetchAlternatives, point_at. rewrite in_prefetch_days, Nat.sub_0_r. split.
  - intros (_ & d & point & Hd & Hl & Hn & Ht). exists point. rewrite Hd. auto.
  - intros (point & H & Hn & Ht). split; [lia|].
    destruct (days p !! pf_day r) as [d|]; [|discriminate].
    exists d, point. auto.
Qed.

Lemma length_prefetch_points (dIdx : nat) (ps : list LocationPoint) : forall pIdx,
  length (prefetch_points dIdx pIdx ps) = length ps.
Proof. induction ps as [|pt ps IH]; intros pIdx; cbn; [reflexivity|now rewrite IH]. Qed.

(** X10. [prefetchAlternatives] submits one task for every point of the plan
    and no other: the submissions are exactly the coordinates at which the
    plan has a point, each with the name and the category of that point, and
    no coordinate is submitted twice; they are made day by day and, inside a
    day, point by point. *)
Theorem prefetch_submits_every_point_once (p : TravelPlan) :
  (forall r, In r (prefetchAlternatives p) <->
     exists point, point_at p (pf_day r) (pf_point r) = Some point /\
                   pf_name r = name point /\ pf_type r = type point) /\
  List.NoDup (map pf_coord (prefetchAlternatives p)) /\
  StronglySorted coord_lt (map pf_coord (prefetchAlternatives p)) /\
  length (prefetchAlternatives p)
  = fold_left (fun n d => (n + length (points d))%nat) (days p) 0%nat.
Proof.
  split; [apply in_prefetch|]. split; [apply prefetch_NoDup|].
  split; [apply sorted_prefetch_days|].
  unfold prefetchAlternatives.
  assert (G : forall ds dIdx n,
    fold_left (fun n d => (n + length (points d))%nat) ds n
    = (n + length (prefetch_days dIdx ds))%nat).
  { induction ds as [|d ds IH]; intros dIdx n; cbn [fold_left prefetch_days length]; [lia|].
    rewrite (IH (S dIdx)), length_app, length_prefetch_points. lia. }
  now rewrite (G _ 0%nat 0%nat).
Qed.

(** ** The plan after a prefetch *)

Lemma in_completions_of alts (l : list Prefetch) (c : Completion) :
  In c (completions_of alts l) <->
  exists r, In r l /\ alts (pf_day r) (pf_point r) = Some (c_alts c) /\ coord c = pf_coord r.
Proof.
  induction l as [|r l IH]; cbn [completions_of In].
  - split; [contradiction|]. now intros (r & [] & _).
  - destruct (alts (pf_day r) (pf_point r)) as [a|] eqn:E.
    + cbn [In]. rewrite IH. split.
      * intros [<-|(r' & Hr & H)]; [exists r; cbn; auto|exists r'; auto].
      * intros (r' & [<-|Hr] & Ha & Hc).
        -- left. destruct c; cbn in *. injection Hc as -> ->. congruence.
        -- right. exists r'. auto.
    + rewrite IH. split.
      * intros (r' & Hr & H). exists r'. auto.
      * intros (r' & [<-|Hr] & Ha & Hc); [congruence|]. exists r'. auto.
Qed.

Lemma completions_of_NoDup alts (l : list Prefetch) :
  List.NoDup (map pf_coord l) -> List.NoDup (map coord (completions_of alts l)).
Proof.
  induction l as [|r l IH]; cbn [completions_of map]; intros ND.
  - constructor.
  - inversion ND as [|? ? Hnin ND']; subst.
    destruct (alts (pf_day r) (pf_point r)) as [a|] eqn:E; [|now apply IH].
    cbn [map]. constructor; [|now apply IH].
    intros Hin. apply Hnin. apply in_map_iff in Hin as (c & Hc & Hin).
    apply in_completions_of in Hin as (r' & Hr' & _ & Hcr).
    apply in_map_iff. exists r'. split; [|assumption].
    rewrite <- Hcr, Hc. reflexivity.
Qed.



(** ** A burst of submissions *)

Lemma process_from_full (q : list task) (w : World) :
  maxConcurrent <= activeCount w -> process_from q w = (inl tt, w).
Proof.
  intros H. apply Z.leb_le in H. destruct q; cbn [process_from]; now rewrite H.
Qed.

Lemma run_adds_full (fns : list task) : forall w,
  maxConcurrent <= activeCount w ->
  run (map Add fns) w
  = Some {| queue := queue w ++ fns; activeCount := activeCount w;
            awaiting := awaiting w; started := started w;
            finished := finished w; console := console w |}.
Proof.
  induction fns as [|fn fns IH]; intros w H; cbn [map run step].
  - rewrite app_nil_r. now destruct w.
  - unfold add, process. rewrite process_from_full by (cbn; assumption).
    rewrite IH by (cbn; assumption). cbn. now rewrite <- app_assoc.
Qed.

Lemma number_tasks_quiet (l : list Prefetch) : forall n,
  Forall (fun fn => throws_at_call fn = None) (number_tasks n l).
Proof.
  induction l as [|r l IH]; intros n; cbn [number_tasks]; constructor; [reflexivity|apply IH].
Qed.

Lemma burst_of_adds (fns : list task) :
  Forall (fun fn => throws_at_call fn = None) fns ->
  run (map Add fns) new_RequestQueue
  = Some {| queue := drop 2 fns; activeCount := Z.of_nat (length (take 2 fns));
            awaiting := take 2 fns; started := take 2 fns;
            finished := []; console := [] |}.
Proof.
  intros H.
  destruct fns as [|a [|b fns]].
  - reflexivity.
  - inversion H as [|? ? Ha _]; subst. cbn in Ha.
    cbn. unfold add, process, push. cbn. now rewrite Ha.
  - inversion H as [|? ? Ha H']; subst. inversion H' as [|? ? Hb _]; subst.
    cbn in Ha, Hb.
    change (map Add (a :: b :: fns)) with (Add a :: Add b :: map Add fns).
    cbn [run step].
    set (w1 := {| queue := []; activeCount := 1; awaiting := [a]; started := [a];
                  finished := []; console := [] |}).
    set (w2 := {| queue := []; activeCount := 2; awaiting := [a; b]; started := [a; b];
                  finished := []; console := [] |}).
    assert (E1 : add a new_RequestQueue = (inl tt, w1)).
    { unfold add, process, push. cbn. now rewrite Ha. }
    assert (E2 : add b w1 = (inl tt, w2)).
    { unfold add, process, push. cbn. now rewrite Hb. }
    rewrite E1, E2, run_adds_full by (cbn; unfold maxConcurrent; lia).
    reflexivity.
Qed.

(** X12. The burst of submissions of a prefetch, on a new queue: the tasks
    of the first two points are started at once, in order, and the others
    wait in submission order; nothing has failed or finished yet. *)
Theorem prefetch_starts_two_and_queues_the_rest (p : TravelPlan) :
  run (map Add (prefetch_tasks p)) new_RequestQueue
  = Some {| queue := drop 2 (prefetch_tasks p);
            activeCount := Z.of_nat (length (take 2 (prefetch_tasks p)));
            awaiting := take 2 (prefetch_tasks p);
            started := take 2 (prefetch_tasks p);
            finished := []; console := [] |} /\
  length (prefetch_tasks p) = length (prefetchAlternatives p).
Proof.
  split.
  - apply burst_of_adds, number_tasks_quiet.
  - unfold prefetch_tasks. generalize 0%nat.
    induction (prefetchAlternatives p) as [|r l IH]; intros n; cbn; [reflexivity|].
    now rewrite IH.
Qed.

(** ** Replies without a document *)

Lemma drop_spaces_blank (s : jsstring) :
  forallb is_js_space s = true -> drop_spaces s = [].
Proof.
  intros H. rewrite <- (app_nil_r s). now rewrite drop_spaces_all.
Qed.

(** X13. A reply that is empty or holds only white space is refused with
    the error of line 154: nothing is decoded and nothing is repaired. *)
Theorem blank_reply_is_refused (text : jsstring) :
  forallb is_js_space text = true -> extractJson text = Throw UnrecoverableFormat.
Proof.
  intros H. unfold extractJson, clean, trim.
  rewrite (drop_spaces_blank text H). reflexivity.
Qed.

Lemma blank_reply_is_refused_witness :
  extractJson [32%N; 10%N; 9%N] = Throw UnrecoverableFormat.
Proof. apply (blank_reply_is_refused [32%N; 10%N; 9%N]). reflexivity. Defined.

(** ** White space at the ends of a text *)

Lemma drop_spaces_before (a b : jsstring) (c : jschar) :
  is_js_space c = false -> drop_spaces (a ++ c :: b) = drop_spaces a ++ c :: b.
Proof.
  intros Hc. rewrite drop_spaces_app.
  destruct (drop_spaces a); [|reflexivity]. cbn. now rewrite Hc.
Qed.

(** What [trim] leaves of a text whose first and last characters other than
    white space are known. *)
Lemma trim_between (a m r : jsstring) (c z : jschar) :
  is_js_space c = false -> is_js_space z = false ->
  trim (a ++ c :: m ++ z :: r) = drop_spaces a ++ c :: m ++ z :: rev (drop_spaces (rev r)).
Proof.
  intros Hc Hz. unfold trim.
  rewrite drop_spaces_before by assumption.
  replace (rev (drop_spaces a ++ c :: m ++ z :: r))
    with (rev r ++ z :: rev (drop_spaces a ++ c :: m)).
  2:{ repeat (rewrite ?rev_app_distr; cbn [rev]). rewrite <- !app_assoc. reflexivity. }
  rewrite drop_spaces_before by assumption.
  rewrite rev_app_distr. cbn [rev]. rewrite rev_involutive, <- !app_assoc.
  reflexivity.
Qed.

Lemma trim_first (a b : jsstring) (c : jschar) :
  is_js_space c = false -> trim (a ++ c :: b) = drop_spaces a ++ trim (c :: b).
Proof.
  intros Hc. unfold trim.
  rewrite drop_spaces_before by assumption.
  cbn [drop_spaces]. rewrite Hc.
  rewrite rev_app_distr, drop_spaces_app.
  assert (E : exists y t, drop_spaces (rev (c :: b)) = y :: t).
  { cbn [rev]. rewrite drop_spaces_app.
    destruct (drop_spaces (rev b)); [cbn; rewrite Hc|]; eauto. }
  destruct E as (y & t & E). rewrite E.
  change (y :: t ++ rev (drop_spaces a)) with ((y :: t) ++ rev (drop_spaces a)).
  now rewrite rev_app_distr, rev_involutive.
Qed.

Lemma includes_suffix (l s p : jsstring) :
  includes (l ++ s) p = false -> includes s p = false.
Proof.
  induction l as [|c l IH]; [trivial|].
  cbn [app includes]. intros H. apply orb_false_iff in H. now apply IH.
Qed.

Lemma includes_no_infix (s p : jsstring) :
  includes s p = false -> forall l1 l2, s <> l1 ++ p ++ l2.
Proof. intros H l1 l2 E. rewrite E, includes_infix in H. discriminate. Qed.

(** ** The first fence and the next one *)

Lemma starts_with_fence_far (c : jschar) (x X : jsstring) :
  starts_with fence (c :: x ++ fence ++ X) = starts_with fence (c :: x ++ js "``").
Proof. destruct x as [|d [|e x]]; cbn; now rewrite ?andb_true_r. Qed.

Lemma after_first_fence (x X : jsstring) :
  no_fence_starts_in x = true -> after_first fence (x ++ fence ++ X) = Some X.
Proof.
  unfold no_fence_starts_in. rewrite negb_true_iff.
  induction x as [|c x IH]; intros H.
  - reflexivity.
  - cbn [app includes] in H. apply orb_false_iff in H as [H1 H2].
    cbn [app after_first]. rewrite starts_with_fence_far, H1. now apply IH.
Qed.

Lemma until_first_fence (x X : jsstring) :
  no_fence_starts_in x = true -> until_first fence (x ++ fence ++ X) = Some x.
Proof.
  unfold no_fence_starts_in. rewrite negb_true_iff.
  induction x as [|c x IH]; intros H.
  - reflexivity.
  - cbn [app includes] in H. apply orb_false_iff in H as [H1 H2].
    cbn [app until_first]. rewrite starts_with_fence_far, H1, IH by assumption.
    reflexivity.
Qed.

Lemma no_fence_starts_in_suffix (l s : jsstring) :
  no_fence_starts_in (l ++ s) = true -> no_fence_starts_in s = true.
Proof.
  unfold no_fence_starts_in. rewrite !negb_true_iff, <- app_assoc.
  apply includes_suffix.
Qed.

Lemma no_fence_starts_in_no_fence (s : jsstring) :
  no_fence_starts_in s = true -> no_fence s.
Proof.
  unfold no_fence_starts_in. rewrite negb_true_iff. intros H l1 l2 E.
  apply (includes_no_infix _ _ H l1 (l2 ++ js "``")).
  rewrite E, <- !app_assoc. reflexivity.
Qed.

(** ** Comments and the start of the document, on a clean text *)

Lemma strip_comments_trim (s : jsstring) :
  slashes_guarded s -> strip_comments (trim s) = trim s.
Proof.
  intros H. destruct (trim_split s) as (l & r & E & Hl & Hr).
  unfold strip_comments.
  apply (strip_comments_guarded _ false true); [|reflexivity].
  apply guarded_from_of_slashes. intros l1 l2 E1. right.
  refine (slashes_guarded_infix l (trim s) r Hl _ l1 l2 E1). now rewrite <- E.
Qed.

Lemma from_first_open_here (a b : jsstring) :
  forallb (fun c => negb (is_open c)) a = true -> starts_with_open b = true ->
  from_first_open (a ++ b) = Some b.
Proof.
  intros Ha Hb. induction a as [|c a IH]; cbn [app].
  - destruct b as [|c b]; [discriminate|]. cbn in Hb |- *. now rewrite Hb.
  - cbn [forallb] in Ha. apply andb_true_iff in Ha as [Hc Ha].
    apply negb_true_iff in Hc. cbn [from_first_open]. rewrite Hc. now apply IH.
Qed.

Lemma trim_starts_with_open (s : jsstring) :
  starts_with_open s = true -> starts_with_open (trim s) = true.
Proof.
  destruct s as [|c b]; [discriminate|]. cbn [starts_with_open]. intros Hc.
  unfold trim. cbn [drop_spaces]. rewrite (open_not_space c Hc).
  cbn [rev]. rewrite drop_spaces_snoc by now apply open_not_space.
  rewrite rev_app_distr. cbn. assumption.
Qed.

Lemma forallb_suffix {A} (f : A -> bool) (l s : list A) :
  forallb f (l ++ s) = true -> forallb f s = true.
Proof. rewrite forallb_app. intros H. now apply andb_true_iff in H. Qed.

(** X14. Prose before the document is dropped: when a reply without fence,
    in which every [//] follows a colon, has its first opening brace or
    bracket at the start of a valid document that runs to the end of the
    reply, [extractJson] returns the value of that document. *)
Theorem prose_before_the_document_is_dropped (prose doc : jsstring) (v : JValue) :
  forallb (fun c => negb (is_open c)) prose = true ->
  starts_with_open doc = true ->
  JSON_parse doc = Some v ->
  no_fence (prose ++ doc) -> slashes_guarded (prose ++ doc) ->
  extractJson (prose ++ doc) = Ok v.
Proof.
  intros Hp Ho Hv Hf Hs.
  destruct doc as [|c b]; [discriminate|]. cbn [starts_with_open] in Ho.
  pose proof (open_not_space c Ho) as Hc.
  assert (Hc' : clean (prose ++ c :: b) = trim (c :: b)).
  { unfold clean.
    destruct (trim_split (prose ++ c :: b)) as (l & r & E & Hl & Hr).
    rewrite codeBlockMatch_no_fence.
    2:{ apply (no_fence_infix l _ r). now rewrite <- E. }
    rewrite (strip_comments_trim _ Hs), trim_first by assumption.
    rewrite from_first_open_here; [reflexivity| |].
    - destruct (drop_spaces_split prose) as (l' & E' & _).
      rewrite E' in Hp. now apply forallb_suffix in Hp.
    - now apply (trim_starts_with_open (c :: b)). }
  unfold extractJson, parse_or_repair.
  now rewrite Hc', (JSON_parse_trim _ v Hv).
Qed.

Lemma prose_before_the_document_is_dropped_witness :
  extractJson (jq "Here is the plan: ['a', 1] ")
  = Ok (JArray [JString (js "a"); JNumber {| dneg := false; dmant := 1; dexp := 0 |}]).
Proof.
  apply (prose_before_the_document_is_dropped (js "Here is the plan: ") (jq "['a', 1] ")).
  - reflexivity.
  - reflexivity.
  - reflexivity.
  - exact (includes_no_infix (jq "Here is the plan: ['a', 1] ") fence eq_refl).
  - apply slashes_guarded_by_check. reflexivity.
Defined.

Lemma not_json_tag (c : jschar) (r : jsstring) :
  N.eqb 106 c = false -> starts_with (js "json") (c :: r) = false.
Proof.
  intros H. change (js "json") with [106%N; 115%N; 111%N; 110%N].
  cbn [starts_with]. unfold chr_eqb. now rewrite H.
Qed.

Lemma str_eqb_eq (a b : jsstring) : str_eqb a b = true -> a = b.
Proof.
  revert b. induction a as [|x a IH]; intros [|y b]; cbn; try discriminate; [reflexivity|].
  unfold chr_eqb. intros H. apply andb_true_iff in H as [E H].
  apply N.eqb_eq in E. subst y. f_equal. now apply IH.
Qed.

(** X15. A fenced block is taken for the reply, whatever surrounds it: when
    the first fence of the reply is followed by an optional [json] tag,
    optional white space and a valid document that starts with an opening
    brace or bracket, holds no fence and has every [//] after a colon, and
    that document is followed by a fence, [extractJson] returns the value of
    the document; the text before the first fence and after the second one is
    ignored. *)
Theorem fenced_block_is_decoded (pre lang ws doc post : jsstring) (v : JValue) :
  no_fence_starts_in pre = true ->
  is_fence_tag lang = true ->
  forallb is_js_space ws = true ->
  starts_with_open doc = true ->
  no_fence_starts_in doc = true ->
  slashes_guarded doc ->
  JSON_parse doc = Some v ->
  extractJson (pre ++ fence ++ lang ++ ws ++ doc ++ fence ++ post) = Ok v.
Proof.
  intros Hpre Hlang Hws Ho Hdoc Hs Hv.
  destruct doc as [|c b] eqn:Edoc; [discriminate|]. rewrite <- Edoc in *.
  assert (Hc : is_js_space c = false).
  { apply open_not_space. subst doc. exact Ho. }
  set (tail := rev (drop_spaces (rev post))).
  assert (T : trim (pre ++ fence ++ lang ++ ws ++ doc ++ fence ++ post)
              = drop_spaces pre ++ fence ++ lang ++ ws ++ doc ++ fence ++ tail).
  { pose proof (trim_between pre ([96%N; 96%N] ++ lang ++ ws ++ doc ++ [96%N; 96%N]) post
                  96%N 96%N eq_refl eq_refl) as E.
    rewrite <- !app_assoc in E. exact E. }
  assert (G : codeBlockMatch (drop_spaces pre ++ fence ++ lang ++ ws ++ doc ++ fence ++ tail)
              = Some doc).
  { unfold codeBlockMatch.
    rewrite after_first_fence.
    2:{ destruct (drop_spaces_split pre) as (l & E & _). rewrite E in Hpre.
        now apply no_fence_starts_in_suffix in Hpre. }
    assert (R : (if starts_with (js "json") (lang ++ ws ++ doc ++ fence ++ tail)
                 then skipn 4 (lang ++ ws ++ doc ++ fence ++ tail)
                 else lang ++ ws ++ doc ++ fence ++ tail)
                = ws ++ doc ++ fence ++ tail).
    { unfold is_fence_tag in Hlang. apply orb_true_iff in Hlang as [L|L].
      - destruct lang; [|discriminate]. cbn [app].
        destruct ws as [|w ws'].
        + rewrite Edoc. cbn [app]. rewrite not_json_tag; [reflexivity|].
          rewrite Edoc in Ho. cbn [starts_with_open] in Ho.
          destruct (N.eqb_spec 106 c) as [<-|]; [vm_compute in Ho; discriminate|reflexivity].
        + cbn [forallb] in Hws. apply andb_true_iff in Hws as [Hw _].
          cbn [app]. rewrite not_json_tag; [reflexivity|].
          destruct (N.eqb_spec 106 w) as [<-|]; [vm_compute in Hw; discriminate|reflexivity].
      - apply str_eqb_eq in L. subst lang.
        change (js "json") with [106%N; 115%N; 111%N; 110%N].
        cbn [app starts_with skipn]. unfold chr_eqb. now rewrite !N.eqb_refl. }
    rewrite R. rewrite drop_spaces_all by assumption.
    subst doc. cbn [app drop_spaces]. rewrite Hc.
    change (c :: b ++ fence ++ tail) with ((c :: b) ++ fence ++ tail).
    now apply until_first_fence. }
  assert (Hc' : clean (pre ++ fence ++ lang ++ ws ++ doc ++ fence ++ post) = trim doc).
  { unfold clean. rewrite T, G, Edoc. cbv iota. rewrite <- Edoc.
    rewrite (strip_comments_trim _ Hs).
    pose proof (from_first_open_here [] (trim doc) eq_refl
                  (trim_starts_with_open doc Ho)) as FO.
    cbn [app] in FO. now rewrite FO. }
  unfold extractJson, parse_or_repair.
  now rewrite Hc', (JSON_parse_trim _ v Hv).
Qed.

Lemma fenced_block_is_decoded_witness :
  extractJson (jq "Sure, `here` it is:" ++ [10%N] ++ js "```json" ++ [10%N]
               ++ jq "{'a': 'http://x'}" ++ [10%N] ++ js "```" ++ [10%N] ++ js "Enjoy {it}!")
  = Ok (JObject [(js "a", JString (js "http://x"))]).
Proof.
  apply (fenced_block_is_decoded
           (jq "Sure, `here` it is:" ++ [10%N]) (js "json") [10%N]
           (jq "{'a': 'http://x'}" ++ [10%N]) ([10%N] ++ js "Enjoy {it}!")).
  - reflexivity.
  - reflexivity.
  - reflexivity.
  - reflexivity.
  - reflexivity.
  - apply slashes_guarded_by_check. reflexivity.
  - reflexivity.
Defined.

(** ** A comma too many before a closer *)

Lemma js_space_inert (c : jschar) : is_js_space c = true -> scan_inert c = true.
Proof. intros H. each_space H; reflexivity. Qed.

Lemma scan_spaces_inert (ws : jsstring) (sc : scan_state) :
  isEscaped sc = false -> inString sc = false -> forallb is_js_space ws = true ->
  fold_left scan_char ws sc = sc.
Proof.
  intros He Hi. induction ws as [|c ws IH]; cbn [forallb fold_left]; intros H; [reflexivity|].
  apply andb_true_iff in H as [Hc H].
  rewrite scan_char_inert by (try assumption; now apply js_space_inert). now apply IH.
Qed.

Lemma closer_not_space (c : jschar) : is_closer c = true -> is_js_space c = false.
Proof.
  unfold is_closer. intros H. apply orb_true_iff in H.
  destruct H as [H|H]; apply N.eqb_eq in H; subst c; reflexivity.
Qed.

(** After a comma the automaton takes white space only, then a value or a
    key: a closer is refused. *)
Lemma no_closer_after_comma (st : pstate) (ws rest : jsstring) (cl : jschar) :
  after_comma_mode (pmode st) = true -> forallb is_js_space ws = true ->
  is_closer cl = true -> feed st (ws ++ cl :: rest) = None.
Proof.
  intros M Hws Hcl. revert st M.
  induction ws as [|c ws IH]; intros st M; cbn [app feed].
  - replace (pstep st cl) with (@None pstate); [reflexivity|].
    destruct st as [stk m]. destruct m as [[|]|[|]| | | | | |]; try discriminate M;
      unfold is_closer in Hcl; apply orb_true_iff in Hcl;
      destruct Hcl as [E|E]; apply N.eqb_eq in E; subst cl; reflexivity.
  - cbn [forallb] in Hws. apply andb_true_iff in Hws as [Hc Hws].
    destruct (pstep st c) as [st1|] eqn:P; [|reflexivity].
    assert (st1 = st) as ->.
    { destruct st as [stk m]. unfold pstep in P. cbn [pmode stack] in P.
      destruct m as [[|]|[|]| | | | | |]; try discriminate M.
      - rewrite value_step_space in P by assumption.
        destruct (is_json_ws c); [now injection P as <-|discriminate].
      - rewrite key_step_space in P by assumption.
        destruct (is_json_ws c); [now injection P as <-|discriminate]. }
    now apply IH.
Qed.

(** The cleanup of commas before closers, on a text that has one such comma
    and no other. *)
Lemma remove_commas_one (ws z : jsstring) (cl : jschar) (x : jsstring) :
  forallb is_js_space ws = true -> is_closer cl = true ->
  (comma_closer_free (x ++ cl :: z) = true ->
   remove_commas_from None (x ++ c_comma :: ws ++ cl :: z) = x ++ cl :: z) /\
  (forall w, closer_next (x ++ cl :: z) = false -> comma_closer_free (x ++ cl :: z) = true ->
     remove_commas_from (Some w) (x ++ c_comma :: ws ++ cl :: z) = c_comma :: w ++ x ++ cl :: z).
Proof.
  intros Hws Hcl.
  assert (S : forall w, comma_closer_free z = true ->
            remove_commas_from (Some w) (ws ++ cl :: z) = cl :: z).
  { clear x. induction ws as [|c ws IH]; intros w Fz.
    - cbn [app remove_commas_from]. rewrite (closer_not_space cl Hcl), Hcl.
      now rewrite (proj1 (remove_commas_idle z) Fz).
    - cbn [forallb] in Hws. apply andb_true_iff in Hws as [Hc Hws].
      cbn [app remove_commas_from]. rewrite Hc. now apply IH. }
  induction x as [|c x [IH1 IH2]]; (split; [intros F | intros w N F]).
  - cbn [app remove_commas_from]. rewrite N.eqb_refl. apply S.
    cbn [app comma_closer_free] in F. apply andb_true_iff in F. now destruct F.
  - cbn [app closer_next] in N. rewrite (closer_not_space cl Hcl), Hcl in N. discriminate.
  - cbn [app comma_closer_free] in F. apply andb_true_iff in F. destruct F as [F1 F2].
    cbn [app remove_commas_from]. destruct (N.eqb_spec c c_comma) as [->|].
    + cbn [andb negb] in F1. apply negb_true_iff in F1.
      rewrite IH2 by assumption. reflexivity.
    + now rewrite (IH1 F2).
  - cbn [app comma_closer_free] in F. apply andb_true_iff in F. destruct F as [F1 F2].
    cbn [app closer_next] in N. cbn [app remove_commas_from].
    destruct (is_js_space c).
    + rewrite IH2 by assumption. now rewrite <- app_assoc.
    + rewrite N. destruct (N.eqb_spec c c_comma) as [->|].
      * cbn [andb negb] in F1. apply negb_true_iff in F1.
        rewrite IH2 by assumption. reflexivity.
      * now rewrite (IH1 F2).
Qed.

Lemma last_nonspace_after (a z : jsstring) (cl : jschar) :
  is_js_space cl = false ->
  last_nonspace (a ++ cl :: z) = last_nonspace (cl :: z).
Proof.
  intros Hcl. induction a as [|c a IH]; [reflexivity|].
  cbn [app]. rewrite last_nonspace_cons, IH.
  rewrite (last_nonspace_cons cl z), Hcl.
  now destruct (last_nonspace z).
Qed.

Lemma finish_state (st : pstate) (v : JValue) :
  finish st = Some v ->
  stack st = [] /\ in_string (pmode st) = false /\ after_comma_mode (pmode st) = false.
Proof.
  destruct st as [stk m]. unfold finish. cbn [pmode stack].
  destruct m; try discriminate; destruct stk; try discriminate; auto.
Qed.

(** X16. A comma too many before a closing brace or bracket is repaired:
    when the cleaned reply is a valid document with one comma (and optional
    white space) inserted before one of its closing braces or brackets, at a
    place outside every string, and the document has no comma before a closer
    inside its strings either, the direct decoding fails and [extractJson]
    returns the value of the document. *)
Theorem comma_before_closer_is_repaired
    (text x ws z : jsstring) (cl : jschar) (v : JValue) :
  JSON_parse (x ++ cl :: z) = Some v ->
  is_closer cl = true ->
  forallb is_js_space ws = true ->
  inString (scan x) = false ->
  comma_closer_free (x ++ cl :: z) = true ->
  clean text = x ++ c_comma :: ws ++ cl :: z ->
  JSON_parse (clean text) = None /\ extractJson text = Ok v.
Proof.
  intros Hv Hcl Hws Hin Hfree Hclean.
  unfold JSON_parse in Hv. rewrite feed_app in Hv.
  destruct (feed pstart x) as [st|] eqn:Fx; [|discriminate].
  destruct (feed st (cl :: z)) as [stf|] eqn:Fz; [|discriminate].
  pose proof (feed_start_wf _ _ Fx) as Wf.
  destruct (scan_agrees_feed x st Fx) as (A1 & A2 & A3).
  assert (Hesc : isEscaped (scan x) = false).
  { rewrite A3. rewrite Hin in A2. destruct (pmode st); try reflexivity; discriminate. }
  (* the direct decoding stops at the closer *)
  assert (D : JSON_parse (x ++ c_comma :: ws ++ cl :: z) = None).
  { unfold JSON_parse. rewrite feed_app, Fx. cbn [feed].
    destruct (pstep st c_comma) as [st1|] eqn:Pc; [|reflexivity].
    pose proof (pstep_agrees (scan x) st st1 c_comma Wf (conj A1 (conj A2 A3)) Pc) as (_ & B2 & _).
    rewrite scan_char_inert in B2 by (try assumption; reflexivity).
    destruct (comma_step st st1 Wf Pc) as [H|[H _]].
    - rewrite <- B2, Hin in H. discriminate.
    - now rewrite no_closer_after_comma. }
  (* the scan of the reply is the scan of the document *)
  assert (Sc : scan (x ++ c_comma :: ws ++ cl :: z) = scan (x ++ cl :: z)).
  { unfold scan. rewrite !fold_left_app. cbn [fold_left]. fold (scan x).
    rewrite scan_char_inert by (try assumption; reflexivity).
    rewrite fold_left_app, (scan_spaces_inert ws) by assumption. reflexivity. }
  assert (Fd : feed pstart (x ++ cl :: z) = Some stf) by now rewrite feed_app, Fx.
  destruct (finish_state stf v Hv) as (S1 & S2 & S3).
  destruct (scan_agrees_feed _ stf Fd) as (C1 & C2 & _).
  rewrite S1 in C1. rewrite S2 in C2. cbn [map] in C1.
  assert (L : last_nonspace (x ++ c_comma :: ws ++ cl :: z) <> Some c_comma).
  { replace (x ++ c_comma :: ws ++ cl :: z) with ((x ++ c_comma :: ws) ++ cl :: z)
      by (rewrite <- app_assoc; reflexivity).
    rewrite last_nonspace_after by now apply closer_not_space.
    rewrite <- (last_nonspace_after x) by now apply closer_not_space.
    apply (no_trailing_comma _ stf Fd). now rewrite S2, S3. }
  assert (R : repair (x ++ c_comma :: ws ++ cl :: z) = x ++ cl :: z).
  { unfold repair. rewrite Sc, C1, C2.
    rewrite (strip_trailing_comma_idle _ L), app_nil_r.
    now apply (remove_commas_one ws z cl x Hws Hcl). }
  split; [now rewrite Hclean|].
  unfold extractJson, parse_or_repair. rewrite Hclean, D, R.
  unfold JSON_parse. now rewrite Fd, Hv.
Qed.

(** [{"days":[{"n":1},],"title":"t"}]: the comma after the only day. *)
Lemma comma_before_closer_is_repaired_witness :
  extractJson (jq "{'days':[{'n':1}, ],'title':'t'}")
  = Ok (JObject [(js "days", JArray [JObject [(js "n",
                    JNumber {| dneg := false; dmant := 1; dexp := 0 |})]]);
                 (js "title", JString (js "t"))]).
Proof.
  refine (proj2 (comma_before_closer_is_repaired
           (jq "{'days':[{'n':1}, ],'title':'t'}")
           (jq "{'days':[{'n':1}") (js " ") (jq ",'title':'t'}") c_rbracket _
           _ _ _ _ _ _)); reflexivity.
Defined.

(** ** The readers of a reply *)

Lemma extractJson_error (t : jsstring) (e : error) :
  extractJson t = Throw e -> e = UnrecoverableFormat.
Proof.
  unfold extractJson, parse_or_repair.
  destruct (JSON_parse (clean t)); [discriminate|].
  destruct (JSON_parse (repair (clean t))); [discriminate|].
  now intros [= <-].
Qed.

(** X17. [recommendDestinations] returns a list whenever the reply can be
    decoded, the list of the reply when the reply is one and the empty list
    for every other reply, [null] included; it throws only the error of
    [extractJson]. *)
Theorem recommendDestinations_returns_a_list (t : jsstring) :
  (forall data, extractJson t = Ok data ->
     exists l, recommendDestinations t = Ok (JArray l) /\
               (forall l', data = JArray l' -> l = l') /\
               ((forall l', data <> JArray l') -> l = [])) /\
  (forall e, recommendDestinations t = Throw e ->
     e = UnrecoverableFormat /\ extractJson t = Throw e).
Proof.
  unfold recommendDestinations. split.
  - intros data ->. destruct data as [| | | |l|];
      try (exists []; split; [reflexivity|]; split; [discriminate|reflexivity]).
    exists l. split; [reflexivity|]. split; [now intros l' [= ->]|].
    intros H. now destruct (H l).
  - intros e H. destruct (extractJson t) as [data|e'] eqn:E; [discriminate|].
    injection H as ->. split; [|reflexivity]. now apply (extractJson_error t).
Qed.

Lemma recommendDestinations_returns_a_list_witness :
  recommendDestinations (jq "{'cities':['a']}") = Ok (JArray []).
Proof.
  destruct (proj1 (recommendDestinations_returns_a_list (jq "{'cities':['a']}"))
              (JObject [(js "cities", JArray [JString (js "a")])]) eq_refl)
    as (l & E & _ & H).
  rewrite E. f_equal. f_equal. apply H. discriminate.
Defined.

(** X18. [getAlternativePoints] throws a TypeError exactly when the reply
    decodes to [null]; a reply that is a list is returned as it is, and for
    every other reply the result is its [alternatives] property when that is
    truthy (whatever it is) and the empty list otherwise. *)
Theorem getAlternativePoints_on_each_reply (t : jsstring) :
  (getAlternativePoints t = Throw TypeError <-> extractJson t = Ok JNull) /\
  (forall l, extractJson t = Ok (JArray l) -> getAlternativePoints t = Ok (JArray l)) /\
  (forall data, extractJson t = Ok data -> data <> JNull -> (forall l, data <> JArray l) ->
     getAlternativePoints t
     = Ok (js_or (member (js "alternatives") data) (JArray []))).
Proof.
  unfold getAlternativePoints. split; [|split].
  - split.
    + destruct (extractJson t) as [data|e] eqn:E.
      * destruct data; try discriminate. reflexivity.
      * intros [= ->]. now apply extractJson_error in E.
    + now intros ->.
  - now intros l ->.
  - intros data -> Hn Hl. destruct data; try reflexivity.
    + now destruct Hn.
    + now destruct (Hl l).
Qed.

Lemma getAlternativePoints_on_each_reply_witness :
  getAlternativePoints (js "null") = Throw TypeError /\
  getAlternativePoints (jq "{'alternatives':'none'}") = Ok (JString (js "none")).
Proof.
  split.
  - apply (proj1 (getAlternativePoints_on_each_reply (js "null"))). reflexivity.
  - apply (proj2 (proj2 (getAlternativePoints_on_each_reply (jq "{'alternatives':'none'}")))
             (JObject [(js "alternatives", JString (js "none"))])).
    + reflexivity.
    + discriminate.
    + discriminate.
Defined.

(** X19. [generateTravelPlan] accepts every reply that can be decoded but
    [null], for which it throws a TypeError; a reply that is not an object (a
    number, a string, a boolean, a list) gives a plan with the title made of
    the two end points and with no days. *)
Theorem generateTravelPlan_on_each_reply
    (params : Params) (now t : jsstring) (data : JValue) :
  extractJson t = Ok data ->
  (data = JNull -> generateTravelPlan params now t = Throw TypeError) /\
  (data <> JNull -> exists plan, generateTravelPlan params now t = Ok plan) /\
  (data <> JNull -> (forall ms, data <> JObject ms) ->
     exists plan, generateTravelPlan params now t = Ok plan /\
       g_title plan = JString (fallback_title (p_start params) (p_end params)) /\
       g_days plan = JArray []).
Proof.
  intros E. unfold generateTravelPlan. rewrite E. split; [|split].
  - now intros ->.
  - intros Hn. destruct data; try (eexists; reflexivity). now destruct Hn.
  - intros Hn Ho. destruct data; try (eexists; split; [reflexivity|split; reflexivity]).
    + now destruct Hn.
    + now destruct (Ho members).
Qed.

Lemma generateTravelPlan_on_each_reply_witness :
  exists plan, generateTravelPlan (sample_params 3) (js "0") (js "42") = Ok plan /\
    g_title plan = JString (fallback_title (js "A") (js "B")) /\ g_days plan = JArray [].
Proof.
  apply (proj2 (proj2 (generateTravelPlan_on_each_reply (sample_params 3) (js "0") (js "42")
           (JNumber {| dneg := false; dmant := 42; dexp := 0 |}) eq_refl)));
    discriminate.
Defined.

(** ** The call to the model *)

Lemma js_or_truthy (c : option JValue) (d : JValue) :
  truthy (Some (js_or c d)) = true \/ js_or c d = d.
Proof.
  unfold js_or. destruct c as [x|]; [|now right].
  destruct (truthy (Some x)) eqn:T; [now left|now right].
Qed.

(** X20. [callOpenAICompatible] never returns an empty content: what it
    returns is truthy, comes from an answer with an ok status and was read at
    [choices[0].message.content] of its body, and nothing is logged then;
    every failure is logged once with [console.error] and thrown again; an
    answer whose status is not ok fails with the status and the body in the
    message, whatever the body holds. *)
Theorem call_returns_content_or_throws (ex : Exchange) :
  (forall content log, callOpenAICompatible ex = (inl content, log) ->
     truthy (Some content) = true /\ log = [] /\
     exists status body data,
       ex = Answer true status body /\ JSON_parse body = Some data /\
       content_of data = inl (Some content)) /\
  (forall error log, callOpenAICompatible ex = (inr error, log) -> log = [error]) /\
  (forall status body, ex = Answer false status body ->
     callOpenAICompatible ex
     = (inr (RequestFailed (request_failed status body)),
        [RequestFailed (request_failed status body)])).
Proof.
  unfold callOpenAICompatible. split; [|split].
  - intros content log H.
    destruct (call_body ex) as [c|e] eqn:B; [|discriminate].
    injection H as <- <-. unfold call_body in B.
    destruct ex as [reason|ok status body]; [discriminate|].
    destruct ok; cbn [negb] in B; [|discriminate].
    destruct (JSON_parse body) as [data|] eqn:P; [|discriminate].
    destruct (content_of data) as [o|e] eqn:C; [|discriminate].
    destruct (truthy (Some (js_or o (JString [])))) eqn:T; cbn [negb] in B; [|discriminate].
    injection B as <-. split; [assumption|]. split; [reflexivity|].
    exists status, body, data. split; [reflexivity|]. split; [assumption|].
    rewrite C. do 2 f_equal.
    unfold js_or in *. destruct o as [x|]; [|discriminate T].
    destruct (truthy (Some x)); [reflexivity|discriminate T].
  - intros error log H. destruct (call_body ex); [discriminate|].
    now injection H as <- <-.
  - intros status body ->. reflexivity.
Qed.

Lemma call_returns_content_or_throws_witness :
  callOpenAICompatible (Answer false 429 (js "slow down"))
  = (inr (RequestFailed (js "API Request Failed: 429 - slow down")),
     [RequestFailed (js "API Request Failed: 429 - slow down")]).
Proof.
  exact (proj2 (proj2 (call_returns_content_or_throws
                         (Answer false 429 (js "slow down"))))
           429%N (js "slow down") eq_refl).
Defined.

(** ** Settings *)

Lemma last_member_app (k : jsstring) (a b : list (jsstring * JValue)) :
  last_member k (a ++ b) =
  match last_member k b with
  | Some v => Some v
  | None => last_member k a
  end.
Proof.
  induction a as [|[k' v] a IH]; cbn [app last_member].
  - now destruct (last_member k b).
  - rewrite IH. destruct (last_member k b); [reflexivity|].
    reflexivity.
Qed.

Lemma getSettings_stored_object (s : jsstring) (ms : list (jsstring * JValue)) :
  JSON_parse s = Some (JObject ms) ->
  snd (getSettings (Item (Some s))) = [] /\
  forall k, last_member k (fst (getSettings (Item (Some s))))
            = match last_member k ms with
              | Some v => Some v
              | None => last_member k DEFAULT_SETTINGS
              end.
Proof.
  intros P. unfold getSettings.
  destruct s as [|c s]; [discriminate P|]. cbn [truthy_str]. rewrite P.
  cbn [fst snd own_entries]. split; [reflexivity|].
  intros k. apply last_member_app.
Qed.

(** X21. [getSettings] never throws.  It returns the default settings when
    the storage cannot be read, holds nothing or an empty text, or holds a
    text that is not JSON, with a warning in the first and the last case
    only; when the storage holds a JSON object, each setting is the one of
    that object if it has one of that name (even [null]), the default one
    otherwise. *)
Theorem getSettings_merges_stored_over_defaults :
  (forall reason, getSettings (StorageFails reason)
                  = (DEFAULT_SETTINGS, [StorageWarning reason])) /\
  getSettings (Item None) = (DEFAULT_SETTINGS, []) /\
  getSettings (Item (Some [])) = (DEFAULT_SETTINGS, []) /\
  (forall s, JSON_parse s = None -> s <> [] ->
     getSettings (Item (Some s)) = (DEFAULT_SETTINGS, [SyntaxWarning])) /\
  (forall s ms, JSON_parse s = Some (JObject ms) ->
     snd (getSettings (Item (Some s))) = [] /\
     forall k, last_member k (fst (getSettings (Item (Some s))))
               = match last_member k ms with
                 | Some v => Some v
                 | None => last_member k DEFAULT_SETTINGS
                 end).
Proof.
  split; [reflexivity|]. split; [reflexivity|]. split; [reflexivity|]. split.
  - intros s P Hs. unfold getSettings.
    destruct s; [congruence|]. cbn [truthy_str]. now rewrite P.
  - apply getSettings_stored_object.
Qed.

Lemma getSettings_merges_stored_over_defaults_witness :
  last_member (js "model") (fst (getSettings (Item (Some (jq "{'model':'m2'}")))))
  = Some (JString (js "m2")) /\
  last_member (js "baseUrl") (fst (getSettings (Item (Some (jq "{'model':'m2'}")))))
  = Some (JString (js "https://api.grsai.com/v1/chat/completions")).
Proof.
  destruct (proj2 (proj2 (proj2 (proj2 getSettings_merges_stored_over_defaults)))
              (jq "{'model':'m2'}") [(js "model", JString (js "m2"))] eq_refl)
    as [_ H].
  split; rewrite H; reflexivity.
Defined.

(** ** Settings written and read back *)

Lemma hex_val_hex_digit (d : N) : (d < 16)%N -> hex_val (hex_digit d) = Some d.
Proof.
  intros H. unfold hex_digit, hex_val.
  destruct (N.ltb_spec d 10) as [L|L].
  - replace (is_digit (48 + d)%N) with true
      by (symmetry; apply is_digit_range; lia).
    f_equal. lia.
  - replace (is_digit (87 + d)%N) with false.
    2:{ symmetry. destruct (is_digit (87 + d)%N) eqn:E; [|reflexivity].
        apply is_digit_range in E. lia. }
    replace (N.leb 97 (87 + d)%N && N.leb (87 + d)%N 102) with true.
    2:{ symmetry. apply andb_true_iff. split; apply N.leb_le; lia. }
    f_equal. lia.
Qed.

Lemma feed_unicode_escape (k : bool) (acc : jsstring) (stk : list frame) (c : jschar) :
  (c < 65536)%N ->
  feed {| stack := stk; pmode := MStr k acc ENone |} (unicode_escape c)
  = Some {| stack := stk; pmode := MStr k (c :: acc) ENone |}.
Proof.
  intros H. unfold unicode_escape.
  assert (H3 : (c / 4096 < 16)%N) by (apply N.Div0.div_lt_upper_bound; lia).
  assert (H2 : ((c / 256) mod 16 < 16)%N) by (apply N.mod_upper_bound; lia).
  assert (H1 : ((c / 16) mod 16 < 16)%N) by (apply N.mod_upper_bound; lia).
  assert (H0 : (c mod 16 < 16)%N) by (apply N.mod_upper_bound; lia).
  cbn [feed]. unfold pstep, str_step. cbn [pmode stack].
  change (N.eqb c_backslash c_quote) with false.
  change (N.eqb c_backslash c_backslash) with true.
  cbn [pmode stack]. change (N.eqb 117 117) with true. cbn [pmode stack].
  rewrite !hex_val_hex_digit by assumption.
  cbn [app length Nat.eqb pmode stack fold_left].
  do 4 f_equal.
  pose proof (N.div_mod c 16 ltac:(lia)).
  pose proof (N.div_mod (c / 16) 16 ltac:(lia)).
  pose proof (N.div_mod (c / 256) 16 ltac:(lia)).
  assert (c / 16 / 16 = c / 256)%N by (rewrite N.Div0.div_div; reflexivity).
  assert (c / 256 / 16 = c / 4096)%N by (rewrite N.Div0.div_div; reflexivity).
  assert ((c / 4096) mod 16 = c / 4096)%N by (apply N.mod_small; assumption).
  lia.
Qed.

Lemma feed_literal (k : bool) (acc : jsstring) (stk : list frame) (c : jschar) :
  (32 <= c)%N -> c <> c_quote -> c <> c_backslash ->
  pstep {| stack := stk; pmode := MStr k acc ENone |} c
  = Some {| stack := stk; pmode := MStr k (c :: acc) ENone |}.
Proof.
  intros H Hq Hb. unfold pstep, str_step. cbn [pmode stack].
  destruct (N.eqb_spec c c_quote); [contradiction|].
  destruct (N.eqb_spec c c_backslash); [contradiction|].
  destruct (N.ltb_spec c 32); [lia|reflexivity].
Qed.

Lemma feed_quote_char (k : bool) (acc : jsstring) (stk : list frame) (c : jschar) :
  (c < 65536)%N ->
  feed {| stack := stk; pmode := MStr k acc ENone |} (quote_char c)
  = Some {| stack := stk; pmode := MStr k (c :: acc) ENone |}.
Proof.
  intros H. unfold quote_char.
  destruct (N.eqb_spec c 8) as [->|]; [reflexivity|].
  destruct (N.eqb_spec c 9) as [->|]; [reflexivity|].
  destruct (N.eqb_spec c 10) as [->|]; [reflexivity|].
  destruct (N.eqb_spec c 12) as [->|]; [reflexivity|].
  destruct (N.eqb_spec c 13) as [->|]; [reflexivity|].
  destruct (N.eqb_spec c 34) as [->|]; [reflexivity|].
  destruct (N.eqb_spec c 92) as [->|]; [reflexivity|].
  destruct (N.ltb_spec c 32).
  - now apply feed_unicode_escape.
  - cbn [feed]. rewrite feed_literal; [reflexivity|lia|assumption|assumption].
Qed.

Lemma surrogate_literal (c : jschar) :
  is_high_surrogate c || is_low_surrogate c = true ->
  (32 <= c)%N /\ c <> c_quote /\ c <> c_backslash.
Proof.
  unfold is_high_surrogate, is_low_surrogate, c_quote, c_backslash. intros H.
  apply orb_true_iff in H.
  destruct H as [H|H]; apply andb_true_iff in H as [H1 H2];
    apply N.leb_le in H1; apply N.leb_le in H2; lia.
Qed.

Lemma feed_quote_body (n : nat) : forall (s : jsstring) k acc stk,
  (length s <= n)%nat -> code_units s = true ->
  feed {| stack := stk; pmode := MStr k acc ENone |} (quote_body s)
  = Some {| stack := stk; pmode := MStr k (rev s ++ acc) ENone |}.
Proof.
  induction n as [|n IH]; intros s k acc stk L U.
  - destruct s; [reflexivity|cbn in L; lia].
  - destruct s as [|c r]; [reflexivity|].
    cbn [code_units forallb] in U. apply andb_true_iff in U as [Uc Ur].
    apply N.ltb_lt in Uc. cbn [length] in L.
    assert (Tail : forall pre,
      feed {| stack := stk; pmode := MStr k acc ENone |} pre
      = Some {| stack := stk; pmode := MStr k (c :: acc) ENone |} ->
      feed {| stack := stk; pmode := MStr k acc ENone |} (pre ++ quote_body r)
      = Some {| stack := stk; pmode := MStr k (rev (c :: r) ++ acc) ENone |}).
    { intros pre Hpre. rewrite feed_app, Hpre, IH by (try assumption; lia).
      cbn [rev]. now rewrite <- app_assoc. }
    cbn [quote_body].
    destruct (is_high_surrogate c) eqn:Hh.
    + destruct r as [|d r'].
      * rewrite feed_unicode_escape by assumption. reflexivity.
      * destruct (is_low_surrogate d) eqn:Hl.
        -- cbn [code_units forallb] in Ur. apply andb_true_iff in Ur as [Ud Ur'].
           destruct (surrogate_literal c) as (C1 & C2 & C3); [now rewrite Hh|].
           destruct (surrogate_literal d) as (D1 & D2 & D3);
             [rewrite Hl; apply orb_true_r|].
           cbn [feed]. rewrite feed_literal by assumption.
           rewrite feed_literal by assumption.
           cbn [length] in L. rewrite IH by (try assumption; lia).
           cbn [rev]. now rewrite <- !app_assoc.
        -- apply Tail. now apply feed_unicode_escape.
    + destruct (is_low_surrogate c).
      * apply Tail. now apply feed_unicode_escape.
      * apply Tail. now apply feed_quote_char.
Qed.

(** A quoted string where a value is expected in an object. *)
Lemma feed_quoted_value (s key : jsstring) (ms : list (jsstring * JValue)) (stk : list frame) :
  code_units s = true ->
  feed {| stack := FObj ms (Some key) :: stk; pmode := MValue false |} (quoted s)
  = Some {| stack := FObj ((key, JString s) :: ms) None :: stk; pmode := MAfter |}.
Proof.
  intros U. unfold quoted. cbn [app feed].
  replace (pstep {| stack := FObj ms (Some key) :: stk; pmode := MValue false |} c_quote)
    with (Some {| stack := FObj ms (Some key) :: stk; pmode := MStr false [] ENone |})
    by reflexivity.
  cbv beta iota.
  rewrite feed_app, (feed_quote_body (length s)) by (try assumption; lia).
  cbn [feed]. unfold pstep, str_step, end_string. cbn [pmode stack].
  rewrite N.eqb_refl, app_nil_r, rev_involutive. reflexivity.
Qed.

(** A quoted string where a key is expected. *)
Lemma feed_quoted_key (s : jsstring) (first : bool) (ms : list (jsstring * JValue))
    (stk : list frame) :
  code_units s = true ->
  feed {| stack := FObj ms None :: stk; pmode := MKey first |} (quoted s)
  = Some {| stack := FObj ms (Some s) :: stk; pmode := MColon |}.
Proof.
  intros U. unfold quoted. cbn [app feed].
  replace (pstep {| stack := FObj ms None :: stk; pmode := MKey first |} c_quote)
    with (Some {| stack := FObj ms None :: stk; pmode := MStr true [] ENone |})
    by reflexivity.
  cbv beta iota.
  rewrite feed_app, (feed_quote_body (length s)) by (try assumption; lia).
  cbn [feed]. unfold pstep, str_step, end_string. cbn [pmode stack].
  rewrite N.eqb_refl, app_nil_r, rev_involutive. reflexivity.
Qed.

(** One member [,"key":"value"] (or the first one, after the brace). *)
Lemma feed_member (key s : jsstring) (first : bool) (ms : list (jsstring * JValue))
    (rest : jsstring) :
  code_units key = true -> code_units s = true ->
  feed {| stack := [FObj ms None]; pmode := MKey first |}
       (quoted key ++ [c_colon] ++ quoted s ++ rest)
  = feed {| stack := [FObj ((key, JString s) :: ms) None]; pmode := MAfter |} rest.
Proof.
  intros Uk Us.
  rewrite feed_app, feed_quoted_key by assumption.
  cbn [app feed].
  replace (pstep {| stack := [FObj ms (Some key)]; pmode := MColon |} c_colon)
    with (Some {| stack := [FObj ms (Some key)]; pmode := MValue false |}) by reflexivity.
  cbv beta iota. now rewrite feed_app, feed_quoted_value.
Qed.

Lemma feed_comma (ms : list (jsstring * JValue)) (rest : jsstring) :
  feed {| stack := [FObj ms None]; pmode := MAfter |} (c_comma :: rest)
  = feed {| stack := [FObj ms None]; pmode := MKey false |} rest.
Proof. reflexivity. Qed.

Lemma stringify_settings_parsed (s : Settings) :
  settings_ok s = true -> JSON_parse (stringify_settings s) = Some (settings_value s).
Proof.
  unfold settings_ok. intros H.
  apply andb_true_iff in H as [H U4]. apply andb_true_iff in H as [H U3].
  apply andb_true_iff in H as [U1 U2].
  unfold JSON_parse, stringify_settings.
  change (feed pstart ([c_lbrace] ++ ?r))
    with (feed {| stack := [FObj [] None]; pmode := MKey true |} r).
  rewrite feed_member by (try assumption; reflexivity).
  change ([c_comma] ++ ?r) with (c_comma :: r). rewrite feed_comma.
  rewrite feed_member by (try assumption; reflexivity).
  change ([c_comma] ++ ?r) with (c_comma :: r). rewrite feed_comma.
  rewrite feed_member by (try assumption; reflexivity).
  change ([c_comma] ++ ?r) with (c_comma :: r). rewrite feed_comma.
  rewrite feed_member by (try assumption; reflexivity).
  reflexivity.
Qed.

(** X22. Settings that are saved are read back as they were: for all four
    strings of the settings, whatever characters they hold (quotes,
    backslashes, control characters, lone surrogates), the text written by
    [saveSettings] is decoded by [JSON.parse] to the same four strings, and
    [getSettings] then returns the saved key, URL and model without a
    warning. *)
Theorem saved_settings_are_read_back (s : Settings) :
  settings_ok s = true ->
  JSON_parse (saveSettings s) = Some (settings_value s) /\
  snd (getSettings (Item (Some (saveSettings s)))) = [] /\
  last_member (js "apiKey") (fst (getSettings (Item (Some (saveSettings s)))))
  = Some (JString (s_apiKey s)) /\
  last_member (js "baseUrl") (fst (getSettings (Item (Some (saveSettings s)))))
  = Some (JString (s_baseUrl s)) /\
  last_member (js "model") (fst (getSettings (Item (Some (saveSettings s)))))
  = Some (JString (s_model s)).
Proof.
  intros H. pose proof (stringify_settings_parsed s H) as P.
  split; [exact P|].
  destruct (getSettings_stored_object (saveSettings s)
              [ (js "apiKey", JString (s_apiKey s));
                (js "baseUrl", JString (s_baseUrl s));
                (js "model", JString (s_model s));
                (js "googleMapsKey", JString (s_googleMapsKey s)) ] P) as [W L].
  split; [exact W|]. rewrite !L. repeat split.
Qed.

(** A key with a quote, a backslash, a line feed and a lone surrogate. *)
Lemma saved_settings_are_read_back_witness :
  JSON_parse (saveSettings {| s_apiKey := [34%N; 92%N; 10%N; 55357%N];
                              s_baseUrl := js "u"; s_model := js "m";
                              s_googleMapsKey := [] |})
  = Some (settings_value {| s_apiKey := [34%N; 92%N; 10%N; 55357%N];
                            s_baseUrl := js "u"; s_model := js "m";
                            s_googleMapsKey := [] |}).
Proof.
  apply (saved_settings_are_read_back
           {| s_apiKey := [34%N; 92%N; 10%N; 55357%N];
              s_baseUrl := js "u"; s_model := js "m"; s_googleMapsKey := [] |}).
  reflexivity.
Defined.

(** ** The must-visit and avoid lists *)

Lemma drop_spaces_head (s : jsstring) (c : jschar) (r : jsstring) :
  drop_spaces s = c :: r -> is_js_space c = false.
Proof.
  induction s as [|x s IH]; cbn [drop_spaces]; [discriminate|].
  destruct (is_js_space x) eqn:E; [exact IH|]. now intros [= <- _].
Qed.

Lemma drop_spaces_fixed (s : jsstring) :
  match s with [] => True | c :: _ => is_js_space c = false end -> drop_spaces s = s.
Proof. destruct s as [|c s]; [reflexivity|]. cbn. now intros ->. Qed.

(** [trim] applied twice is [trim]. *)
Lemma trim_trim (s : jsstring) : trim (trim s) = trim s.
Proof.
  assert (T : trim s = rev (drop_spaces (rev (drop_spaces s)))) by reflexivity.
  destruct (drop_spaces_split (rev (drop_spaces s))) as (l & E & Hl).
  destruct (drop_spaces (rev (drop_spaces s))) as [|z w] eqn:W;
    rewrite T; [reflexivity|].
  pose proof (drop_spaces_head _ _ _ W) as Hz.
  (* the trimmed text is a prefix of [drop_spaces s] *)
  assert (U : drop_spaces s = rev (z :: w) ++ rev l).
  { rewrite <- rev_app_distr, <- E. now rewrite rev_involutive. }
  assert (Hd : drop_spaces (rev (z :: w)) = rev (z :: w)).
  { apply drop_spaces_fixed.
    remember (rev (z :: w)) as u eqn:R. destruct u as [|a t]; [trivial|]. symmetry in R.
    cbn [app] in U.
    now apply (drop_spaces_head s a (t ++ rev l)). }
  unfold trim. rewrite Hd, rev_involutive. cbn [drop_spaces]. now rewrite Hz.
Qed.

Lemma trim_tidy (s : jsstring) : truthy_str (Some (trim s)) = true -> tidy (trim s).
Proof.
  intros H. split; [|apply trim_trim]. intros E. rewrite E in H. discriminate.
Qed.

Lemma filter_other_index_sub {A} (P : A -> Prop) (idx : nat) (l : list A) : forall i,
  Forall P l -> Forall P (filter_other_index idx i l).
Proof.
  induction l as [|x l IH]; intros i H; cbn [filter_other_index]; [constructor|].
  inversion H; subst. destruct (Nat.eqb i idx); [now apply IH|].
  constructor; [assumption|now apply IH].
Qed.

(** X23. Whatever the user types, adds and removes, in whatever order, the
    must-visit list and the avoid list hold only entries that are not empty
    and have no white space at either end; an input that is empty or blank
    adds nothing. *)
Theorem wish_lists_hold_tidy_entries (evs : list WishEvent) :
  Forall tidy (mustVisitList (fold_left wish_step evs no_wishes)) /\
  Forall tidy (avoidList (fold_left wish_step evs no_wishes)) /\
  (forall w, forallb is_js_space (mustVisitInput w) = true -> addMustVisit w = w) /\
  (forall w, forallb is_js_space (avoidInput w) = true -> addAvoid w = w).
Proof.
  assert (G : forall w, Forall tidy (mustVisitList w) /\ Forall tidy (avoidList w) ->
            Forall tidy (mustVisitList (fold_left wish_step evs w)) /\
            Forall tidy (avoidList (fold_left wish_step evs w))).
  { induction evs as [|ev evs IH]; intros w [H1 H2]; [now split|].
    cbn [fold_left]. apply IH.
    destruct ev; cbn [wish_step]; try (split; assumption).
    - unfold addMustVisit.
      destruct (truthy_str (Some (trim (mustVisitInput w)))) eqn:T; [|now split].
      cbn. split; [|assumption].
      apply Forall_app. split; [assumption|]. constructor; [|constructor].
      now apply trim_tidy.
    - cbn. split; [|assumption]. now apply filter_other_index_sub.
    - unfold addAvoid.
      destruct (truthy_str (Some (trim (avoidInput w)))) eqn:T; [|now split].
      cbn. split; [assumption|].
      apply Forall_app. split; [assumption|]. constructor; [|constructor].
      now apply trim_tidy.
    - cbn. split; [assumption|]. now apply filter_other_index_sub. }
  destruct (G no_wishes) as [G1 G2]; [split; constructor|].
  split; [exact G1|]. split; [exact G2|]. split.
  - intros w H. unfold addMustVisit, trim. now rewrite (drop_spaces_blank _ H).
  - intros w H. unfold addAvoid, trim. now rewrite (drop_spaces_blank _ H).
Qed.

Lemma wish_lists_hold_tidy_entries_witness :
  addMustVisit {| mustVisitInput := js "  "; mustVisitList := [js "West Lake"];
                  avoidInput := []; avoidList := [] |}
  = {| mustVisitInput := js "  "; mustVisitList := [js "West Lake"];
       avoidInput := []; avoidList := [] |}.
Proof.
  apply (proj1 (proj2 (proj2 (wish_lists_hold_tidy_entries [])))). reflexivity.
Defined.

Lemma filter_other_index_delete {A} (l : list A) : forall idx i,
  (i <= idx)%nat -> filter_other_index idx i l = delete (idx - i)%nat l.
Proof.
  induction l as [|x l IH]; intros idx i H; cbn [filter_other_index]; [reflexivity|].
  destruct (Nat.eqb_spec i idx) as [->|N].
  - rewrite Nat.sub_diag. cbn [delete list_delete].
    clear IH H. revert idx.
    assert (G : forall j k, (k < j)%nat -> filter_other_index k j l = l).
    { induction l as [|y l IHl]; intros j k Hk; cbn [filter_other_index]; [reflexivity|].
      destruct (Nat.eqb_spec j k); [lia|]. f_equal. apply IHl. lia. }
    intros idx. apply G. lia.
  - replace (idx - i)%nat with (S (idx - S i)) by lia. cbn [delete list_delete].
    f_equal. apply IH. lia.
Qed.

(** X24. [removeMustVisit] and [removeAvoid] remove the entry of the given
    index and no other: the list loses exactly that entry and keeps the
    others in order; an index past the end changes nothing; and removing the
    entry just added gives back the list as it was. *)
Theorem removing_an_entry_removes_that_entry (w : Wishes) (idx : nat) :
  mustVisitList (removeMustVisit idx w) = delete idx (mustVisitList w) /\
  avoidList (removeAvoid idx w) = delete idx (avoidList w) /\
  ((length (mustVisitList w) <= idx)%nat -> removeMustVisit idx w = w) /\
  ((length (avoidList w) <= idx)%nat -> removeAvoid idx w = w) /\
  mustVisitList (removeMustVisit (length (mustVisitList w)) (addMustVisit w))
  = mustVisitList w /\
  avoidList (removeAvoid (length (avoidList w)) (addAvoid w)) = avoidList w.
Proof.
  assert (D : forall (l : list jsstring) i, filter_other_index i 0 l = delete i l).
  { intros l i. rewrite filter_other_index_delete by lia. now rewrite Nat.sub_0_r. }
  assert (O : forall (l : list jsstring) i, (length l <= i)%nat -> delete i l = l).
  { induction l as [|x l IH]; intros i H; [now destruct i|].
    destruct i; cbn in H; [lia|]. cbn. f_equal. apply IH. lia. }
  assert (L : forall (l : list jsstring) x, delete (length l) (l ++ [x]) = l).
  { induction l as [|y l IH]; intros x; [reflexivity|]. cbn. f_equal. apply IH. }
  split; [apply D|]. split; [apply D|]. split; [|split; [|split]].
  - intros H. unfold removeMustVisit. rewrite D, O by assumption. now destruct w.
  - intros H. unfold removeAvoid. rewrite D, O by assumption. now destruct w.
  - unfold addMustVisit. destruct (truthy_str _); cbn [removeMustVisit mustVisitList].
    + rewrite D. apply L.
    + rewrite D. now apply O.
  - unfold addAvoid. destruct (truthy_str _); cbn [removeAvoid avoidList].
    + rewrite D. apply L.
    + rewrite D. now apply O.
Qed.

Lemma removing_an_entry_removes_that_entry_witness :
  removeMustVisit 5 {| mustVisitInput := []; mustVisitList := [js "a"; js "b"];
                       avoidInput := []; avoidList := [] |}
  = {| mustVisitInput := []; mustVisitList := [js "a"; js "b"];
       avoidInput := []; avoidList := [] |}.
Proof.
  apply (proj1 (proj2 (proj2 (removing_an_entry_removes_that_entry
           {| mustVisitInput := []; mustVisitList := [js "a"; js "b"];
              avoidInput := []; avoidList := [] |} 5%nat)))).
  cbn. lia.
Defined.

(** ** The calendar *)

Lemma DayFromYear_step (y : Z) : DayFromYear (y + 1) = DayFromYear y + DaysInYear y.
Proof.
  unfold DayFromYear, DaysInYear.
  destruct (Z.eqb_spec (y mod 4) 0); destruct (Z.eqb_spec (y mod 100) 0);
    destruct (Z.eqb_spec (y mod 400) 0); cbn [negb]; Z.div_mod_to_equations; lia.
Qed.

Lemma DayFromYear_bounds (y : Z) :
  146097 * (y - 1970) - 506 <= 400 * DayFromYear y <= 146097 * (y - 1970) + 589.
Proof. unfold DayFromYear. Z.div_mod_to_equations. lia. Qed.

(** [YearFromDay d] is the year the day [d] falls in. *)
Lemma YearFromDay_spec (d : Z) :
  DayFromYear (YearFromDay d) <= d < DayFromYear (YearFromDay d + 1).
Proof.
  unfold YearFromDay.
  set (e := 1970 + (400 * d) / 146097).
  assert (E : 146097 * (e - 1970) <= 400 * d < 146097 * (e - 1970) + 146097).
  { subst e. Z.div_mod_to_equations. lia. }
  pose proof (DayFromYear_bounds (e - 1)). pose proof (DayFromYear_bounds (e + 1 + 1)).
  destruct (Z.ltb_spec d (DayFromYear e)).
  - replace (e - 1 + 1) with e by lia. lia.
  - destruct (Z.leb_spec (DayFromYear (e + 1)) d); lia.
Qed.

Lemma DayWithinYear_range (t : Z) : 0 <= DayWithinYear t < 365 + InLeapYear t.
Proof.
  unfold DayWithinYear, InLeapYear, YearFromTime.
  pose proof (YearFromDay_spec (Day t)) as H. rewrite DayFromYear_step in H.
  assert (D : DaysInYear (YearFromDay (Day t)) = 365 \/ DaysInYear (YearFromDay (Day t)) = 366).
  { unfold DaysInYear. repeat (destruct (negb _); auto). }
  destruct (Z.eqb_spec (DaysInYear (YearFromDay (Day t))) 366); lia.
Qed.

Lemma InLeapYear_range (t : Z) : InLeapYear t = 0 \/ InLeapYear t = 1.
Proof. unfold InLeapYear. destruct (_ =? _); auto. Qed.

Lemma calendar_fields_range (t : Z) :
  1 <= MonthFromTime t + 1 <= 12 /\ 1 <= DateFromTime t <= 31 /\
  0 <= HourFromTime t <= 23 /\ 0 <= MinFromTime t <= 59.
Proof.
  pose proof (DayWithinYear_range t) as R. pose proof (InLeapYear_range t) as L.
  unfold DateFromTime, MonthFromTime, HourFromTime, MinFromTime.
  set (d := DayWithinYear t) in *. set (leap := InLeapYear t) in *.
  split; [|split; [|split]].
  - repeat match goal with
           | |- context [d <? ?b] => destruct (Z.ltb_spec d b); [lia|]
           end. lia.
  - repeat match goal with
           | |- context [d <? ?b] => destruct (Z.ltb_spec d b); [cbv iota; lia|]
           end. cbv iota. lia.
  - pose proof (Z.mod_pos_bound (t / msPerHour) 24 ltac:(lia)). lia.
  - pose proof (Z.mod_pos_bound (t / msPerMinute) 60 ltac:(lia)). lia.
Qed.

(** ** Numbers written with two digits *)

Lemma pad_two_digits (n : Z) :
  0 <= n < 100 -> padStart2 (Number_toString (Some n)) = two_digits n.
Proof.
  intros H.
  assert (E : exists k, (k < 100)%nat /\ n = Z.of_nat k).
  { exists (Z.to_nat n). split; lia. }
  destruct E as (k & Hk & ->). clear H.
  do 100 (destruct k as [|k]; [reflexivity|]). lia.
Qed.

Lemma pad_plus_one (m : Z) :
  0 <= m < 99 ->
  padStart2 (Number_toString (add_number (Some m) (Some 1))) = two_digits (m + 1).
Proof. intros H. cbn [add_number]. apply pad_two_digits. lia. Qed.

(** ** [formatBeijingDate] *)

Lemma formatBeijingDate_fixed (B : Browser) (offset t : Z) :
  (forall x, tza B x = offset) ->
  Z.abs (t - offset + beijing_offset) <= 8640000000000000 ->
  formatBeijingDate B (Some t) = wall_clock (t + beijing_offset).
Proof.
  intros Hz Hr. unfold formatBeijingDate, timezoneOffset_ms, LocalTime.
  cbn [option_map add_number new_Date]. rewrite Hz.
  replace (t + (t - (t + offset)) + 8 * 60 * 60 * 1000) with (t - offset + beijing_offset)
    by (unfold beijing_offset, msPerHour; lia).
  unfold TimeClip. apply Z.leb_le in Hr. rewrite Hr.
  unfold local_field, LocalTime. cbn [option_map]. rewrite Hz.
  replace (t - offset + beijing_offset + offset) with (t + beijing_offset) by lia.
  pose proof (calendar_fields_range (t + beijing_offset)) as (R1 & R2 & R3 & R4).
  unfold wall_clock.
  rewrite pad_plus_one by lia. rewrite !pad_two_digits by lia. reflexivity.
Qed.

(** X25. In a browser whose local time keeps a constant offset from UTC, a
    whole number of minutes of at most a day, and for a valid date: when the
    instant that [formatBeijingDate] builds (the time of the date, minus the
    offset, plus 8 hours) is a valid time value, at most 8.64e15 in
    magnitude, the text is the time of Beijing: the
    year, then the month, the day, the hour and the minute with two digits
    each, of the instant taken 8 hours ahead of UTC; the month is between 01
    and 12, the day between 01 and 31, the hour between 00 and 23 and the
    minute between 00 and 59.  When that instant is out of range, which
    happens for valid dates at the ends of the range, the text is
    [NaN-NaN-NaNTNaN:NaN]. *)
Theorem formatBeijingDate_writes_beijing_time (B : Browser) (offset t : Z) :
  (forall x, tza B x = offset) ->
  offset mod msPerMinute = 0 -> Z.abs offset <= msPerDay ->
  Z.abs t <= 8640000000000000 ->
  (Z.abs (t - offset + beijing_offset) <= 8640000000000000 ->
   formatBeijingDate B (Some t) = wall_clock (t + beijing_offset)) /\
  (8640000000000000 < Z.abs (t - offset + beijing_offset) ->
   formatBeijingDate B (Some t) = js "NaN-NaN-NaNTNaN:NaN") /\
  1 <= MonthFromTime (t + beijing_offset) + 1 <= 12 /\
  1 <= DateFromTime (t + beijing_offset) <= 31 /\
  0 <= HourFromTime (t + beijing_offset) <= 23 /\
  0 <= MinFromTime (t + beijing_offset) <= 59.
Proof.
  intros Hz _ _ _. split; [intros Hr; now apply (formatBeijingDate_fixed B offset)|].
  split; [|apply calendar_fields_range].
  intros Hr. unfold formatBeijingDate, timezoneOffset_ms, LocalTime.
  cbn [option_map add_number new_Date]. rewrite Hz.
  replace (t + (t - (t + offset)) + 8 * 60 * 60 * 1000) with (t - offset + beijing_offset)
    by (unfold beijing_offset, msPerHour; lia).
  unfold TimeClip. apply Z.leb_gt in Hr. rewrite Hr. reflexivity.
Qed.

(** 2024-02-29 23:30 UTC, seen from New York (UTC-5): March 1st, 07:30 in
    Beijing. *)
Lemma formatBeijingDate_writes_beijing_time_witness :
  formatBeijingDate (fixed_zone (-5 * msPerHour) (fun _ => None)) (Some 1709249400000)
  = js "2024-03-01T07:30".
Proof.
  refine (proj1 (formatBeijingDate_writes_beijing_time
                   (fixed_zone (-5 * msPerHour) (fun _ => None))
                   (-5 * msPerHour) 1709249400000 _ _ _ _) _).
  - reflexivity.
  - reflexivity.
  - vm_compute. discriminate.
  - vm_compute. discriminate.
  - vm_compute. discriminate.
Defined.

(** X26. A date that is not valid is written as [NaN-NaN-NaNTNaN:NaN]: this
    is the end time that [handleStartTimeChange] and [handleDaysChange] set
    when the start time cannot be parsed (an input that was cleared), the
    number of days being kept. *)
Theorem invalid_start_time_gives_NaN_text (B : Browser) (val : jsstring) (f : Form) :
  Date_parse B val = None ->
  formatBeijingDate B None = js "NaN-NaN-NaNTNaN:NaN" /\
  (forall n, calculateEndTimeFromDays B val n = js "NaN-NaN-NaNTNaN:NaN") /\
  handleStartTimeChange B val f
  = {| f_startTime := val; f_endTime := js "NaN-NaN-NaNTNaN:NaN";
       f_days := f_days f; f_travelers := f_travelers f |} /\
  (f_startTime f = val ->
   forall newDays, f_endTime (handleDaysChange B newDays f) = js "NaN-NaN-NaNTNaN:NaN").
Proof.
  intros H.
  assert (E : forall n, calculateEndTimeFromDays B val n = js "NaN-NaN-NaNTNaN:NaN").
  { intros n. unfold calculateEndTimeFromDays. rewrite H. reflexivity. }
  split; [reflexivity|]. split; [exact E|]. split.
  - unfold handleStartTimeChange. now rewrite E.
  - intros Hs newDays. unfold handleDaysChange. cbn [f_endTime]. rewrite Hs. apply E.
Qed.

Lemma invalid_start_time_gives_NaN_text_witness :
  handleStartTimeChange (fixed_zone 0 (fun _ => None)) [] (initial_form (js "a") (js "b"))
  = {| f_startTime := []; f_endTime := js "NaN-NaN-NaNTNaN:NaN";
       f_days := 3; f_travelers := 2 |}.
Proof.
  apply (proj1 (proj2 (proj2 (invalid_start_time_gives_NaN_text
           (fixed_zone 0 (fun _ => None)) [] (initial_form (js "a") (js "b")) eq_refl)))).
Defined.

(** ** The number of days *)

Lemma ceil_div_spec (a b : Z) : 0 < b -> a <= ceil_div a b * b < a + b.
Proof. intros H. unfold ceil_div. Z.div_mod_to_equations. nia. Qed.

Lemma calculateDaysDiff_pos (B : Browser) (s e : jsstring) : 1 <= calculateDaysDiff B s e.
Proof.
  unfold calculateDaysDiff.
  destruct (Date_parse B s); [|lia]. destruct (Date_parse B e); lia.
Qed.

(** X27. [calculateDaysDiff] returns at least 1, and 1 when one of the two
    texts cannot be parsed.  When both are parsed and the two instants are at
    most 2^53 milliseconds apart, where the difference is exact and the
    quotient rounds to no other whole number, it returns the least whole
    number of days, at least 1, that covers the time from the start to the
    end: [n] when the end is exactly [n] days after the start, and one day
    more as soon as it is a millisecond later.  (Two valid dates can be up to
    1.728e16 milliseconds apart, which is beyond 2^53.) *)
Theorem calculateDaysDiff_is_the_least_cover (B : Browser) (s e : jsstring) :
  1 <= calculateDaysDiff B s e /\
  (Date_parse B s = None \/ Date_parse B e = None -> calculateDaysDiff B s e = 1) /\
  (forall startT endT, Date_parse B s = Some startT -> Date_parse B e = Some endT ->
     Z.abs (endT - startT) <= exact_bound ->
     endT - startT <= calculateDaysDiff B s e * msPerDay /\
     (forall d, 1 <= d -> endT - startT <= d * msPerDay -> calculateDaysDiff B s e <= d) /\
     (forall n, 1 <= n -> endT = startT + n * msPerDay -> calculateDaysDiff B s e = n) /\
     (forall n, 1 <= n -> endT = startT + n * msPerDay + 1 ->
        calculateDaysDiff B s e = n + 1)).
Proof.
  split; [apply calculateDaysDiff_pos|]. split.
  - unfold calculateDaysDiff. intros [->| ->]; [reflexivity|].
    now destruct (Date_parse B s).
  - intros startT endT Hs He _. unfold calculateDaysDiff. rewrite Hs, He.
    change (1000 * 60 * 60 * 24) with msPerDay.
    pose proof (ceil_div_spec (endT - startT) msPerDay eq_refl) as C.
    unfold msPerDay in *.
    split; [lia|]. split; [intros d Hd Hc; nia|]. split.
    + intros n Hn ->. nia.
    + intros n Hn ->. nia.
Qed.

Lemma calculateDaysDiff_is_the_least_cover_witness :
  calculateDaysDiff
    (fixed_zone 0 (fun s => match s with [] => Some 0 | _ => Some (3 * msPerDay + 1) end))
    [] (js "x") = 4.
Proof.
  refine (proj2 (proj2 (proj2 (proj2 (proj2 (calculateDaysDiff_is_the_least_cover
            (fixed_zone 0 (fun s => match s with [] => Some 0
                                                | _ => Some (3 * msPerDay + 1) end))
            [] (js "x"))) 0 (3 * msPerDay + 1) eq_refl eq_refl _))) 3 _ _).
  - vm_compute. discriminate.
  - lia.
  - reflexivity.
Defined.

(** ** The form *)

(** X28. The number of days and the number of travelers of the form never
    fall below 1: from the form as it is created, whatever the user types in
    the two date inputs, whatever buttons and presets are used, in whatever
    order and with whatever time zone and date parser the browser has. *)
Theorem days_and_travelers_stay_positive
    (B : Browser) (startTime0 endTime0 : jsstring) (evs : list FormEvent) :
  1 <= f_days (fold_left (form_step B) evs (initial_form startTime0 endTime0)) /\
  1 <= f_travelers (fold_left (form_step B) evs (initial_form startTime0 endTime0)).
Proof.
  assert (G : forall f, 1 <= f_days f /\ 1 <= f_travelers f ->
            1 <= f_days (fold_left (form_step B) evs f) /\
            1 <= f_travelers (fold_left (form_step B) evs f)).
  { induction evs as [|ev evs IH]; intros f [Hd Ht]; [now split|].
    cbn [fold_left]. apply IH.
    destruct ev as [val|val| | | | |target type now0 now]; cbn; try (split; lia).
    - split; [apply calculateDaysDiff_pos|assumption].
    - unfold handleTimePreset. destruct target.
      + destruct (date_lt _ _); cbn; (split; [|assumption]);
          [apply calculateDaysDiff_pos|assumption].
      + cbn. split; [apply calculateDaysDiff_pos|assumption]. }
  apply G. cbn. lia.
Qed.

(** ** [encodeURIComponent] *)

Lemma hex_upper_safe (d : N) : (d < 16)%N -> is_unreserved (hex_upper d) = true.
Proof.
  intros H. unfold hex_upper, is_unreserved, is_alnum.
  destruct (N.ltb_spec d 10).
  - replace (is_digit (48 + d)%N) with true; [reflexivity|].
    symmetry. apply is_digit_range. lia.
  - replace (N.leb 65 (55 + d)%N && N.leb (55 + d)%N 90) with true.
    + now rewrite orb_true_r.
    + symmetry. apply andb_true_iff. split; apply N.leb_le; lia.
Qed.

Lemma percent_safe (octet : N) :
  (octet < 256)%N -> forallb is_uri_safe (percent octet) = true.
Proof.
  intros H. unfold percent, is_uri_safe. cbn [forallb].
  rewrite !hex_upper_safe.
  - reflexivity.
  - apply N.mod_upper_bound. lia.
  - apply N.Div0.div_lt_upper_bound. lia.
Qed.

Lemma escape_code_point_safe (cp : N) :
  (cp < 1114112)%N -> forallb is_uri_safe (escape_code_point cp) = true.
Proof.
  intros H. unfold escape_code_point, utf8.
  assert (M : forall x, (128 + x mod 64 < 256)%N).
  { intros x. pose proof (N.mod_upper_bound x 64 ltac:(lia)). lia. }
  destruct (N.ltb_spec cp 128); [|destruct (N.ltb_spec cp 2048);
    [|destruct (N.ltb_spec cp 65536)]];
    cbn [flat_map]; rewrite ?forallb_app, ?percent_safe; try reflexivity;
    try apply M; try lia.
  - assert (cp / 64 < 32)%N by (apply N.Div0.div_lt_upper_bound; lia). lia.
  - assert (cp / 4096 < 16)%N by (apply N.Div0.div_lt_upper_bound; lia). lia.
  - assert (cp / 262144 < 5)%N by (apply N.Div0.div_lt_upper_bound; lia). lia.
Qed.

Lemma surrogate_bounds (c : jschar) :
  (is_high_surrogate c = true -> (55296 <= c <= 56319)%N) /\
  (is_low_surrogate c = true -> (56320 <= c <= 57343)%N).
Proof.
  unfold is_high_surrogate, is_low_surrogate.
  split; intros H; apply andb_true_iff in H as [H1 H2];
    apply N.leb_le in H1; apply N.leb_le in H2; lia.
Qed.

Lemma unreserved_not_surrogate (c : jschar) :
  is_unreserved c = true -> is_high_surrogate c = false /\ is_low_surrogate c = false.
Proof.
  intros H.
  assert (B : (c < 128)%N).
  { unfold is_unreserved, is_alnum, is_uri_mark, is_digit in H.
    repeat match goal with
           | X : _ || _ = true |- _ => apply orb_true_iff in X; destruct X as [X|X]
           | X : _ && _ = true |- _ => apply andb_true_iff in X; destruct X as [? X]
           | X : N.eqb _ _ = true |- _ => apply N.eqb_eq in X
           | X : N.leb _ _ = true |- _ => apply N.leb_le in X
           end; lia. }
  pose proof (surrogate_bounds c) as [Hh Hl].
  split.
  - destruct (is_high_surrogate c); [specialize (Hh eq_refl); lia|reflexivity].
  - destruct (is_low_surrogate c); [specialize (Hl eq_refl); lia|reflexivity].
Qed.

Lemma encodeURIComponent_facts (n : nat) : forall s,
  (length s <= n)%nat ->
  (encodeURIComponent s = None <-> isWellFormed s = false) /\
  (code_units s = true -> forall o, encodeURIComponent s = Some o ->
     forallb is_uri_safe o = true).
Proof.
  induction n as [|n IH]; intros s L.
  - destruct s; [|cbn in L; lia]. cbn. split; [split; discriminate|].
    intros _ o [= <-]. reflexivity.
  - destruct s as [|c r]; [cbn; split; [split; discriminate|now intros _ o [= <-]]|].
    cbn [length] in L. destruct (IH r ltac:(lia)) as [W S].
    cbn [encodeURIComponent isWellFormed code_units forallb].
    destruct (is_unreserved c) eqn:U.
    + destruct (unreserved_not_surrogate c U) as [-> ->]. cbn [negb andb]. split.
      * rewrite <- W. destruct (encodeURIComponent r); cbn [option_map]; split; intros X;
           try discriminate X; reflexivity.
      * intros C o H. apply andb_true_iff in C as [_ C].
        destruct (encodeURIComponent r) as [o'|]; [|discriminate]. injection H as <-.
        cbn [forallb]. unfold is_uri_safe at 1. rewrite U. cbn. now apply S.
    + destruct (is_high_surrogate c) eqn:Hh.
      * destruct r as [|d r']; [split; [split; reflexivity|discriminate]|].
        cbn [length] in L. destruct (IH r' ltac:(lia)) as [W' S'].
        destruct (is_low_surrogate d) eqn:Hl; cbn [andb];
          [|split; [split; reflexivity|discriminate]].
        split.
        -- rewrite <- W'. destruct (encodeURIComponent r'); cbn [option_map]; split; intros X;
           try discriminate X; reflexivity.
        -- intros C o H. apply andb_true_iff in C as [_ C].
           cbn [code_units forallb] in C. apply andb_true_iff in C as [_ C].
           destruct (encodeURIComponent r') as [o'|]; [|discriminate]. injection H as <-.
           rewrite forallb_app, (S' C o' eq_refl), andb_true_r.
           apply escape_code_point_safe.
           pose proof (proj1 (surrogate_bounds c) Hh).
           pose proof (proj2 (surrogate_bounds d) Hl).
           unfold code_point. lia.
      * destruct (is_low_surrogate c); cbn [negb andb];
          [split; [split; reflexivity|discriminate]|].
        split.
        -- rewrite <- W. destruct (encodeURIComponent r); cbn [option_map]; split; intros X;
           try discriminate X; reflexivity.
        -- intros C o H. apply andb_true_iff in C as [Cc C]. apply N.ltb_lt in Cc.
           destruct (encodeURIComponent r) as [o'|]; [|discriminate]. injection H as <-.
           rewrite forallb_app, (S C o' eq_refl), andb_true_r.
           apply escape_code_point_safe. lia.
Qed.

Lemma encodeURIComponent_unreserved (s : jsstring) :
  forallb is_unreserved s = true -> encodeURIComponent s = Some s.
Proof.
  induction s as [|c r IH]; cbn [forallb encodeURIComponent]; intros H; [reflexivity|].
  apply andb_true_iff in H as [Hc Hr]. now rewrite Hc, IH.
Qed.

(** X29. [encodeURIComponent] raises its URIError exactly on the texts that
    hold a surrogate without its partner; what it returns is made of
    unreserved characters and percent signs only, so that it holds no space,
    [&], [=], [#], [?] or [/]; and a text of unreserved characters is
    returned as it is. *)
Theorem encodeURIComponent_is_safe_or_fails (s : jsstring) :
  (encodeURIComponent s = None <-> isWellFormed s = false) /\
  (code_units s = true -> forall o, encodeURIComponent s = Some o ->
     forallb is_uri_safe o = true) /\
  (forallb is_unreserved s = true -> encodeURIComponent s = Some s).
Proof.
  destruct (encodeURIComponent_facts (length s) s (le_n _)) as [W S].
  split; [exact W|]. split; [exact S|]. apply encodeURIComponent_unreserved.
Qed.

(** "a b&c" is encoded as "a%20b%26c". *)
Lemma encodeURIComponent_is_safe_or_fails_witness :
  forallb is_uri_safe (js "a%20b%26c") = true.
Proof.
  apply (proj1 (proj2 (encodeURIComponent_is_safe_or_fails (js "a b&c"))) eq_refl).
  reflexivity.
Defined.

(** ** The addresses of the images *)

Lemma isWellFormed_app (n : nat) : forall a b,
  (length a <= n)%nat ->
  match b with [] => True | d :: _ => is_low_surrogate d = false end ->
  isWellFormed (a ++ b) = isWellFormed a && isWellFormed b.
Proof.
  induction n as [|n IH]; intros a b L Hb.
  - destruct a; [reflexivity|cbn in L; lia].
  - destruct a as [|c r]; [reflexivity|]. cbn [length] in L.
    cbn [app isWellFormed].
    destruct (is_high_surrogate c).
    + destruct r as [|d r'].
      * cbn [app]. destruct b as [|d b]; [reflexivity|]. now rewrite Hb.
      * cbn [app]. cbn [length] in L. rewrite (IH r' b) by (try assumption; lia).
        now rewrite andb_assoc.
    + rewrite (IH r b) by (try assumption; lia). now rewrite andb_assoc.
Qed.

Lemma encode_query (name kw : jsstring) :
  isWellFormed (js " " ++ kw) = true ->
  (isWellFormed name = false -> encodeURIComponent (name ++ js " " ++ kw) = None) /\
  (isWellFormed name = true -> code_units name = true -> code_units kw = true ->
   exists q, encodeURIComponent (name ++ js " " ++ kw) = Some q /\
             forallb is_uri_safe q = true).
Proof.
  intros Hk.
  assert (E : isWellFormed (name ++ js " " ++ kw) = isWellFormed name).
  { rewrite (isWellFormed_app (length name)) by (try reflexivity; lia).
    rewrite Hk. apply andb_true_r. }
  destruct (encodeURIComponent_facts (length (name ++ js " " ++ kw)) _ (le_n _)) as [W S].
  split.
  - intros H. apply W. now rewrite E.
  - intros H Un Uk.
    destruct (encodeURIComponent (name ++ js " " ++ kw)) as [q|] eqn:Q.
    + exists q. split; [reflexivity|]. apply S; [|reflexivity].
      unfold code_units. rewrite forallb_app. apply andb_true_iff. split; [exact Un|].
      rewrite forallb_app. apply andb_true_iff. split; [reflexivity|exact Uk].
    + rewrite (proj1 W eq_refl) in E. congruence.
Qed.

(** X30. [getRealImages] raises a URIError exactly when the name of the
    place holds a surrogate without its partner; otherwise it returns four
    addresses, on the hosts tse1 to tse4 in this order, whose query holds
    unreserved characters and percent signs only: nothing in the name can end
    the query or add a parameter to the address. *)
Theorem getRealImages_gives_four_safe_addresses (name type : jsstring) :
  code_units name = true ->
  (isWellFormed name = false -> getRealImages name type = None) /\
  (isWellFormed name = true ->
   exists q1 q2 q3 q4,
     getRealImages name type
     = Some [ js "https://tse1.mm.bing.net/th?q=" ++ q1 ++ js "&w=800&h=600&c=7&rs=1";
              js "https://tse2.mm.bing.net/th?q=" ++ q2 ++ js "&w=800&h=600&c=7&rs=1";
              js "https://tse3.mm.bing.net/th?q=" ++ q3 ++ js "&w=800&h=600&c=7&rs=1";
              js "https://tse4.mm.bing.net/th?q=" ++ q4 ++ js "&w=800&h=600&c=7&rs=1" ] /\
     forallb is_uri_safe q1 = true /\ forallb is_uri_safe q2 = true /\
     forallb is_uri_safe q3 = true /\ forallb is_uri_safe q4 = true).
Proof.
  intros Un. unfold getRealImages, keywords.
  set (k3 := if str_eqb type (js "restaurant") then _ else _).
  assert (K3 : isWellFormed (js " " ++ k3) = true /\ code_units k3 = true).
  { subst k3. destruct (str_eqb type (js "restaurant")); split; reflexivity. }
  destruct K3 as [K3w K3u].
  destruct (encode_query name [39640%N; 28165%N; 22823%N; 22270%N] eq_refl) as [F1 S1].
  destruct (encode_query name [26223%N; 33394%N] eq_refl) as [F2 S2].
  destruct (encode_query name k3 K3w) as [F3 S3].
  destruct (encode_query name [26053%N; 28216%N] eq_refl) as [F4 S4].
  split.
  - intros H. cbn [image_urls]. now rewrite (F1 H).
  - intros H.
    destruct (S1 H Un eq_refl) as (q1 & E1 & Q1).
    destruct (S2 H Un eq_refl) as (q2 & E2 & Q2).
    destruct (S3 H Un K3u) as (q3 & E3 & Q3).
    destruct (S4 H Un eq_refl) as (q4 & E4 & Q4).
    exists q1, q2, q3, q4. cbn [image_urls]. rewrite E1, E2, E3, E4.
    repeat split; assumption.
Qed.

Lemma getRealImages_gives_four_safe_addresses_witness :
  getRealImages [55357%N] (js "hotel") = None.
Proof.
  apply (proj1 (getRealImages_gives_four_safe_addresses [55357%N] (js "hotel") eq_refl)).
  reflexivity.
Defined.
